(** * my_ptr: control block, shared_ptr, weak_ptr and unique_ptr

    A shallow embedding of the headers under [include/]:
    [detail/control_block.hpp], [shared_ptr.hpp], [weak_ptr.hpp],
    [unique_ptr.hpp] and [memory.hpp].

    Pointers to control blocks are [option positive] ([None] is [nullptr]);
    raw [T*] pointers are integers with [0] for [nullptr]. Every object of
    class type (a handle or a control block) lives in a store, so that two
    references naming the same object alias, as they do in C++. Counters are
    [size_t] values of an LP64 platform: integers modulo [2^64].  *)

From Stdlib Require Import ZArith Lia List.
From stdpp Require Import gmap list.

Open Scope Z_scope.

(** ** Machine integers *)

Definition size_t_modulus : Z := 2 ^ 64.

(** Arithmetic on [size_t] wraps around. *)
Definition wrap (z : Z) : Z := z mod size_t_modulus.

(** [static_cast<long>(size_t)] on LP64. *)
Definition to_long (z : Z) : Z :=
  if z <? 2 ^ 63 then z else z - size_t_modulus.

(** ** Data *)

(** A deleter, stored by value. [default_delete] runs [delete ptr]; of any
    other deleter only the call is recorded. *)
Inductive deleter : Type :=
| default_delete
| custom_deleter (id : nat).

Inductive cb_variant : Type :=
| separate_control_block (ptr_ : Z) (deleter_ : deleter)
| inline_control_block.

Record control_block_base : Type := mk_cb {
  shared_count_ : Z;
  weak_count_ : Z;
  derived : cb_variant
}.

Record shared_ptr : Type := mk_shared {
  sp_ptr_ : Z;
  sp_ctrl_block_ : option positive
}.

Record weak_ptr : Type := mk_weak {
  wp_ptr_ : Z;
  wp_ctrl_block_ : option positive
}.

Record unique_ptr : Type := mk_unique {
  up_ptr_ : Z;
  up_deleter_ : deleter
}.

Inductive event : Type :=
| EvDispose (cb : positive)          (* virtual dispose() entered *)
| EvDestroy (cb : positive)          (* virtual destroy() entered *)
| EvDelete (p : Z)                   (* default_delete: delete p *)
| EvCustomDeleter (id : nat) (p : Z) (* a custom deleter called on p *)
| EvDestructInPlace (cb : positive). (* get_ptr()->~T() *)

Inductive exn : Type :=
| bad_weak_ptr
| bad_alloc
| ctor_failure (tag : nat).

Global Instance event_eq_dec : EqDecision event.
Proof. solve_decision. Defined.

(** The memory: raw storage handed out for control blocks, the control
    blocks constructed in it, the live objects created by [new T], the
    handle objects, and the calls made so far, oldest first. *)
Record memory : Type := mk_memory {
  storage : gset positive;
  blocks : gmap positive control_block_base;
  objects : gset Z;
  shared_ptrs : gmap positive shared_ptr;
  weak_ptrs : gmap positive weak_ptr;
  unique_ptrs : gmap positive unique_ptr;
  trace : list event
}.

Definition set_storage (f : gset positive → gset positive) (m : memory) : memory :=
  mk_memory (f (storage m)) (blocks m) (objects m) (shared_ptrs m)
            (weak_ptrs m) (unique_ptrs m) (trace m).
Definition set_blocks
    (f : gmap positive control_block_base → gmap positive control_block_base)
    (m : memory) : memory :=
  mk_memory (storage m) (f (blocks m)) (objects m) (shared_ptrs m)
            (weak_ptrs m) (unique_ptrs m) (trace m).
Definition set_objects (f : gset Z → gset Z) (m : memory) : memory :=
  mk_memory (storage m) (blocks m) (f (objects m)) (shared_ptrs m)
            (weak_ptrs m) (unique_ptrs m) (trace m).
Definition set_shared_ptrs
    (f : gmap positive shared_ptr → gmap positive shared_ptr) (m : memory) : memory :=
  mk_memory (storage m) (blocks m) (objects m) (f (shared_ptrs m))
            (weak_ptrs m) (unique_ptrs m) (trace m).
Definition set_weak_ptrs
    (f : gmap positive weak_ptr → gmap positive weak_ptr) (m : memory) : memory :=
  mk_memory (storage m) (blocks m) (objects m) (shared_ptrs m)
            (f (weak_ptrs m)) (unique_ptrs m) (trace m).
Definition set_unique_ptrs
    (f : gmap positive unique_ptr → gmap positive unique_ptr) (m : memory) : memory :=
  mk_memory (storage m) (blocks m) (objects m) (shared_ptrs m)
            (weak_ptrs m) (f (unique_ptrs m)) (trace m).
Definition set_trace (f : list event → list event) (m : memory) : memory :=
  mk_memory (storage m) (blocks m) (objects m) (shared_ptrs m)
            (weak_ptrs m) (unique_ptrs m) (f (trace m)).

Definition empty_memory : memory := mk_memory ∅ ∅ ∅ ∅ ∅ ∅ [].

(** ** Computations *)

(** A call returns a value, throws, or has undefined behaviour (it touched
    an object that no longer exists). *)
Inductive outcome (A : Type) : Type :=
| Ret (a : A) (m : memory)
| Throw (e : exn) (m : memory)
| Undefined.
Arguments Ret {A} a m.
Arguments Throw {A} e m.
Arguments Undefined {A}.

Definition M (A : Type) : Type := memory → outcome A.

Definition ret {A} (a : A) : M A := fun m => Ret a m.

Definition bind {A B} (c : M A) (k : A → M B) : M B :=
  fun m => match c m with
           | Ret a m' => k a m'
           | Throw e m' => Throw e m'
           | Undefined => Undefined
           end.

Definition throw {A} (e : exn) : M A := fun m => Throw e m.

Definition undefined {A} : M A := fun _ => Undefined.

(** [try { c } catch (...) { h }] *)
Definition try_catch {A} (c : M A) (h : exn → M A) : M A :=
  fun m => match c m with
           | Throw e m' => h e m'
           | r => r
           end.

Declare Scope cpp_scope.
Delimit Scope cpp_scope with cpp.
Notation "'let*' x ':=' c 'in' k" := (bind c (fun x => k))
  (at level 10, x name, c at level 100, k at level 200) : cpp_scope.
Notation "c '>>' k" := (bind c (fun _ => k))
  (at level 90, right associativity) : cpp_scope.
Open Scope cpp_scope.

Definition log (e : event) : M unit :=
  fun m => Ret tt (set_trace (fun t => t ++ [e]) m).

(** ** detail/control_block.hpp *)

Definition get_block (cb : positive) : M control_block_base :=
  fun m => match blocks m !! cb with
           | Some b => Ret b m
           | None => Undefined
           end.

Definition put_block (cb : positive) (b : control_block_base) : M unit :=
  fun m => match blocks m !! cb with
           | Some _ => Ret tt (set_blocks (insert cb b) m)
           | None => Undefined
           end.

Definition with_shared (c : Z) (b : control_block_base) : control_block_base :=
  mk_cb c (weak_count_ b) (derived b).
Definition with_weak (c : Z) (b : control_block_base) : control_block_base :=
  mk_cb (shared_count_ b) c (derived b).
Definition with_derived (d : cb_variant) (b : control_block_base) : control_block_base :=
  mk_cb (shared_count_ b) (weak_count_ b) d.

(** [shared_count_.load()] *)
Definition shared_load (cb : positive) : M Z :=
  let* b := get_block cb in ret (shared_count_ b).

(** [shared_count_.fetch_add(d)]: stores the sum, returns the old value. *)
Definition shared_fetch_add (cb : positive) (d : Z) : M Z :=
  let* b := get_block cb in
  put_block cb (with_shared (wrap (shared_count_ b + d)) b) >>
  ret (shared_count_ b).

Definition shared_fetch_sub (cb : positive) (d : Z) : M Z :=
  let* b := get_block cb in
  put_block cb (with_shared (wrap (shared_count_ b - d)) b) >>
  ret (shared_count_ b).

Definition weak_fetch_add (cb : positive) (d : Z) : M Z :=
  let* b := get_block cb in
  put_block cb (with_weak (wrap (weak_count_ b + d)) b) >>
  ret (weak_count_ b).

Definition weak_fetch_sub (cb : positive) (d : Z) : M Z :=
  let* b := get_block cb in
  put_block cb (with_weak (wrap (weak_count_ b - d)) b) >>
  ret (weak_count_ b).

(** [deleter_(p)]: the call is recorded and, with [default_delete], the life
    of the object ends. What the destructor of [T] or a deleter of the user
    does beyond that is not modelled (a [T] that holds handles of its own
    would release them here): the theorems describe the transitions of the
    handle and of the block the call is made on. *)
Definition invoke_deleter (d : deleter) (p : Z) : M unit :=
  match d with
  | default_delete =>
      log (EvDelete p) >>
      fun m => Ret tt (set_objects (fun o => o ∖ {[p]}) m)
  | custom_deleter id => log (EvCustomDeleter id p)
  end.

(** The two overrides of [dispose()]. *)
Definition dispose (cb : positive) : M unit :=
  log (EvDispose cb) >>
  let* b := get_block cb in
  match derived b with
  | separate_control_block p d =>
      if p =? 0 then ret tt
      else invoke_deleter d p >>
           let* b' := get_block cb in
           put_block cb (with_derived (separate_control_block 0 d) b')
  | inline_control_block => log (EvDestructInPlace cb)
  end.

(** [destroy()]: [delete this] in both variants. *)
Definition destroy (cb : positive) : M unit :=
  log (EvDestroy cb) >>
  let* _b := get_block cb in
  fun m => Ret tt (set_storage (fun s => s ∖ {[cb]}) (set_blocks (delete cb) m)).

Definition add_shared_ref (cb : positive) : M unit :=
  shared_fetch_add cb 1 >> ret tt.

Definition add_weak_ref (cb : positive) : M unit :=
  weak_fetch_add cb 1 >> ret tt.

Definition release_weak (cb : positive) : M unit :=
  let* old := weak_fetch_sub cb 1 in
  if old =? 1 then destroy cb else ret tt.

Definition release_shared (cb : positive) : M unit :=
  let* old := shared_fetch_sub cb 1 in
  if old =? 1 then dispose cb >> release_weak cb else ret tt.

(** What happens around one [compare_exchange_weak]: nothing, a spurious
    failure, or another thread storing [v] first. *)
Inductive cas_env : Type :=
| Quiet
| Spurious
| Contended (v : Z).

Definition is_spurious (e : cas_env) : bool :=
  match e with Spurious => true | _ => false end.

(** [shared_count_.compare_exchange_weak(expected, desired)]: the result and
    the value left in [expected]. *)
Definition compare_exchange_weak
    (cb : positive) (expected desired : Z) (env : cas_env) : M (bool * Z) :=
  (match env with
   | Contended v =>
       let* b := get_block cb in put_block cb (with_shared (wrap v) b)
   | _ => ret tt
   end) >>
  let* cur := shared_load cb in
  if (cur =? expected) && negb (is_spurious env)
  then (let* b := get_block cb in put_block cb (with_shared desired b)) >>
       ret (true, expected)
  else ret (false, cur).

(** The loop of [try_add_shared_ref]; [oracle] gives the environment of each
    exchange in turn and is quiet once it runs out. Running out of [fuel] is
    the loop not having returned yet. *)
Fixpoint try_add_loop
    (fuel : nat) (cb : positive) (oracle : list cas_env) (count : Z) : M bool :=
  match fuel with
  | O => undefined
  | S fuel' =>
      if count =? 0 then ret false
      else
        let* r := compare_exchange_weak cb count (wrap (count + 1)) (hd Quiet oracle) in
        if fst r then ret true
        else try_add_loop fuel' cb (tl oracle) (snd r)
  end.

Definition try_add_shared_ref (cb : positive) (oracle : list cas_env) : M bool :=
  let* count := shared_load cb in
  try_add_loop (S (length oracle)) cb oracle count.

(** [control_block_base::use_count()] *)
Definition cb_use_count (cb : positive) : M Z := shared_load cb.

(** The constructor of [control_block_base] followed by that of the derived
    class, in storage already obtained at [cb]. *)
Definition construct_block (cb : positive) (d : cb_variant) : M unit :=
  fun m => Ret tt (set_blocks (insert cb (mk_cb 1 1 d)) m).

(** The values other threads store during a call of [try_add_shared_ref]. *)
Definition contended_values (oracle : list cas_env) : list Z :=
  omap (fun e => match e with Contended v => Some (wrap v) | _ => None end) oracle.


(** ** Storage for control blocks *)

(** [::operator new]: fails with [bad_alloc] when [oom], otherwise hands out
    storage at an address not in use. *)
Definition operator_new (oom : bool) : M positive :=
  if oom then throw bad_alloc
  else fun m => let a := fresh (storage m) in
                Ret a (set_storage (fun s => {[a]} ∪ s) m).

Definition operator_delete (a : positive) : M unit :=
  fun m => Ret tt (set_storage (fun s => s ∖ {[a]}) m).

(** [new separate_control_block<T, Deleter>(ptr, deleter)]; the constructor
    is [noexcept]. *)
Definition make_control_block (p : Z) (d : deleter) (oom : bool) : M positive :=
  let* a := operator_new oom in
  construct_block a (separate_control_block p d) >>
  ret a.

(** The constructor of [inline_control_block<T>]: the base, then [T] built
    in [storage_]; [ctor] is the exception [T]'s constructor throws, if any. *)
Definition construct_inline (a : positive) (ctor : option exn) : M unit :=
  match ctor with
  | Some e => throw e
  | None => construct_block a inline_control_block
  end.

(** [new inline_control_block<T>(args...)]: a new-expression gives the
    storage back when the constructor throws. *)
Definition make_inline_control_block (oom : bool) (ctor : option exn) : M positive :=
  let* a := operator_new oom in
  try_catch (construct_inline a ctor) (fun e => operator_delete a >> throw e) >>
  ret a.

(** [inline_control_block<T>::get()]: the address of [storage_], inside the
    block and never null. *)
Definition inline_get (cb : positive) : Z := Z.pos cb.

(** ** shared_ptr.hpp *)

Definition read_shared (this : positive) : M shared_ptr :=
  fun m => match shared_ptrs m !! this with
           | Some s => Ret s m
           | None => Undefined
           end.

Definition write_shared (this : positive) (s : shared_ptr) : M unit :=
  fun m => match shared_ptrs m !! this with
           | Some _ => Ret tt (set_shared_ptrs (insert this s) m)
           | None => Undefined
           end.

(** The member initialisers of a constructor: the object starts to exist at
    [this], which must not name a live object. *)
Definition init_shared (this : positive) (s : shared_ptr) : M unit :=
  fun m => match shared_ptrs m !! this with
           | Some _ => Undefined
           | None => Ret tt (set_shared_ptrs (insert this s) m)
           end.

(** The object at [this] stops existing. *)
Definition drop_shared (this : positive) : M unit :=
  fun m => match shared_ptrs m !! this with
           | Some _ => Ret tt (set_shared_ptrs (delete this) m)
           | None => Undefined
           end.

(** A name for a temporary. *)
Definition temp_shared : M positive :=
  fun m => Ret (fresh (dom (shared_ptrs m))) m.

Definition shared_ptr_ctor (this : positive) : M unit :=
  init_shared this (mk_shared 0 None).

(** [shared_ptr(control_block_base *cb, element_type *p)] *)
Definition shared_ptr_ctor_cb (this : positive) (cb : positive) (p : Z) : M unit :=
  init_shared this (mk_shared p (Some cb)).

(** [shared_ptr(U *ptr)] and [shared_ptr(U *ptr, Deleter&& deleter)] *)
Definition shared_ptr_ctor_raw
    (this : positive) (p : Z) (d : deleter) (oom : bool) : M unit :=
  let* cb := make_control_block p d oom in
  init_shared this (mk_shared p (Some cb)).

Definition shared_ptr_copy_ctor (this other : positive) : M unit :=
  let* o := read_shared other in
  init_shared this (mk_shared (sp_ptr_ o) (sp_ctrl_block_ o)) >>
  match sp_ctrl_block_ o with
  | Some cb => add_shared_ref cb
  | None => ret tt
  end.

Definition shared_ptr_move_ctor (this other : positive) : M unit :=
  let* o := read_shared other in
  init_shared this (mk_shared (sp_ptr_ o) (sp_ctrl_block_ o)) >>
  (let* o1 := read_shared other in
   write_shared other (mk_shared 0 (sp_ctrl_block_ o1))) >>
  (let* o2 := read_shared other in
   write_shared other (mk_shared (sp_ptr_ o2) None)).

Definition shared_ptr_dtor (this : positive) : M unit :=
  let* s := read_shared this in
  match sp_ctrl_block_ s with
  | Some cb => release_shared cb
  | None => ret tt
  end >>
  drop_shared this.

(** [std::swap(ptr_, other.ptr_); std::swap(ctrl_block_, other.ctrl_block_)],
    each as a three-move exchange through the two references. *)
Definition shared_ptr_swap (this other : positive) : M unit :=
  let* a := read_shared this in
  let* b := read_shared other in
  write_shared this (mk_shared (sp_ptr_ b) (sp_ctrl_block_ a)) >>
  (let* b1 := read_shared other in
   write_shared other (mk_shared (sp_ptr_ a) (sp_ctrl_block_ b1))) >>
  let* a2 := read_shared this in
  let* b2 := read_shared other in
  write_shared this (mk_shared (sp_ptr_ a2) (sp_ctrl_block_ b2)) >>
  (let* b3 := read_shared other in
   write_shared other (mk_shared (sp_ptr_ b3) (sp_ctrl_block_ a2))).

(** [shared_ptr(other).swap( *this)] *)
Definition shared_ptr_copy_assign (this other : positive) : M unit :=
  let* tmp := temp_shared in
  shared_ptr_copy_ctor tmp other >>
  shared_ptr_swap tmp this >>
  shared_ptr_dtor tmp.

(** [shared_ptr(std::move(other)).swap( *this)] *)
Definition shared_ptr_move_assign (this other : positive) : M unit :=
  let* tmp := temp_shared in
  shared_ptr_move_ctor tmp other >>
  shared_ptr_swap tmp this >>
  shared_ptr_dtor tmp.

Definition shared_ptr_reset (this : positive) : M unit :=
  let* tmp := temp_shared in
  shared_ptr_ctor tmp >>
  shared_ptr_swap tmp this >>
  shared_ptr_dtor tmp.

Definition shared_ptr_reset_raw
    (this : positive) (p : Z) (d : deleter) (oom : bool) : M unit :=
  let* tmp := temp_shared in
  shared_ptr_ctor_raw tmp p d oom >>
  shared_ptr_swap tmp this >>
  shared_ptr_dtor tmp.

Definition shared_ptr_get (this : positive) : M Z :=
  let* s := read_shared this in ret (sp_ptr_ s).

Definition shared_ptr_bool (this : positive) : M bool :=
  let* s := read_shared this in ret (negb (sp_ptr_ s =? 0)).

Definition shared_ptr_use_count (this : positive) : M Z :=
  let* s := read_shared this in
  match sp_ctrl_block_ s with
  | Some cb => let* c := cb_use_count cb in ret (to_long c)
  | None => ret 0
  end.

Definition shared_ptr_unique (this : positive) : M bool :=
  let* c := shared_ptr_use_count this in ret (c =? 1).

(** ** weak_ptr.hpp *)

Definition read_weak (this : positive) : M weak_ptr :=
  fun m => match weak_ptrs m !! this with
           | Some w => Ret w m
           | None => Undefined
           end.

Definition write_weak (this : positive) (w : weak_ptr) : M unit :=
  fun m => match weak_ptrs m !! this with
           | Some _ => Ret tt (set_weak_ptrs (insert this w) m)
           | None => Undefined
           end.

Definition init_weak (this : positive) (w : weak_ptr) : M unit :=
  fun m => match weak_ptrs m !! this with
           | Some _ => Undefined
           | None => Ret tt (set_weak_ptrs (insert this w) m)
           end.

Definition drop_weak (this : positive) : M unit :=
  fun m => match weak_ptrs m !! this with
           | Some _ => Ret tt (set_weak_ptrs (delete this) m)
           | None => Undefined
           end.

Definition temp_weak : M positive :=
  fun m => Ret (fresh (dom (weak_ptrs m))) m.

Definition weak_ptr_ctor (this : positive) : M unit :=
  init_weak this (mk_weak 0 None).

(** [weak_ptr(const shared_ptr<U>& other)] *)
Definition weak_ptr_ctor_shared (this other : positive) : M unit :=
  let* o := read_shared other in
  init_weak this (mk_weak (sp_ptr_ o) (sp_ctrl_block_ o)) >>
  match sp_ctrl_block_ o with
  | Some cb => add_weak_ref cb
  | None => ret tt
  end.

Definition weak_ptr_copy_ctor (this other : positive) : M unit :=
  let* o := read_weak other in
  init_weak this (mk_weak (wp_ptr_ o) (wp_ctrl_block_ o)) >>
  match wp_ctrl_block_ o with
  | Some cb => add_weak_ref cb
  | None => ret tt
  end.

Definition weak_ptr_move_ctor (this other : positive) : M unit :=
  let* o := read_weak other in
  init_weak this (mk_weak (wp_ptr_ o) (wp_ctrl_block_ o)) >>
  (let* o1 := read_weak other in
   write_weak other (mk_weak 0 (wp_ctrl_block_ o1))) >>
  (let* o2 := read_weak other in
   write_weak other (mk_weak (wp_ptr_ o2) None)).

Definition weak_ptr_dtor (this : positive) : M unit :=
  let* w := read_weak this in
  match wp_ctrl_block_ w with
  | Some cb => release_weak cb
  | None => ret tt
  end >>
  drop_weak this.

Definition weak_ptr_swap (this other : positive) : M unit :=
  let* a := read_weak this in
  let* b := read_weak other in
  write_weak this (mk_weak (wp_ptr_ b) (wp_ctrl_block_ a)) >>
  (let* b1 := read_weak other in
   write_weak other (mk_weak (wp_ptr_ a) (wp_ctrl_block_ b1))) >>
  let* a2 := read_weak this in
  let* b2 := read_weak other in
  write_weak this (mk_weak (wp_ptr_ a2) (wp_ctrl_block_ b2)) >>
  (let* b3 := read_weak other in
   write_weak other (mk_weak (wp_ptr_ b3) (wp_ctrl_block_ a2))).

Definition weak_ptr_copy_assign (this other : positive) : M unit :=
  let* tmp := temp_weak in
  weak_ptr_copy_ctor tmp other >>
  weak_ptr_swap tmp this >>
  weak_ptr_dtor tmp.

Definition weak_ptr_move_assign (this other : positive) : M unit :=
  let* tmp := temp_weak in
  weak_ptr_move_ctor tmp other >>
  weak_ptr_swap tmp this >>
  weak_ptr_dtor tmp.

(** [weak_ptr& operator=(const shared_ptr<U>& other)] *)
Definition weak_ptr_assign_shared (this other : positive) : M unit :=
  let* tmp := temp_weak in
  weak_ptr_ctor_shared tmp other >>
  weak_ptr_swap tmp this >>
  weak_ptr_dtor tmp.

Definition weak_ptr_reset (this : positive) : M unit :=
  let* tmp := temp_weak in
  weak_ptr_ctor tmp >>
  weak_ptr_swap tmp this >>
  weak_ptr_dtor tmp.

Definition weak_ptr_use_count (this : positive) : M Z :=
  let* w := read_weak this in
  match wp_ctrl_block_ w with
  | Some cb => let* c := cb_use_count cb in ret (to_long c)
  | None => ret 0
  end.

Definition weak_ptr_expired (this : positive) : M bool :=
  let* c := weak_ptr_use_count this in ret (c =? 0).

(** [lock()]; the returned [shared_ptr] is built at [dst]. *)
Definition weak_ptr_lock (this dst : positive) (oracle : list cas_env) : M unit :=
  let* w := read_weak this in
  match wp_ctrl_block_ w with
  | Some cb =>
      let* ok := try_add_shared_ref cb oracle in
      if ok then shared_ptr_ctor_cb dst cb (wp_ptr_ w)
      else shared_ptr_ctor dst
  | None => shared_ptr_ctor dst
  end.

(** [shared_ptr(const weak_ptr<U>& other)]: when the body throws, the object
    under construction never comes to exist. *)
Definition shared_ptr_ctor_weak (this other : positive) (oracle : list cas_env) : M unit :=
  let* o := read_weak other in
  init_shared this (mk_shared (wp_ptr_ o) (wp_ctrl_block_ o)) >>
  match wp_ctrl_block_ o with
  | Some cb =>
      let* ok := try_add_shared_ref cb oracle in
      if ok then ret tt
      else drop_shared this >> throw bad_weak_ptr
  | None => ret tt
  end.

(** ** unique_ptr.hpp *)

Definition read_unique (this : positive) : M unique_ptr :=
  fun m => match unique_ptrs m !! this with
           | Some u => Ret u m
           | None => Undefined
           end.

Definition write_unique (this : positive) (u : unique_ptr) : M unit :=
  fun m => match unique_ptrs m !! this with
           | Some _ => Ret tt (set_unique_ptrs (insert this u) m)
           | None => Undefined
           end.

Definition init_unique (this : positive) (u : unique_ptr) : M unit :=
  fun m => match unique_ptrs m !! this with
           | Some _ => Undefined
           | None => Ret tt (set_unique_ptrs (insert this u) m)
           end.

Definition drop_unique (this : positive) : M unit :=
  fun m => match unique_ptrs m !! this with
           | Some _ => Ret tt (set_unique_ptrs (delete this) m)
           | None => Undefined
           end.

(** [unique_ptr()], [unique_ptr(nullptr)], [unique_ptr(pointer)] with the
    deleter default-constructed, and [unique_ptr(pointer, deleter)]. *)
Definition unique_ptr_ctor (this : positive) (p : Z) (d : deleter) : M unit :=
  init_unique this (mk_unique p d).

Definition unique_ptr_move_ctor (this other : positive) : M unit :=
  let* o := read_unique other in
  init_unique this (mk_unique (up_ptr_ o) (up_deleter_ o)) >>
  let* o1 := read_unique other in
  write_unique other (mk_unique 0 (up_deleter_ o1)).

Definition unique_ptr_release (this : positive) : M Z :=
  let* u := read_unique this in
  write_unique this (mk_unique 0 (up_deleter_ u)) >>
  ret (up_ptr_ u).

Definition unique_ptr_reset (this : positive) (p : Z) : M unit :=
  let* u := read_unique this in
  let old := up_ptr_ u in
  write_unique this (mk_unique p (up_deleter_ u)) >>
  if old =? 0 then ret tt
  else let* u1 := read_unique this in invoke_deleter (up_deleter_ u1) old.

Definition unique_ptr_dtor (this : positive) : M unit :=
  unique_ptr_reset this 0 >> drop_unique this.

Definition unique_ptr_move_assign (this other : positive) : M unit :=
  unique_ptr_reset this 0 >>
  (let* o := read_unique other in
   let* t := read_unique this in
   write_unique this (mk_unique (up_ptr_ o) (up_deleter_ t))) >>
  (let* o := read_unique other in
   let* t := read_unique this in
   write_unique this (mk_unique (up_ptr_ t) (up_deleter_ o))) >>
  let* o := read_unique other in
  write_unique other (mk_unique 0 (up_deleter_ o)).

Definition unique_ptr_swap (this other : positive) : M unit :=
  let* a := read_unique this in
  let* b := read_unique other in
  write_unique this (mk_unique (up_ptr_ b) (up_deleter_ a)) >>
  (let* b1 := read_unique other in
   write_unique other (mk_unique (up_ptr_ a) (up_deleter_ b1))) >>
  let* a2 := read_unique this in
  let* b2 := read_unique other in
  write_unique this (mk_unique (up_ptr_ a2) (up_deleter_ b2)) >>
  (let* b3 := read_unique other in
   write_unique other (mk_unique (up_ptr_ b3) (up_deleter_ a2))).

Definition unique_ptr_get (this : positive) : M Z :=
  let* u := read_unique this in ret (up_ptr_ u).

Definition unique_ptr_bool (this : positive) : M bool :=
  let* u := read_unique this in ret (negb (up_ptr_ u =? 0)).

(** ** memory.hpp *)

(** [make_shared<T>(args...)]; the result is built at [dst]. *)
Definition make_shared (dst : positive) (oom : bool) (ctor : option exn) : M unit :=
  let* ctrl_block := make_inline_control_block oom ctor in
  shared_ptr_ctor dst >>
  (let* r := read_shared dst in
   write_shared dst (mk_shared (inline_get ctrl_block) (sp_ctrl_block_ r))) >>
  (let* r := read_shared dst in
   write_shared dst (mk_shared (sp_ptr_ r) (Some ctrl_block))).

(** [allocate_shared<T>(alloc, args...)]: [allocate] fails when [oom];
    [construct] runs the constructor of [inline_control_block<T>]. The
    allocator takes its storage where [std::allocator] does, from
    [::operator new]; the model serves the failure path, where [allocate]
    and [deallocate] pair on that allocator, and the placement of blocks.
    How a block in storage of another allocator is given back, which the
    source leaves to [delete this], is not modelled. *)
Definition allocate_shared (dst : positive) (oom : bool) (ctor : option exn) : M unit :=
  let* ctrl_block := operator_new oom in
  try_catch (construct_inline ctrl_block ctor)
            (fun e => operator_delete ctrl_block >> throw e) >>
  shared_ptr_ctor dst >>
  (let* r := read_shared dst in
   write_shared dst (mk_shared (inline_get ctrl_block) (sp_ctrl_block_ r))) >>
  (let* r := read_shared dst in
   write_shared dst (mk_shared (sp_ptr_ r) (Some ctrl_block))).

(** ** Sequences of calls on one control block *)

Inductive cb_op : Type :=
| add_strong
| release_strong
| add_weak
| release_weak_op
| try_add_strong (spurious : nat).

Definition run_op (cb : positive) (op : cb_op) : M unit :=
  match op with
  | add_strong => add_shared_ref cb
  | release_strong => release_shared cb
  | add_weak => add_weak_ref cb
  | release_weak_op => release_weak cb
  | try_add_strong n => try_add_shared_ref cb (replicate n Spurious) >> ret tt
  end.

Fixpoint run_ops (cb : positive) (ops : list cb_op) : M unit :=
  match ops with
  | [] => ret tt
  | op :: rest => run_op cb op >> run_ops cb rest
  end.

(** Acquisitions not yet released, [sh] strong and [wk] weak, are followed
    through [ops]: no release without an acquisition before it. A
    [try_add_strong] acquires when a strong reference is outstanding. *)
Fixpoint balanced (sh wk : nat) (ops : list cb_op) : bool :=
  match ops with
  | [] => true
  | add_strong :: rest => balanced (S sh) wk rest
  | release_strong :: rest => (0 <? sh)%nat && balanced (pred sh) wk rest
  | add_weak :: rest => balanced sh (S wk) rest
  | release_weak_op :: rest => (0 <? wk)%nat && balanced sh (pred wk) rest
  | try_add_strong _ :: rest =>
      balanced (if (0 <? sh)%nat then S sh else sh) wk rest
  end.

(** [balanced], and every call is made by a holder of a reference:
    [add_strong] by a strong holder, [add_weak] and [try_add_strong] by a
    strong or weak holder; the references outstanding fit a [size_t]. *)
Fixpoint owned (sh wk : nat) (ops : list cb_op) : bool :=
  match ops with
  | [] => true
  | add_strong :: rest =>
      (0 <? sh)%nat && (Z.of_nat sh + 1 <? size_t_modulus) && owned (S sh) wk rest
  | release_strong :: rest => (0 <? sh)%nat && owned (pred sh) wk rest
  | add_weak :: rest =>
      (0 <? sh + wk)%nat && (Z.of_nat wk + 2 <? size_t_modulus) && owned sh (S wk) rest
  | release_weak_op :: rest => (0 <? wk)%nat && owned sh (pred wk) rest
  | try_add_strong _ :: rest =>
      (0 <? sh + wk)%nat &&
      (if (0 <? sh)%nat
       then (Z.of_nat sh + 1 <? size_t_modulus) && owned (S sh) wk rest
       else owned sh wk rest)
  end.

(** The calls of [dispose()] and [destroy()] on [cb] among [evs]. *)
Definition lifetime_events (cb : positive) (evs : list event) : list event :=
  filter (fun e => e = EvDispose cb ∨ e = EvDestroy cb) evs.

Definition count_event (e : event) (evs : list event) : nat :=
  length (filter (fun e' => e' = e) evs).

(** What the counters and the calls recorded since [t0] look like when [sh]
    strong and [wk] weak references are outstanding on [cb]. *)
Definition cb_inv (cb : positive) (t0 : list event) (sh wk : nat) (m : memory) : Prop :=
  ∃ evs : list event,
    trace m = t0 ++ evs ∧
    Z.of_nat sh < size_t_modulus ∧ Z.of_nat wk + 1 < size_t_modulus ∧
    match sh, wk with
    | O, O =>
        blocks m !! cb = None ∧
        lifetime_events cb evs = [EvDispose cb; EvDestroy cb]
    | O, S _ =>
        (∃ b, blocks m !! cb = Some b ∧ shared_count_ b = 0 ∧
              weak_count_ b = Z.of_nat wk) ∧
        lifetime_events cb evs = [EvDispose cb]
    | S _, _ =>
        (∃ b, blocks m !! cb = Some b ∧ shared_count_ b = Z.of_nat sh ∧
              weak_count_ b = Z.of_nat wk + 1) ∧
        lifetime_events cb evs = []
    end.

(** ** Vocabulary of the statements *)

(** [if (cb) cb->release_shared();] and its three siblings. *)
Definition release_shared_if (c : option positive) : M unit :=
  match c with Some cb => release_shared cb | None => ret tt end.
Definition release_weak_if (c : option positive) : M unit :=
  match c with Some cb => release_weak cb | None => ret tt end.
Definition add_shared_ref_if (c : option positive) : M unit :=
  match c with Some cb => add_shared_ref cb | None => ret tt end.
Definition add_weak_ref_if (c : option positive) : M unit :=
  match c with Some cb => add_weak_ref cb | None => ret tt end.

(** The memory of an outcome, changed by [g]. *)
Definition outcome_map {A} (g : memory → memory) (r : outcome A) : outcome A :=
  match r with
  | Ret a m => Ret a (g m)
  | Throw e m => Throw e (g m)
  | Undefined => Undefined
  end.

(** A change of the handle objects only. *)
Definition handle_update (g : memory → memory) : Prop :=
  (∃ f, g = set_shared_ptrs f) ∨ (∃ f, g = set_weak_ptrs f) ∨
  (∃ f, g = set_unique_ptrs f).

(** A computation that neither reads nor writes the handle objects. *)
Definition block_local {A} (c : M A) : Prop :=
  ∀ (g : memory → memory) (m : memory),
    handle_update g → c (g m) = outcome_map g (c m).

(** [n] copies of [src], constructed one after the other at [dsts]. *)
Fixpoint copies (src : positive) (dsts : list positive) : M unit :=
  match dsts with
  | [] => ret tt
  | d :: rest => shared_ptr_copy_ctor d src >> copies src rest
  end.

(** A computation that never throws, as the [noexcept] members promise. *)
Definition noexcept {A} (c : M A) : Prop :=
  ∀ (m m' : memory) (e : exn), c m ≠ Throw e m'.

(** A memory holding one object at address 100 and nothing else. *)
Definition one_object : memory := set_objects (fun _ => {[ 100 ]}) empty_memory.

(** [one_object] after [shared_ptr<T> s(p)] with [p = 100], [s] at place 1:
    the block is at address 1 with both counts at one. *)
Definition one_shared : memory :=
  set_shared_ptrs (insert 1%positive (mk_shared 100 (Some 1%positive)))
    (set_blocks (insert 1%positive
                   (mk_cb 1 1 (separate_control_block 100 default_delete)))
       (set_storage (fun _ => {[ 1%positive ]}) one_object)).

(** A weak_ptr at place 1 on a block whose object has been disposed of:
    strong count zero, the weak count the handle's own. *)
Definition one_expired : memory :=
  set_weak_ptrs (insert 1%positive (mk_weak 100 (Some 1%positive)))
    (set_blocks (insert 1%positive
                   (mk_cb 0 1 (separate_control_block 0 default_delete)))
       (set_storage (fun _ => {[ 1%positive ]}) empty_memory)).

(** [one_shared] with a weak_ptr at place 1 made from the shared_ptr. *)
Definition one_shared_one_weak : memory :=
  set_weak_ptrs (insert 1%positive (mk_weak 100 (Some 1%positive)))
    (set_blocks (insert 1%positive
                   (mk_cb 1 2 (separate_control_block 100 default_delete)))
       one_shared).

(** ** More vocabulary: deleters, storage, objects *)

(** The call the deleter [d] records when it is run on [p]. *)
Definition deleter_event (d : deleter) (p : Z) : event :=
  match d with
  | default_delete => EvDelete p
  | custom_deleter id => EvCustomDeleter id p
  end.

(** What running the deleter [d] on [p] does to the objects. *)
Definition deleter_objects (d : deleter) (p : Z) (o : gset Z) : gset Z :=
  match d with
  | default_delete => o ∖ {[p]}
  | custom_deleter _ => o
  end.

(** The calls [dispose()] records on a block of variant [v] at [cb]. *)
Definition dispose_events (cb : positive) (v : cb_variant) : list event :=
  match v with
  | separate_control_block p d =>
      if p =? 0 then [EvDispose cb] else [EvDispose cb; deleter_event d p]
  | inline_control_block => [EvDispose cb; EvDestructInPlace cb]
  end.

(** The objects after [dispose()] on a block of variant [v]. *)
Definition dispose_objects (v : cb_variant) (o : gset Z) : gset Z :=
  match v with
  | separate_control_block p d => if p =? 0 then o else deleter_objects d p o
  | inline_control_block => o
  end.

(** The variant after [dispose()]: a separate block forgets its pointer. *)
Definition disposed_variant (v : cb_variant) : cb_variant :=
  match v with
  | separate_control_block p d => separate_control_block 0 d
  | inline_control_block => inline_control_block
  end.

(** Every control block lies in storage that was handed out. *)
Definition storage_covers (m : memory) : Prop :=
  ∀ cb, is_Some (blocks m !! cb) → cb ∈ storage m.

(** A computation that changes no control block other than [cb]. *)
Definition touches_only {A} (cb : positive) (c : M A) : Prop :=
  ∀ (m m' : memory) (a : A) (cb' : positive),
    c m = Ret a m' → cb' ≠ cb → blocks m' !! cb' = blocks m !! cb'.

(** [new T(args...)]: fails with [bad_alloc] when [oom]; [ctor] is the
    exception the constructor throws, if any, and then nothing stays
    allocated; otherwise the object lives at an unused, non-null address. *)
Definition new_object (oom : bool) (ctor : option exn) : M Z :=
  if oom then throw bad_alloc
  else match ctor with
       | Some e => throw e
       | None => fun m => let p := fresh ({[0]} ∪ objects m) in
                          Ret p (set_objects (fun o => {[p]} ∪ o) m)
       end.

(** [make_unique<T>(args...)] and [make_unique_for_overwrite<T>()]; the
    result is built at [dst]. *)
Definition make_unique (dst : positive) (oom : bool) (ctor : option exn) : M unit :=
  let* p := new_object oom ctor in
  unique_ptr_ctor dst p default_delete.

(** [operator==] and [operator!=] on two shared_ptr, on a shared_ptr and
    [nullptr], and [operator<]. *)
Definition shared_ptr_eq (lhs rhs : positive) : M bool :=
  let* a := shared_ptr_get lhs in
  let* b := shared_ptr_get rhs in
  ret (a =? b).

Definition shared_ptr_ne (lhs rhs : positive) : M bool :=
  let* a := shared_ptr_get lhs in
  let* b := shared_ptr_get rhs in
  ret (negb (a =? b)).

Definition shared_ptr_eq_null (lhs : positive) : M bool :=
  let* b := shared_ptr_bool lhs in ret (negb b).

Definition shared_ptr_ne_null (lhs : positive) : M bool :=
  shared_ptr_bool lhs.

Definition shared_ptr_lt (lhs rhs : positive) : M bool :=
  let* a := shared_ptr_get lhs in
  let* b := shared_ptr_get rhs in
  ret (a <? b).

(** The memory after [dispose()] on a block of variant [v] at [cb], but for
    the block itself, and the memory after [destroy()] on [cb]. *)
Definition disposed (cb : positive) (v : cb_variant) (m : memory) : memory :=
  set_objects (dispose_objects v)
    (set_trace (fun t => t ++ dispose_events cb v) m).

Definition destroyed (cb : positive) (m : memory) : memory :=
  set_storage (fun s => s ∖ {[cb]})
    (set_blocks (delete cb)
       (set_trace (fun t => t ++ [EvDestroy cb]) m)).

(** The memory of an outcome keeps every control block inside storage that
    was handed out. *)
Definition covered_after {A} (r : outcome A) : Prop :=
  match r with
  | Ret _ m' | Throw _ m' => storage_covers m'
  | Undefined => True
  end.

(** A computation that keeps every control block inside such storage. *)
Definition keeps_cover {A} (c : M A) : Prop :=
  ∀ m : memory, storage_covers m → covered_after (c m).

(** Two owning unique_ptr, at places 1 and 2, with different deleters. *)
Definition two_unique : memory :=
  set_unique_ptrs (fun _ => <[2%positive := mk_unique 200 (custom_deleter 7)]>
                              (<[1%positive := mk_unique 100 default_delete]> ∅))
    one_object.
(** ** Basic facts about the memory and the counters *)

Lemma set_blocks_insert_id (m : memory) (cb : positive) (b : control_block_base) :
  blocks m !! cb = Some b → set_blocks (insert cb b) m = m.
Proof.
  intros H. destruct m as [s bl o sp wp up t]. unfold set_blocks. simpl in *.
  f_equal. by apply insert_id.
Qed.

Lemma set_blocks_insert_insert (m : memory) (cb : positive) (b1 b2 : control_block_base) :
  set_blocks (insert cb b2) (set_blocks (insert cb b1) m) = set_blocks (insert cb b2) m.
Proof.
  destruct m as [s bl o sp wp up t]. unfold set_blocks. simpl.
  f_equal. apply insert_insert_eq.
Qed.

Lemma with_shared_id (b : control_block_base) : with_shared (shared_count_ b) b = b.
Proof. by destruct b. Qed.

Lemma with_weak_id (b : control_block_base) : with_weak (weak_count_ b) b = b.
Proof. by destruct b. Qed.

Lemma with_shared_with_shared (x y : Z) (b : control_block_base) :
  with_shared x (with_shared y b) = with_shared x b.
Proof. reflexivity. Qed.

Lemma get_block_some (m : memory) (cb : positive) (b : control_block_base) :
  blocks m !! cb = Some b → get_block cb m = Ret b m.
Proof. intros H. unfold get_block. by rewrite H. Qed.

Lemma put_block_some (m : memory) (cb : positive) (b b' : control_block_base) :
  blocks m !! cb = Some b → put_block cb b' m = Ret tt (set_blocks (insert cb b') m).
Proof. intros H. unfold put_block. by rewrite H. Qed.

Lemma lookup_set_blocks_insert (m : memory) (cb : positive) (b : control_block_base) :
  blocks (set_blocks (insert cb b) m) !! cb = Some b.
Proof. simpl. apply lookup_insert_eq. Qed.

Lemma wrap_small (z : Z) : 0 ≤ z < size_t_modulus → wrap z = z.
Proof. intros H. unfold wrap. by apply Z.mod_small. Qed.

Lemma wrap_range (z : Z) : 0 ≤ wrap z < size_t_modulus.
Proof. unfold wrap. apply Z.mod_pos_bound. reflexivity. Qed.

Lemma bind_Ret {A B} (c : M A) (k : A → M B) (m m' : memory) (a : A) :
  c m = Ret a m' → bind c k m = k a m'.
Proof. intros H. unfold bind. by rewrite H. Qed.

Lemma bind_Throw {A B} (c : M A) (k : A → M B) (m m' : memory) (e : exn) :
  c m = Throw e m' → bind c k m = Throw e m'.
Proof. intros H. unfold bind. by rewrite H. Qed.

Lemma bind_Undefined {A B} (c : M A) (k : A → M B) (m : memory) :
  c m = Undefined → bind c k m = Undefined.
Proof. intros H. unfold bind. by rewrite H. Qed.

Lemma compare_exchange_weak_quiet
    (m : memory) (cb : positive) (b : control_block_base) (desired : Z) :
  blocks m !! cb = Some b →
  compare_exchange_weak cb (shared_count_ b) desired Quiet m =
    Ret (true, shared_count_ b) (set_blocks (insert cb (with_shared desired b)) m).
Proof.
  intros Hb. unfold compare_exchange_weak, shared_load, bind, ret. simpl.
  rewrite (get_block_some _ _ _ Hb). rewrite Z.eqb_refl. simpl.
  rewrite (get_block_some _ _ _ Hb). by rewrite (put_block_some _ _ _ _ Hb).
Qed.

Lemma compare_exchange_weak_spurious
    (m : memory) (cb : positive) (b : control_block_base) (expected desired : Z) :
  blocks m !! cb = Some b →
  compare_exchange_weak cb expected desired Spurious m =
    Ret (false, shared_count_ b) m.
Proof.
  intros Hb. unfold compare_exchange_weak, shared_load, bind, ret. simpl.
  rewrite (get_block_some _ _ _ Hb). by rewrite andb_false_r.
Qed.

Lemma compare_exchange_weak_contended
    (m : memory) (cb : positive) (b : control_block_base) (expected desired v : Z) :
  blocks m !! cb = Some b →
  compare_exchange_weak cb expected desired (Contended v) m =
    if wrap v =? expected
    then Ret (true, expected) (set_blocks (insert cb (with_shared desired b)) m)
    else Ret (false, wrap v) (set_blocks (insert cb (with_shared (wrap v) b)) m).
Proof.
  intros Hb. unfold compare_exchange_weak, shared_load, bind, ret. simpl.
  rewrite (get_block_some _ _ _ Hb), (put_block_some _ _ _ _ Hb).
  rewrite (get_block_some _ _ _ (lookup_set_blocks_insert m cb _)). simpl.
  destruct (wrap v =? expected); simpl; [|done].
  rewrite (get_block_some _ _ _ (lookup_set_blocks_insert m cb _)).
  rewrite (put_block_some _ _ _ _ (lookup_set_blocks_insert m cb _)).
  by rewrite set_blocks_insert_insert.
Qed.

Lemma try_add_loop_S
    (fuel : nat) (cb : positive) (oracle : list cas_env) (count : Z) :
  try_add_loop (S fuel) cb oracle count =
    if count =? 0 then ret false
    else
      let* r := compare_exchange_weak cb count (wrap (count + 1)) (hd Quiet oracle) in
      if fst r then ret true
      else try_add_loop fuel cb (tl oracle) (snd r).
Proof. reflexivity. Qed.

Lemma try_add_loop_zero (fuel : nat) (cb : positive) (oracle : list cas_env)
    (m : memory) (b : control_block_base) :
  blocks m !! cb = Some b → shared_count_ b = 0 →
  try_add_loop (S fuel) cb oracle (shared_count_ b) m =
    Ret false (set_blocks (insert cb (with_shared 0 b)) m).
Proof.
  intros Hb Hc. rewrite try_add_loop_S, Hc. simpl. unfold ret. f_equal.
  rewrite <- Hc, with_shared_id. symmetry. by apply set_blocks_insert_id.
Qed.

Lemma try_add_loop_spec (cb : positive) (oracle : list cas_env) :
  ∀ (m : memory) (b : control_block_base),
    blocks m !! cb = Some b →
    ∃ observed : Z,
      In observed (shared_count_ b :: contended_values oracle) ∧
      (contended_values oracle = [] → observed = shared_count_ b) ∧
      try_add_loop (S (length oracle)) cb oracle (shared_count_ b) m =
        Ret (negb (observed =? 0))
            (set_blocks
               (insert cb (with_shared (if observed =? 0 then 0
                                        else wrap (observed + 1)) b)) m).
Proof.
  induction oracle as [|e rest IH]; intros m b Hb.
  - exists (shared_count_ b). split; [by left|]. split; [done|].
    destruct (shared_count_ b =? 0) eqn:Hc.
    + apply Z.eqb_eq in Hc. by apply try_add_loop_zero.
    + rewrite try_add_loop_S, Hc. cbn [hd].
      by rewrite (bind_Ret _ _ _ _ _ (compare_exchange_weak_quiet _ _ _ _ Hb)).
  - cbn [length].
    destruct (shared_count_ b =? 0) eqn:Hc.
    { exists (shared_count_ b). split; [by left|]. split; [done|].
      rewrite Hc. apply Z.eqb_eq in Hc. by apply try_add_loop_zero. }
    rewrite try_add_loop_S, Hc. destruct e as [| |v]; cbn [hd tl].
    + exists (shared_count_ b). split; [by left|]. split; [done|]. rewrite Hc.
      by rewrite (bind_Ret _ _ _ _ _ (compare_exchange_weak_quiet _ _ _ _ Hb)).
    + destruct (IH m b Hb) as (obs & Hin & Hq & Hrun).
      exists obs. split; [exact Hin|]. split; [exact Hq|].
      rewrite (bind_Ret _ _ _ _ _ (compare_exchange_weak_spurious _ _ _ _ _ Hb)).
      exact Hrun.
    + pose proof (compare_exchange_weak_contended
                    m cb b (shared_count_ b) (wrap (shared_count_ b + 1)) v Hb) as Hcas.
      destruct (wrap v =? shared_count_ b) eqn:Hv.
      * exists (shared_count_ b). split; [by left|]. split; [done|]. rewrite Hc.
        by rewrite (bind_Ret _ _ _ _ _ Hcas).
      * destruct (IH _ _ (lookup_set_blocks_insert m cb (with_shared (wrap v) b)))
          as (obs & Hin & Hq & Hrun).
        exists obs. split; [by right|]. split; [done|].
        rewrite (bind_Ret _ _ _ _ _ Hcas). cbn [fst snd].
        cbn [shared_count_ with_shared] in Hrun. rewrite Hrun.
        by rewrite set_blocks_insert_insert.
Qed.

(** ** The counter operations, one by one *)

Lemma add_shared_ref_spec (m : memory) (cb : positive) (b : control_block_base) :
  blocks m !! cb = Some b →
  add_shared_ref cb m =
    Ret tt (set_blocks (insert cb (with_shared (wrap (shared_count_ b + 1)) b)) m).
Proof.
  intros Hb. unfold add_shared_ref, shared_fetch_add, bind, ret.
  by rewrite (get_block_some _ _ _ Hb), (put_block_some _ _ _ _ Hb).
Qed.

Lemma add_weak_ref_spec (m : memory) (cb : positive) (b : control_block_base) :
  blocks m !! cb = Some b →
  add_weak_ref cb m =
    Ret tt (set_blocks (insert cb (with_weak (wrap (weak_count_ b + 1)) b)) m).
Proof.
  intros Hb. unfold add_weak_ref, weak_fetch_add, bind, ret.
  by rewrite (get_block_some _ _ _ Hb), (put_block_some _ _ _ _ Hb).
Qed.

Lemma lifetime_events_app (cb : positive) (l1 l2 : list event) :
  lifetime_events cb (l1 ++ l2) = lifetime_events cb l1 ++ lifetime_events cb l2.
Proof. unfold lifetime_events. apply filter_app. Qed.

(** [dispose()] returns, keeps both counters, and records its own call and
    no other call of [dispose()] or [destroy()]. *)
Lemma dispose_effect (m : memory) (cb : positive) (b : control_block_base) :
  blocks m !! cb = Some b →
  ∃ (m' : memory) (d : cb_variant) (evs : list event),
    dispose cb m = Ret tt m' ∧
    blocks m' = <[cb := with_derived d b]> (blocks m) ∧
    trace m' = trace m ++ EvDispose cb :: evs ∧
    lifetime_events cb evs = [].
Proof.
  intros Hb. unfold dispose, bind, log, get_block. simpl. rewrite Hb.
  destruct b as [sc wc [p d|]]; simpl.
  - destruct (p =? 0) eqn:Hp.
    + eexists _, (separate_control_block p d), []. unfold ret.
      split; [reflexivity|]. simpl. split; [|done].
      symmetry. by apply insert_id.
    + destruct d as [|id]; unfold invoke_deleter, bind, log, get_block, put_block;
        simpl; repeat (rewrite Hb; simpl).
      * eexists _, (separate_control_block 0 default_delete), [EvDelete p].
        split; [reflexivity|]. simpl. split; [done|].
        by rewrite <- app_assoc.
      * eexists _, (separate_control_block 0 (custom_deleter id)), [EvCustomDeleter id p].
        split; [reflexivity|]. simpl. split; [done|].
        by rewrite <- app_assoc.
  - eexists _, inline_control_block, [EvDestructInPlace cb].
    split; [reflexivity|]. simpl. split; [symmetry; by apply insert_id|].
    split; [by rewrite <- app_assoc|].
    unfold lifetime_events. rewrite filter_cons_False; [done|].
    intros [?|?]; discriminate.
Qed.

(** [release_weak()] on a count other than one only decrements. *)
Lemma release_weak_keep (m : memory) (cb : positive) (b : control_block_base) :
  blocks m !! cb = Some b → weak_count_ b ≠ 1 →
  release_weak cb m =
    Ret tt (set_blocks (insert cb (with_weak (wrap (weak_count_ b - 1)) b)) m).
Proof.
  intros Hb Hw. unfold release_weak, weak_fetch_sub, bind, ret.
  rewrite (get_block_some _ _ _ Hb), (put_block_some _ _ _ _ Hb).
  by destruct (Z.eqb_spec (weak_count_ b) 1).
Qed.

(** [release_weak()] on a count of one calls [destroy()], which frees the
    block. *)
Lemma release_weak_last (m : memory) (cb : positive) (b : control_block_base) :
  blocks m !! cb = Some b → weak_count_ b = 1 →
  release_weak cb m =
    Ret tt (set_storage (fun s => s ∖ {[cb]})
              (set_blocks (delete cb)
                 (set_trace (fun t => t ++ [EvDestroy cb]) m))).
Proof.
  intros Hb Hw. unfold release_weak, weak_fetch_sub, bind, ret.
  rewrite (get_block_some _ _ _ Hb), (put_block_some _ _ _ _ Hb), Hw.
  simpl. unfold destroy, bind, log, get_block. simpl.
  rewrite lookup_insert_eq. f_equal.
  destruct m as [s bl o sp wp up t]. unfold set_storage, set_blocks, set_trace. simpl.
  f_equal. apply delete_insert_eq.
Qed.

(** [release_shared()] on a count other than one only decrements. *)
Lemma release_shared_keep (m : memory) (cb : positive) (b : control_block_base) :
  blocks m !! cb = Some b → shared_count_ b ≠ 1 →
  release_shared cb m =
    Ret tt (set_blocks (insert cb (with_shared (wrap (shared_count_ b - 1)) b)) m).
Proof.
  intros Hb Hw. unfold release_shared, shared_fetch_sub, bind, ret.
  rewrite (get_block_some _ _ _ Hb), (put_block_some _ _ _ _ Hb).
  by destruct (Z.eqb_spec (shared_count_ b) 1).
Qed.

(** [release_shared()] on a count of one stores zero, then calls
    [dispose()], then [release_weak()]. *)
Lemma release_shared_last (m : memory) (cb : positive) (b : control_block_base) :
  blocks m !! cb = Some b → shared_count_ b = 1 →
  release_shared cb m =
    (dispose cb >> release_weak cb)
      (set_blocks (insert cb (with_shared 0 b)) m).
Proof.
  intros Hb Hw. unfold release_shared, shared_fetch_sub. unfold bind at 1 2 3, ret.
  rewrite (get_block_some _ _ _ Hb), (put_block_some _ _ _ _ Hb), Hw.
  reflexivity.
Qed.

Lemma try_add_shared_ref_spec
    (m : memory) (cb : positive) (b : control_block_base) (oracle : list cas_env) :
  blocks m !! cb = Some b →
  ∃ observed : Z,
    In observed (shared_count_ b :: contended_values oracle) ∧
    (contended_values oracle = [] → observed = shared_count_ b) ∧
    try_add_shared_ref cb oracle m =
      Ret (negb (observed =? 0))
          (set_blocks
             (insert cb (with_shared (if observed =? 0 then 0
                                      else wrap (observed + 1)) b)) m).
Proof.
  intros Hb. destruct (try_add_loop_spec cb oracle m b Hb) as (obs & Hin & Hq & Hrun).
  exists obs. split; [done|]. split; [done|].
  unfold try_add_shared_ref, shared_load.
  unfold bind at 1 2. by rewrite (get_block_some _ _ _ Hb).
Qed.

(** Without interference from other threads the call reads the count once:
    zero makes it fail and leave the memory as it is, anything else makes it
    succeed and store the successor. *)
Lemma try_add_shared_ref_quiet
    (m : memory) (cb : positive) (b : control_block_base) (oracle : list cas_env) :
  blocks m !! cb = Some b → contended_values oracle = [] →
  try_add_shared_ref cb oracle m =
    if shared_count_ b =? 0 then Ret false m
    else Ret true
           (set_blocks (insert cb (with_shared (wrap (shared_count_ b + 1)) b)) m).
Proof.
  intros Hb Hq.
  destruct (try_add_shared_ref_spec m cb b oracle Hb) as (obs & _ & Hobs & Hrun).
  rewrite Hrun, (Hobs Hq). destruct (Z.eqb_spec (shared_count_ b) 0) as [Hz|Hz]; [|done].
  simpl. f_equal. rewrite <- Hz, with_shared_id. by apply set_blocks_insert_id.
Qed.

Lemma contended_values_spurious (n : nat) : contended_values (replicate n Spurious) = [].
Proof. induction n as [|n IH]; [done|]. exact IH. Qed.

Lemma lifetime_events_snoc_destroy (cb : positive) (l : list event) :
  lifetime_events cb (l ++ [EvDestroy cb]) = lifetime_events cb l ++ [EvDestroy cb].
Proof.
  rewrite lifetime_events_app. f_equal.
  unfold lifetime_events. rewrite filter_cons_True; [done|]. by right.
Qed.

Lemma lifetime_events_cons_dispose (cb : positive) (l : list event) :
  lifetime_events cb (EvDispose cb :: l) = EvDispose cb :: lifetime_events cb l.
Proof. unfold lifetime_events. rewrite filter_cons_True; [done|]. by left. Qed.

Lemma of_nat_S_wrap (n : nat) :
  Z.of_nat n + 1 < size_t_modulus → wrap (Z.of_nat n + 1) = Z.of_nat (S n).
Proof. intros H. rewrite wrap_small; lia. Qed.

Lemma of_nat_pred_wrap (n : nat) :
  Z.of_nat (S n) < size_t_modulus → wrap (Z.of_nat (S n) - 1) = Z.of_nat n.
Proof. intros H. rewrite wrap_small; lia. Qed.

(** ** Control-block code does not touch the handles *)

Lemma block_local_ret {A} (a : A) : block_local (ret a).
Proof. by intros g m _. Qed.

Lemma block_local_bind {A B} (c : M A) (k : A → M B) :
  block_local c → (∀ a, block_local (k a)) → block_local (bind c k).
Proof.
  intros Hc Hk g m Hg. unfold bind. rewrite (Hc g m Hg).
  destruct (c m) as [a m'|e m'|]; simpl; [by apply Hk|done|done].
Qed.

Lemma block_local_if {A} (b : bool) (c1 c2 : M A) :
  block_local c1 → block_local c2 → block_local (if b then c1 else c2).
Proof. by destruct b. Qed.

Lemma block_local_get_block (cb : positive) : block_local (get_block cb).
Proof.
  intros g m [[f ->]|[[f ->]|[f ->]]]; unfold get_block; simpl;
    by destruct (blocks m !! cb).
Qed.

Lemma block_local_put_block (cb : positive) (b : control_block_base) :
  block_local (put_block cb b).
Proof.
  intros g m [[f ->]|[[f ->]|[f ->]]]; unfold put_block; simpl;
    by destruct (blocks m !! cb).
Qed.

Lemma block_local_log (e : event) : block_local (log e).
Proof. by intros g m [[f ->]|[[f ->]|[f ->]]]. Qed.

Create HintDb block_local.
#[local] Hint Resolve block_local_ret block_local_bind block_local_if
  block_local_get_block block_local_put_block block_local_log : block_local.

Lemma block_local_invoke_deleter (d : deleter) (p : Z) : block_local (invoke_deleter d p).
Proof.
  destruct d; unfold invoke_deleter; [|auto with block_local].
  apply block_local_bind; [auto with block_local|]. intros _.
  by intros g m [[f ->]|[[f ->]|[f ->]]].
Qed.
#[local] Hint Resolve block_local_invoke_deleter : block_local.

Lemma block_local_dispose (cb : positive) : block_local (dispose cb).
Proof.
  unfold dispose. apply block_local_bind; [auto with block_local|]. intros _.
  apply block_local_bind; [auto with block_local|]. intros b.
  destruct (derived b); auto 6 with block_local.
Qed.

Lemma block_local_destroy (cb : positive) : block_local (destroy cb).
Proof.
  unfold destroy. apply block_local_bind; [auto with block_local|]. intros _.
  apply block_local_bind; [auto with block_local|]. intros _.
  by intros g m [[f ->]|[[f ->]|[f ->]]].
Qed.
#[local] Hint Resolve block_local_dispose block_local_destroy : block_local.

Lemma block_local_release_weak (cb : positive) : block_local (release_weak cb).
Proof. unfold release_weak, weak_fetch_sub. auto 8 with block_local. Qed.
#[local] Hint Resolve block_local_release_weak : block_local.

Lemma block_local_release_shared (cb : positive) : block_local (release_shared cb).
Proof. unfold release_shared, shared_fetch_sub. auto 8 with block_local. Qed.

Lemma block_local_add_shared_ref (cb : positive) : block_local (add_shared_ref cb).
Proof. unfold add_shared_ref, shared_fetch_add. auto 8 with block_local. Qed.

Lemma block_local_add_weak_ref (cb : positive) : block_local (add_weak_ref cb).
Proof. unfold add_weak_ref, weak_fetch_add. auto 8 with block_local. Qed.

Lemma block_local_shared_load (cb : positive) : block_local (shared_load cb).
Proof. unfold shared_load. auto with block_local. Qed.
#[local] Hint Resolve block_local_release_shared block_local_add_shared_ref
  block_local_add_weak_ref block_local_shared_load : block_local.

Lemma block_local_compare_exchange_weak
    (cb : positive) (expected desired : Z) (env : cas_env) :
  block_local (compare_exchange_weak cb expected desired env).
Proof.
  unfold compare_exchange_weak.
  apply block_local_bind; [destruct env; auto with block_local|]. intros _.
  auto 8 with block_local.
Qed.
#[local] Hint Resolve block_local_compare_exchange_weak : block_local.

Lemma block_local_try_add_loop (fuel : nat) (cb : positive) :
  ∀ (oracle : list cas_env) (count : Z),
    block_local (try_add_loop fuel cb oracle count).
Proof.
  induction fuel as [|fuel IH]; intros oracle count.
  - by intros g m _.
  - rewrite try_add_loop_S. apply block_local_if; [auto with block_local|].
    apply block_local_bind; [auto with block_local|]. intros r.
    apply block_local_if; [auto with block_local|]. apply IH.
Qed.

Lemma block_local_try_add_shared_ref (cb : positive) (oracle : list cas_env) :
  block_local (try_add_shared_ref cb oracle).
Proof.
  unfold try_add_shared_ref. apply block_local_bind; [auto with block_local|].
  intros count. apply block_local_try_add_loop.
Qed.

Lemma block_local_release_shared_if (c : option positive) :
  block_local (release_shared_if c).
Proof. destruct c; simpl; auto with block_local. Qed.

Lemma block_local_release_weak_if (c : option positive) :
  block_local (release_weak_if c).
Proof. destruct c; simpl; auto with block_local. Qed.

Lemma block_local_add_shared_ref_if (c : option positive) :
  block_local (add_shared_ref_if c).
Proof. destruct c; simpl; auto with block_local. Qed.

Lemma block_local_add_weak_ref_if (c : option positive) :
  block_local (add_weak_ref_if c).
Proof. destruct c; simpl; auto with block_local. Qed.
#[local] Hint Resolve block_local_try_add_shared_ref block_local_release_shared_if
  block_local_release_weak_if block_local_add_shared_ref_if
  block_local_add_weak_ref_if : block_local.

Lemma handle_update_shared (f : gmap positive shared_ptr → gmap positive shared_ptr) :
  handle_update (set_shared_ptrs f).
Proof. left. by exists f. Qed.

Lemma handle_update_weak (f : gmap positive weak_ptr → gmap positive weak_ptr) :
  handle_update (set_weak_ptrs f).
Proof. right. left. by exists f. Qed.

Lemma handle_update_unique (f : gmap positive unique_ptr → gmap positive unique_ptr) :
  handle_update (set_unique_ptrs f).
Proof. right. right. by exists f. Qed.
#[local] Hint Resolve handle_update_shared handle_update_weak
  handle_update_unique : block_local.

(** ** Control-block code does not throw *)

Lemma noexcept_ret {A} (a : A) : noexcept (ret a).
Proof. by intros m m' e. Qed.

Lemma noexcept_bind {A B} (c : M A) (k : A → M B) :
  noexcept c → (∀ a, noexcept (k a)) → noexcept (bind c k).
Proof.
  intros Hc Hk m m' e. unfold bind. pose proof (Hc m) as Hcm.
  destruct (c m) as [a m1|e1 m1|]; [apply Hk| |done].
  by destruct (Hcm m1 e1).
Qed.

Lemma noexcept_if {A} (b : bool) (c1 c2 : M A) :
  noexcept c1 → noexcept c2 → noexcept (if b then c1 else c2).
Proof. by destruct b. Qed.

Lemma noexcept_get_block (cb : positive) : noexcept (get_block cb).
Proof. intros m m' e. unfold get_block. by destruct (blocks m !! cb). Qed.

Lemma noexcept_put_block (cb : positive) (b : control_block_base) :
  noexcept (put_block cb b).
Proof. intros m m' e. unfold put_block. by destruct (blocks m !! cb). Qed.

Lemma noexcept_log (e : event) : noexcept (log e).
Proof. by intros m m' e'. Qed.

Create HintDb noexcept.
#[local] Hint Resolve noexcept_ret noexcept_bind noexcept_if noexcept_get_block
  noexcept_put_block noexcept_log : noexcept.

Lemma noexcept_invoke_deleter (d : deleter) (p : Z) : noexcept (invoke_deleter d p).
Proof.
  destruct d; unfold invoke_deleter; [|auto with noexcept].
  apply noexcept_bind; [auto with noexcept|]. by intros _ m m' e.
Qed.
#[local] Hint Resolve noexcept_invoke_deleter : noexcept.

Lemma noexcept_dispose (cb : positive) : noexcept (dispose cb).
Proof.
  unfold dispose. apply noexcept_bind; [auto with noexcept|]. intros _.
  apply noexcept_bind; [auto with noexcept|]. intros b.
  destruct (derived b); auto 6 with noexcept.
Qed.

Lemma noexcept_destroy (cb : positive) : noexcept (destroy cb).
Proof.
  unfold destroy. apply noexcept_bind; [auto with noexcept|]. intros _.
  apply noexcept_bind; [auto with noexcept|]. by intros _ m m' e.
Qed.
#[local] Hint Resolve noexcept_dispose noexcept_destroy : noexcept.

Lemma noexcept_release_weak (cb : positive) : noexcept (release_weak cb).
Proof. unfold release_weak, weak_fetch_sub. auto 8 with noexcept. Qed.
#[local] Hint Resolve noexcept_release_weak : noexcept.

Lemma noexcept_release_shared (cb : positive) : noexcept (release_shared cb).
Proof. unfold release_shared, shared_fetch_sub. auto 8 with noexcept. Qed.

Lemma noexcept_add_shared_ref (cb : positive) : noexcept (add_shared_ref cb).
Proof. unfold add_shared_ref, shared_fetch_add. auto 8 with noexcept. Qed.

Lemma noexcept_add_weak_ref (cb : positive) : noexcept (add_weak_ref cb).
Proof. unfold add_weak_ref, weak_fetch_add. auto 8 with noexcept. Qed.

Lemma noexcept_release_shared_if (c : option positive) : noexcept (release_shared_if c).
Proof. destruct c; simpl; [apply noexcept_release_shared | apply noexcept_ret]. Qed.

Lemma noexcept_release_weak_if (c : option positive) : noexcept (release_weak_if c).
Proof. destruct c; simpl; [apply noexcept_release_weak | apply noexcept_ret]. Qed.

Lemma noexcept_add_shared_ref_if (c : option positive) : noexcept (add_shared_ref_if c).
Proof. destruct c; simpl; [apply noexcept_add_shared_ref | apply noexcept_ret]. Qed.

Lemma noexcept_add_weak_ref_if (c : option positive) : noexcept (add_weak_ref_if c).
Proof. destruct c; simpl; [apply noexcept_add_weak_ref | apply noexcept_ret]. Qed.
#[local] Hint Resolve noexcept_release_shared noexcept_add_shared_ref
  noexcept_add_weak_ref noexcept_release_shared_if noexcept_release_weak_if
  noexcept_add_shared_ref_if noexcept_add_weak_ref_if : noexcept.

(** ** Handle objects *)

Lemma shared_eta (s : shared_ptr) : mk_shared (sp_ptr_ s) (sp_ctrl_block_ s) = s.
Proof. by destruct s. Qed.

Lemma weak_eta (w : weak_ptr) : mk_weak (wp_ptr_ w) (wp_ctrl_block_ w) = w.
Proof. by destruct w. Qed.

Lemma Ret_shared_ptrs_ext {A} (a : A) s bl o sp sp' wp up t :
  sp = sp' → Ret a (mk_memory s bl o sp wp up t) = Ret a (mk_memory s bl o sp' wp up t).
Proof. by intros ->. Qed.

Lemma Ret_weak_ptrs_ext {A} (a : A) s bl o sp wp wp' up t :
  wp = wp' → Ret a (mk_memory s bl o sp wp up t) = Ret a (mk_memory s bl o sp wp' up t).
Proof. by intros ->. Qed.

Lemma Ret_unique_ptrs_ext {A} (a : A) s bl o sp wp up up' t :
  up = up' → Ret a (mk_memory s bl o sp wp up t) = Ret a (mk_memory s bl o sp wp up' t).
Proof. by intros ->. Qed.

Lemma shared_ptr_swap_distinct (m : memory) (a b : positive) (va vb : shared_ptr) :
  a ≠ b → shared_ptrs m !! a = Some va → shared_ptrs m !! b = Some vb →
  shared_ptr_swap a b m =
    Ret tt (set_shared_ptrs (fun sp => <[b := va]> (<[a := vb]> sp)) m).
Proof.
  intros Hne Ha Hb. destruct m as [s bl o sp wp up t].
  destruct va as [pa ca], vb as [pb cb].
  unfold shared_ptr_swap, bind, read_shared, write_shared, ret, set_shared_ptrs.
  simpl in *. repeat (simplify_map_eq; simpl).
  apply Ret_shared_ptrs_ext, map_eq. intros i.
  destruct (decide (i = a)) as [Hia|Hia], (decide (i = b)) as [Hib|Hib];
    by simplify_map_eq.
Qed.

Lemma shared_ptr_swap_self (m : memory) (a : positive) (va : shared_ptr) :
  shared_ptrs m !! a = Some va → shared_ptr_swap a a m = Ret tt m.
Proof.
  intros Ha. destruct m as [s bl o sp wp up t]. destruct va as [pa ca].
  unfold shared_ptr_swap, bind, read_shared, write_shared, ret, set_shared_ptrs.
  simpl in *. repeat (simplify_map_eq; simpl).
  apply Ret_shared_ptrs_ext, map_eq. intros i.
  destruct (decide (i = a)) as [->|?]; by simplify_map_eq.
Qed.

Lemma block_local_keeps_shared_ptrs {A} (c : M A) (m : memory) :
  block_local c →
  match c m with
  | Ret _ m' | Throw _ m' => shared_ptrs m' = shared_ptrs m
  | Undefined => True
  end.
Proof.
  intros Hc.
  pose proof (Hc (set_shared_ptrs (fun _ => shared_ptrs m)) m
                 (handle_update_shared _)) as H.
  assert (Hm : set_shared_ptrs (fun _ => shared_ptrs m) m = m) by by destruct m.
  rewrite Hm in H. destruct (c m) as [a m'|e m'|]; [| |done];
    simpl in H; inversion H as [H1]; by rewrite H1 at 1.
Qed.

Lemma outcome_map_compose {A} (g1 g2 : memory → memory) (r : outcome A) :
  outcome_map g1 (outcome_map g2 r) = outcome_map (fun m => g1 (g2 m)) r.
Proof. by destruct r. Qed.

(** Two changes of the shared handles agree on an outcome of control-block
    code when they agree on the handles it started from. *)
Lemma outcome_map_shared_ext {A} (c : M A) (m : memory)
    (F1 F2 : gmap positive shared_ptr → gmap positive shared_ptr) :
  block_local c → F1 (shared_ptrs m) = F2 (shared_ptrs m) →
  outcome_map (set_shared_ptrs F1) (c m) = outcome_map (set_shared_ptrs F2) (c m).
Proof.
  intros Hc HF. pose proof (block_local_keeps_shared_ptrs c m Hc) as Hk.
  destruct (c m) as [a m'|e m'|]; [| |done]; simpl;
    destruct m'; unfold set_shared_ptrs; simpl in *; rewrite Hk; by rewrite HF.
Qed.

Lemma temp_shared_fresh (m : memory) :
  shared_ptrs m !! fresh (dom (shared_ptrs m)) = None.
Proof. apply not_elem_of_dom. apply is_fresh. Qed.

Lemma shared_ptr_dtor_spec (m : memory) (this : positive) (v : shared_ptr) :
  shared_ptrs m !! this = Some v →
  shared_ptr_dtor this m =
    outcome_map (set_shared_ptrs (delete this)) (release_shared_if (sp_ctrl_block_ v) m).
Proof.
  intros Hv. unfold shared_ptr_dtor. unfold bind at 1. unfold read_shared. rewrite Hv.
  fold (release_shared_if (sp_ctrl_block_ v)).
  pose proof (block_local_keeps_shared_ptrs (release_shared_if (sp_ctrl_block_ v)) m
                (block_local_release_shared_if _)) as Hk.
  pose proof (noexcept_release_shared_if (sp_ctrl_block_ v) m) as Hn.
  unfold bind. destruct (release_shared_if (sp_ctrl_block_ v) m) as [a m'|e m'|];
    [| |done].
  - unfold drop_shared. rewrite Hk, Hv. by destruct a.
  - by destruct (Hn m' e).
Qed.

(** The tail of every assignment and [reset]: [tmp.swap( *this)], then the
    temporary dies holding what [this] held. *)
Lemma shared_ptr_swap_dtor_temp (m : memory) (tmp this : positive) (vt v : shared_ptr) :
  tmp ≠ this → shared_ptrs m !! tmp = Some vt → shared_ptrs m !! this = Some v →
  (shared_ptr_swap tmp this >> shared_ptr_dtor tmp) m =
    outcome_map (set_shared_ptrs (fun sp => delete tmp (<[this := vt]> sp)))
                (release_shared_if (sp_ctrl_block_ v) m).
Proof.
  intros Hne Ht Hv.
  rewrite (bind_Ret _ _ _ _ _ (shared_ptr_swap_distinct m tmp this vt v Hne Ht Hv)).
  rewrite (shared_ptr_dtor_spec _ tmp v).
  2:{ simpl. by rewrite lookup_insert_ne, lookup_insert_eq. }
  rewrite (block_local_release_shared_if _ _ m (handle_update_shared _)).
  rewrite outcome_map_compose.
  apply (outcome_map_shared_ext (release_shared_if (sp_ctrl_block_ v)) m
           (fun sp => delete tmp (<[this:=vt]> (<[tmp:=v]> sp)))
           (fun sp => delete tmp (<[this:=vt]> sp)));
    [apply block_local_release_shared_if|].
  apply map_eq. intros i.
  destruct (decide (i = tmp)) as [Hi|Hi], (decide (i = this)) as [Hj|Hj];
    by simplify_map_eq.
Qed.

Lemma shared_ptr_reset_spec (m : memory) (this : positive) (v : shared_ptr) :
  shared_ptrs m !! this = Some v →
  shared_ptr_reset this m =
    outcome_map (set_shared_ptrs (insert this (mk_shared 0 None)))
                (release_shared_if (sp_ctrl_block_ v) m).
Proof.
  intros Hv. unfold shared_ptr_reset, temp_shared. unfold bind at 1.
  pose proof (temp_shared_fresh m) as Hf.
  set (tmp := fresh (dom (shared_ptrs m))) in *.
  assert (Hne : tmp ≠ this) by (intros ->; congruence).
  unfold bind at 1. unfold shared_ptr_ctor, init_shared. rewrite Hf.
  rewrite (shared_ptr_swap_dtor_temp _ tmp this (mk_shared 0 None) v Hne).
  2:{ simpl. apply lookup_insert_eq. }
  2:{ simpl. by rewrite lookup_insert_ne. }
  rewrite (block_local_release_shared_if _ _ m (handle_update_shared _)).
  rewrite outcome_map_compose.
  apply (outcome_map_shared_ext (release_shared_if (sp_ctrl_block_ v)) m
           (fun sp => delete tmp (<[this:=mk_shared 0 None]> (<[tmp:=mk_shared 0 None]> sp)))
           (insert this (mk_shared 0 None)));
    [apply block_local_release_shared_if|].
  apply map_eq. intros i.
  destruct (decide (i = tmp)) as [Hi|Hi], (decide (i = this)) as [Hj|Hj];
    by simplify_map_eq.
Qed.

Lemma shared_ptr_copy_ctor_spec (m : memory) (this other : positive) (o : shared_ptr) :
  shared_ptrs m !! other = Some o → shared_ptrs m !! this = None →
  shared_ptr_copy_ctor this other m =
    outcome_map (set_shared_ptrs (insert this o))
                (add_shared_ref_if (sp_ctrl_block_ o) m).
Proof.
  intros Ho Hn. unfold shared_ptr_copy_ctor. unfold bind at 1. unfold read_shared.
  rewrite Ho. unfold bind at 1. unfold init_shared. rewrite Hn, shared_eta.
  fold (add_shared_ref_if (sp_ctrl_block_ o)).
  apply (block_local_add_shared_ref_if _ _ m (handle_update_shared _)).
Qed.

Lemma shared_ptr_move_ctor_spec (m : memory) (this other : positive) (o : shared_ptr) :
  shared_ptrs m !! other = Some o → shared_ptrs m !! this = None →
  shared_ptr_move_ctor this other m =
    Ret tt (set_shared_ptrs
              (fun sp => <[other := mk_shared 0 None]> (<[this := o]> sp)) m).
Proof.
  intros Ho Hn. assert (Hne : this ≠ other) by (intros ->; congruence).
  destruct m as [s bl ob sp wp up t]. destruct o as [po co].
  unfold shared_ptr_move_ctor, bind, read_shared, write_shared, init_shared, ret,
    set_shared_ptrs.
  simpl in *. repeat (simplify_map_eq; simpl).
  apply Ret_shared_ptrs_ext, map_eq. intros i.
  destruct (decide (i = this)) as [Hi|Hi], (decide (i = other)) as [Hj|Hj];
    by simplify_map_eq.
Qed.

Lemma add_shared_ref_if_cases (c : option positive) (m : memory) :
  add_shared_ref_if c m = Undefined ∨
  ∃ m', add_shared_ref_if c m = Ret tt m' ∧ shared_ptrs m' = shared_ptrs m.
Proof.
  pose proof (block_local_keeps_shared_ptrs (add_shared_ref_if c) m
                (block_local_add_shared_ref_if _)) as Hk.
  pose proof (noexcept_add_shared_ref_if c m) as Hn.
  destruct (add_shared_ref_if c m) as [[] m'|e m'|]; [right|..|by left].
  - by exists m'.
  - by destruct (Hn m' e).
Qed.

(** Copy assignment, also of a handle to itself: the source's block is
    acquired, then what [this] held is released, and [this] holds what
    [other] held. *)
Lemma shared_ptr_copy_assign_spec (m : memory) (this other : positive) (v o : shared_ptr) :
  shared_ptrs m !! this = Some v → shared_ptrs m !! other = Some o →
  shared_ptr_copy_assign this other m =
    outcome_map (set_shared_ptrs (insert this o))
      ((add_shared_ref_if (sp_ctrl_block_ o) >> release_shared_if (sp_ctrl_block_ v)) m).
Proof.
  intros Hv Ho. unfold shared_ptr_copy_assign, temp_shared. unfold bind at 1.
  pose proof (temp_shared_fresh m) as Hf.
  set (tmp := fresh (dom (shared_ptrs m))) in *.
  assert (Hne : tmp ≠ this) by (intros ->; congruence).
  unfold bind at 1. rewrite (shared_ptr_copy_ctor_spec m tmp other o Ho Hf).
  unfold bind at 2.
  destruct (add_shared_ref_if_cases (sp_ctrl_block_ o) m) as [Hu|(ma & Ha & Hsp)].
  { by rewrite Hu. }
  rewrite Ha. cbn [outcome_map].
  rewrite (shared_ptr_swap_dtor_temp _ tmp this o v Hne).
  2:{ simpl. apply lookup_insert_eq. }
  2:{ simpl. by rewrite lookup_insert_ne, Hsp. }
  rewrite (block_local_release_shared_if _ _ ma (handle_update_shared _)).
  rewrite outcome_map_compose.
  apply (outcome_map_shared_ext (release_shared_if (sp_ctrl_block_ v)) ma
           (fun sp => delete tmp (<[this:=o]> (<[tmp:=o]> sp)))
           (insert this o));
    [apply block_local_release_shared_if|].
  rewrite Hsp. apply map_eq. intros i.
  destruct (decide (i = tmp)) as [Hi|Hi], (decide (i = this)) as [Hj|Hj];
    by simplify_map_eq.
Qed.

(** Move assignment between two objects: no acquisition; what [this] held
    is released; [this] holds what [other] held and [other] is empty. *)
Lemma shared_ptr_move_assign_spec (m : memory) (this other : positive) (v o : shared_ptr) :
  this ≠ other →
  shared_ptrs m !! this = Some v → shared_ptrs m !! other = Some o →
  shared_ptr_move_assign this other m =
    outcome_map
      (set_shared_ptrs (fun sp => <[other := mk_shared 0 None]> (<[this := o]> sp)))
      (release_shared_if (sp_ctrl_block_ v) m).
Proof.
  intros Hto Hv Ho. unfold shared_ptr_move_assign, temp_shared. unfold bind at 1.
  pose proof (temp_shared_fresh m) as Hf.
  set (tmp := fresh (dom (shared_ptrs m))) in *.
  assert (Hne : tmp ≠ this) by (intros ->; congruence).
  assert (Hno : tmp ≠ other) by (intros ->; congruence).
  rewrite (bind_Ret _ _ _ _ _ (shared_ptr_move_ctor_spec m tmp other o Ho Hf)).
  rewrite (shared_ptr_swap_dtor_temp _ tmp this o v Hne).
  2:{ simpl. by rewrite lookup_insert_ne, lookup_insert_eq. }
  2:{ simpl. by rewrite !lookup_insert_ne. }
  rewrite (block_local_release_shared_if _ _ m (handle_update_shared _)).
  rewrite outcome_map_compose.
  apply (outcome_map_shared_ext (release_shared_if (sp_ctrl_block_ v)) m
           (fun sp => delete tmp (<[this:=o]> (<[other:=mk_shared 0 None]> (<[tmp:=o]> sp))))
           (fun sp => <[other := mk_shared 0 None]> (<[this := o]> sp)));
    [apply block_local_release_shared_if|].
  apply map_eq. intros i.
  destruct (decide (i = tmp)) as [Hi|Hi], (decide (i = this)) as [Hj|Hj],
    (decide (i = other)) as [Hk|Hk]; by simplify_map_eq.
Qed.

(** Move assignment of a handle to itself changes nothing. *)
Lemma shared_ptr_move_assign_self (m : memory) (this : positive) (v : shared_ptr) :
  shared_ptrs m !! this = Some v →
  shared_ptr_move_assign this this m = Ret tt m.
Proof.
  intros Hv. unfold shared_ptr_move_assign, temp_shared. unfold bind at 1.
  pose proof (temp_shared_fresh m) as Hf.
  set (tmp := fresh (dom (shared_ptrs m))) in *.
  assert (Hne : tmp ≠ this) by (intros ->; congruence).
  rewrite (bind_Ret _ _ _ _ _ (shared_ptr_move_ctor_spec m tmp this v Hv Hf)).
  rewrite (shared_ptr_swap_dtor_temp _ tmp this v (mk_shared 0 None) Hne).
  2:{ simpl. by rewrite lookup_insert_ne, lookup_insert_eq. }
  2:{ simpl. by rewrite lookup_insert_eq. }
  destruct m as [s bl ob sp wp up t]. simpl in *. unfold ret, set_shared_ptrs.
  simpl. apply Ret_shared_ptrs_ext, map_eq. intros i.
  destruct (decide (i = tmp)) as [Hi|Hi], (decide (i = this)) as [Hj|Hj];
    by simplify_map_eq.
Qed.

Lemma shared_ptr_use_count_spec (m : memory) (this cb : positive)
    (v : shared_ptr) (b : control_block_base) :
  shared_ptrs m !! this = Some v → sp_ctrl_block_ v = Some cb →
  blocks m !! cb = Some b →
  shared_ptr_use_count this m = Ret (to_long (shared_count_ b)) m.
Proof.
  intros Hv Hc Hb. unfold shared_ptr_use_count, read_shared, cb_use_count, shared_load.
  unfold bind, ret. by rewrite Hv, Hc, (get_block_some _ _ _ Hb).
Qed.

Lemma shared_ptr_use_count_empty (m : memory) (this : positive) (v : shared_ptr) :
  shared_ptrs m !! this = Some v → sp_ctrl_block_ v = None →
  shared_ptr_use_count this m = Ret 0 m.
Proof.
  intros Hv Hc. unfold shared_ptr_use_count, read_shared.
  unfold bind, ret. by rewrite Hv, Hc.
Qed.

(** ** The same for weak_ptr *)

Lemma weak_ptr_swap_distinct (m : memory) (a b : positive) (va vb : weak_ptr) :
  a ≠ b → weak_ptrs m !! a = Some va → weak_ptrs m !! b = Some vb →
  weak_ptr_swap a b m =
    Ret tt (set_weak_ptrs (fun sp => <[b := va]> (<[a := vb]> sp)) m).
Proof.
  intros Hne Ha Hb. destruct m as [s bl o sp wp up t].
  destruct va as [pa ca], vb as [pb cb].
  unfold weak_ptr_swap, bind, read_weak, write_weak, ret, set_weak_ptrs.
  simpl in *. repeat (simplify_map_eq; simpl).
  apply Ret_weak_ptrs_ext, map_eq. intros i.
  destruct (decide (i = a)) as [Hia|Hia], (decide (i = b)) as [Hib|Hib];
    by simplify_map_eq.
Qed.

Lemma weak_ptr_swap_self (m : memory) (a : positive) (va : weak_ptr) :
  weak_ptrs m !! a = Some va → weak_ptr_swap a a m = Ret tt m.
Proof.
  intros Ha. destruct m as [s bl o sp wp up t]. destruct va as [pa ca].
  unfold weak_ptr_swap, bind, read_weak, write_weak, ret, set_weak_ptrs.
  simpl in *. repeat (simplify_map_eq; simpl).
  apply Ret_weak_ptrs_ext, map_eq. intros i.
  destruct (decide (i = a)) as [->|?]; by simplify_map_eq.
Qed.

Lemma block_local_keeps_weak_ptrs {A} (c : M A) (m : memory) :
  block_local c →
  match c m with
  | Ret _ m' | Throw _ m' => weak_ptrs m' = weak_ptrs m
  | Undefined => True
  end.
Proof.
  intros Hc.
  pose proof (Hc (set_weak_ptrs (fun _ => weak_ptrs m)) m
                 (handle_update_weak _)) as H.
  assert (Hm : set_weak_ptrs (fun _ => weak_ptrs m) m = m) by by destruct m.
  rewrite Hm in H. destruct (c m) as [a m'|e m'|]; [| |done];
    simpl in H; inversion H as [H1]; by rewrite H1 at 1.
Qed.

(** Two changes of the weak handles agree on an outcome of control-block
    code when they agree on the handles it started from. *)
Lemma outcome_map_weak_ext {A} (c : M A) (m : memory)
    (F1 F2 : gmap positive weak_ptr → gmap positive weak_ptr) :
  block_local c → F1 (weak_ptrs m) = F2 (weak_ptrs m) →
  outcome_map (set_weak_ptrs F1) (c m) = outcome_map (set_weak_ptrs F2) (c m).
Proof.
  intros Hc HF. pose proof (block_local_keeps_weak_ptrs c m Hc) as Hk.
  destruct (c m) as [a m'|e m'|]; [| |done]; simpl;
    destruct m'; unfold set_weak_ptrs; simpl in *; rewrite Hk; by rewrite HF.
Qed.

Lemma temp_weak_fresh (m : memory) :
  weak_ptrs m !! fresh (dom (weak_ptrs m)) = None.
Proof. apply not_elem_of_dom. apply is_fresh. Qed.

Lemma weak_ptr_dtor_spec (m : memory) (this : positive) (v : weak_ptr) :
  weak_ptrs m !! this = Some v →
  weak_ptr_dtor this m =
    outcome_map (set_weak_ptrs (delete this)) (release_weak_if (wp_ctrl_block_ v) m).
Proof.
  intros Hv. unfold weak_ptr_dtor. unfold bind at 1. unfold read_weak. rewrite Hv.
  fold (release_weak_if (wp_ctrl_block_ v)).
  pose proof (block_local_keeps_weak_ptrs (release_weak_if (wp_ctrl_block_ v)) m
                (block_local_release_weak_if _)) as Hk.
  pose proof (noexcept_release_weak_if (wp_ctrl_block_ v) m) as Hn.
  unfold bind. destruct (release_weak_if (wp_ctrl_block_ v) m) as [a m'|e m'|];
    [| |done].
  - unfold drop_weak. rewrite Hk, Hv. by destruct a.
  - by destruct (Hn m' e).
Qed.

(** The tail of every assignment and [reset]: [tmp.swap( *this)], then the
    temporary dies holding what [this] held. *)
Lemma weak_ptr_swap_dtor_temp (m : memory) (tmp this : positive) (vt v : weak_ptr) :
  tmp ≠ this → weak_ptrs m !! tmp = Some vt → weak_ptrs m !! this = Some v →
  (weak_ptr_swap tmp this >> weak_ptr_dtor tmp) m =
    outcome_map (set_weak_ptrs (fun sp => delete tmp (<[this := vt]> sp)))
                (release_weak_if (wp_ctrl_block_ v) m).
Proof.
  intros Hne Ht Hv.
  rewrite (bind_Ret _ _ _ _ _ (weak_ptr_swap_distinct m tmp this vt v Hne Ht Hv)).
  rewrite (weak_ptr_dtor_spec _ tmp v).
  2:{ simpl. by rewrite lookup_insert_ne, lookup_insert_eq. }
  rewrite (block_local_release_weak_if _ _ m (handle_update_weak _)).
  rewrite outcome_map_compose.
  apply (outcome_map_weak_ext (release_weak_if (wp_ctrl_block_ v)) m
           (fun sp => delete tmp (<[this:=vt]> (<[tmp:=v]> sp)))
           (fun sp => delete tmp (<[this:=vt]> sp)));
    [apply block_local_release_weak_if|].
  apply map_eq. intros i.
  destruct (decide (i = tmp)) as [Hi|Hi], (decide (i = this)) as [Hj|Hj];
    by simplify_map_eq.
Qed.

Lemma weak_ptr_reset_spec (m : memory) (this : positive) (v : weak_ptr) :
  weak_ptrs m !! this = Some v →
  weak_ptr_reset this m =
    outcome_map (set_weak_ptrs (insert this (mk_weak 0 None)))
                (release_weak_if (wp_ctrl_block_ v) m).
Proof.
  intros Hv. unfold weak_ptr_reset, temp_weak. unfold bind at 1.
  pose proof (temp_weak_fresh m) as Hf.
  set (tmp := fresh (dom (weak_ptrs m))) in *.
  assert (Hne : tmp ≠ this) by (intros ->; congruence).
  unfold bind at 1. unfold weak_ptr_ctor, init_weak. rewrite Hf.
  rewrite (weak_ptr_swap_dtor_temp _ tmp this (mk_weak 0 None) v Hne).
  2:{ simpl. apply lookup_insert_eq. }
  2:{ simpl. by rewrite lookup_insert_ne. }
  rewrite (block_local_release_weak_if _ _ m (handle_update_weak _)).
  rewrite outcome_map_compose.
  apply (outcome_map_weak_ext (release_weak_if (wp_ctrl_block_ v)) m
           (fun sp => delete tmp (<[this:=mk_weak 0 None]> (<[tmp:=mk_weak 0 None]> sp)))
           (insert this (mk_weak 0 None)));
    [apply block_local_release_weak_if|].
  apply map_eq. intros i.
  destruct (decide (i = tmp)) as [Hi|Hi], (decide (i = this)) as [Hj|Hj];
    by simplify_map_eq.
Qed.

Lemma weak_ptr_copy_ctor_spec (m : memory) (this other : positive) (o : weak_ptr) :
  weak_ptrs m !! other = Some o → weak_ptrs m !! this = None →
  weak_ptr_copy_ctor this other m =
    outcome_map (set_weak_ptrs (insert this o))
                (add_weak_ref_if (wp_ctrl_block_ o) m).
Proof.
  intros Ho Hn. unfold weak_ptr_copy_ctor. unfold bind at 1. unfold read_weak.
  rewrite Ho. unfold bind at 1. unfold init_weak. rewrite Hn, weak_eta.
  fold (add_weak_ref_if (wp_ctrl_block_ o)).
  apply (block_local_add_weak_ref_if _ _ m (handle_update_weak _)).
Qed.

Lemma weak_ptr_move_ctor_spec (m : memory) (this other : positive) (o : weak_ptr) :
  weak_ptrs m !! other = Some o → weak_ptrs m !! this = None →
  weak_ptr_move_ctor this other m =
    Ret tt (set_weak_ptrs
              (fun sp => <[other := mk_weak 0 None]> (<[this := o]> sp)) m).
Proof.
  intros Ho Hn. assert (Hne : this ≠ other) by (intros ->; congruence).
  destruct m as [s bl ob sp wp up t]. destruct o as [po co].
  unfold weak_ptr_move_ctor, bind, read_weak, write_weak, init_weak, ret,
    set_weak_ptrs.
  simpl in *. repeat (simplify_map_eq; simpl).
  apply Ret_weak_ptrs_ext, map_eq. intros i.
  destruct (decide (i = this)) as [Hi|Hi], (decide (i = other)) as [Hj|Hj];
    by simplify_map_eq.
Qed.

Lemma add_weak_ref_if_cases (c : option positive) (m : memory) :
  add_weak_ref_if c m = Undefined ∨
  ∃ m', add_weak_ref_if c m = Ret tt m' ∧ weak_ptrs m' = weak_ptrs m.
Proof.
  pose proof (block_local_keeps_weak_ptrs (add_weak_ref_if c) m
                (block_local_add_weak_ref_if _)) as Hk.
  pose proof (noexcept_add_weak_ref_if c m) as Hn.
  destruct (add_weak_ref_if c m) as [[] m'|e m'|]; [right|..|by left].
  - by exists m'.
  - by destruct (Hn m' e).
Qed.

(** Copy assignment, also of a handle to itself: the source's block is
    acquired, then what [this] held is released, and [this] holds what
    [other] held. *)
Lemma weak_ptr_copy_assign_spec (m : memory) (this other : positive) (v o : weak_ptr) :
  weak_ptrs m !! this = Some v → weak_ptrs m !! other = Some o →
  weak_ptr_copy_assign this other m =
    outcome_map (set_weak_ptrs (insert this o))
      ((add_weak_ref_if (wp_ctrl_block_ o) >> release_weak_if (wp_ctrl_block_ v)) m).
Proof.
  intros Hv Ho. unfold weak_ptr_copy_assign, temp_weak. unfold bind at 1.
  pose proof (temp_weak_fresh m) as Hf.
  set (tmp := fresh (dom (weak_ptrs m))) in *.
  assert (Hne : tmp ≠ this) by (intros ->; congruence).
  unfold bind at 1. rewrite (weak_ptr_copy_ctor_spec m tmp other o Ho Hf).
  unfold bind at 2.
  destruct (add_weak_ref_if_cases (wp_ctrl_block_ o) m) as [Hu|(ma & Ha & Hsp)].
  { by rewrite Hu. }
  rewrite Ha. cbn [outcome_map].
  rewrite (weak_ptr_swap_dtor_temp _ tmp this o v Hne).
  2:{ simpl. apply lookup_insert_eq. }
  2:{ simpl. by rewrite lookup_insert_ne, Hsp. }
  rewrite (block_local_release_weak_if _ _ ma (handle_update_weak _)).
  rewrite outcome_map_compose.
  apply (outcome_map_weak_ext (release_weak_if (wp_ctrl_block_ v)) ma
           (fun sp => delete tmp (<[this:=o]> (<[tmp:=o]> sp)))
           (insert this o));
    [apply block_local_release_weak_if|].
  rewrite Hsp. apply map_eq. intros i.
  destruct (decide (i = tmp)) as [Hi|Hi], (decide (i = this)) as [Hj|Hj];
    by simplify_map_eq.
Qed.

(** Move assignment between two objects: no acquisition; what [this] held
    is released; [this] holds what [other] held and [other] is empty. *)
Lemma weak_ptr_move_assign_spec (m : memory) (this other : positive) (v o : weak_ptr) :
  this ≠ other →
  weak_ptrs m !! this = Some v → weak_ptrs m !! other = Some o →
  weak_ptr_move_assign this other m =
    outcome_map
      (set_weak_ptrs (fun sp => <[other := mk_weak 0 None]> (<[this := o]> sp)))
      (release_weak_if (wp_ctrl_block_ v) m).
Proof.
  intros Hto Hv Ho. unfold weak_ptr_move_assign, temp_weak. unfold bind at 1.
  pose proof (temp_weak_fresh m) as Hf.
  set (tmp := fresh (dom (weak_ptrs m))) in *.
  assert (Hne : tmp ≠ this) by (intros ->; congruence).
  assert (Hno : tmp ≠ other) by (intros ->; congruence).
  rewrite (bind_Ret _ _ _ _ _ (weak_ptr_move_ctor_spec m tmp other o Ho Hf)).
  rewrite (weak_ptr_swap_dtor_temp _ tmp this o v Hne).
  2:{ simpl. by rewrite lookup_insert_ne, lookup_insert_eq. }
  2:{ simpl. by rewrite !lookup_insert_ne. }
  rewrite (block_local_release_weak_if _ _ m (handle_update_weak _)).
  rewrite outcome_map_compose.
  apply (outcome_map_weak_ext (release_weak_if (wp_ctrl_block_ v)) m
           (fun sp => delete tmp (<[this:=o]> (<[other:=mk_weak 0 None]> (<[tmp:=o]> sp))))
           (fun sp => <[other := mk_weak 0 None]> (<[this := o]> sp)));
    [apply block_local_release_weak_if|].
  apply map_eq. intros i.
  destruct (decide (i = tmp)) as [Hi|Hi], (decide (i = this)) as [Hj|Hj],
    (decide (i = other)) as [Hk|Hk]; by simplify_map_eq.
Qed.

(** Move assignment of a handle to itself changes nothing. *)
Lemma weak_ptr_move_assign_self (m : memory) (this : positive) (v : weak_ptr) :
  weak_ptrs m !! this = Some v →
  weak_ptr_move_assign this this m = Ret tt m.
Proof.
  intros Hv. unfold weak_ptr_move_assign, temp_weak. unfold bind at 1.
  pose proof (temp_weak_fresh m) as Hf.
  set (tmp := fresh (dom (weak_ptrs m))) in *.
  assert (Hne : tmp ≠ this) by (intros ->; congruence).
  rewrite (bind_Ret _ _ _ _ _ (weak_ptr_move_ctor_spec m tmp this v Hv Hf)).
  rewrite (weak_ptr_swap_dtor_temp _ tmp this v (mk_weak 0 None) Hne).
  2:{ simpl. by rewrite lookup_insert_ne, lookup_insert_eq. }
  2:{ simpl. by rewrite lookup_insert_eq. }
  destruct m as [s bl ob sp wp up t]. simpl in *. unfold ret, set_weak_ptrs.
  simpl. apply Ret_weak_ptrs_ext, map_eq. intros i.
  destruct (decide (i = tmp)) as [Hi|Hi], (decide (i = this)) as [Hj|Hj];
    by simplify_map_eq.
Qed.

Lemma weak_ptr_use_count_spec (m : memory) (this cb : positive)
    (v : weak_ptr) (b : control_block_base) :
  weak_ptrs m !! this = Some v → wp_ctrl_block_ v = Some cb →
  blocks m !! cb = Some b →
  weak_ptr_use_count this m = Ret (to_long (shared_count_ b)) m.
Proof.
  intros Hv Hc Hb. unfold weak_ptr_use_count, read_weak, cb_use_count, shared_load.
  unfold bind, ret. by rewrite Hv, Hc, (get_block_some _ _ _ Hb).
Qed.

Lemma weak_ptr_use_count_empty (m : memory) (this : positive) (v : weak_ptr) :
  weak_ptrs m !! this = Some v → wp_ctrl_block_ v = None →
  weak_ptr_use_count this m = Ret 0 m.
Proof.
  intros Hv Hc. unfold weak_ptr_use_count, read_weak.
  unfold bind, ret. by rewrite Hv, Hc.
Qed.

(** ** Sequences of calls on one control block *)

Lemma cb_inv_step (cb : positive) (t0 : list event) (op : cb_op) (rest : list cb_op)
    (sh wk : nat) (m : memory) :
  cb_inv cb t0 sh wk m → owned sh wk (op :: rest) = true →
  ∃ (m' : memory) (sh' wk' : nat),
    run_op cb op m = Ret tt m' ∧ cb_inv cb t0 sh' wk' m' ∧ owned sh' wk' rest = true.
Proof.
  intros (evs & Ht & Hsh & Hwk & Hcase) Hown.
  destruct op; cbn [owned] in Hown; cbn [run_op].
  - (* add_strong *)
    apply andb_prop in Hown as [Hown Hrest]. apply andb_prop in Hown as [Hpos Hfit].
    apply Nat.ltb_lt in Hpos. apply Z.ltb_lt in Hfit.
    destruct sh as [|n]; [lia|]. destruct Hcase as [(b & Hb & Hs & Hw) Hl].
    eexists _, (S (S n)), wk. split; [by apply add_shared_ref_spec|]. split; [|done].
    exists evs. split; [done|]. split; [lia|]. split; [done|].
    split; [|done]. eexists. split; [apply lookup_set_blocks_insert|].
    simpl. rewrite Hs. split; [apply of_nat_S_wrap; lia | done].
  - (* release_strong *)
    apply andb_prop in Hown as [Hpos Hrest]. apply Nat.ltb_lt in Hpos.
    destruct sh as [|n]; [lia|]. destruct Hcase as [(b & Hb & Hs & Hw) Hl].
    cbn [pred] in Hrest. destruct n as [|n].
    + (* the last strong reference *)
      rewrite (release_shared_last m cb b Hb Hs).
      destruct (dispose_effect _ cb _ (lookup_set_blocks_insert m cb (with_shared 0 b)))
        as (m2 & d & evs' & Hd & Hb2 & Ht2 & Hl2).
      rewrite (bind_Ret _ _ _ _ _ Hd).
      assert (Hb2' : blocks m2 !! cb = Some (with_derived d (with_shared 0 b)))
        by (rewrite Hb2; apply lookup_insert_eq).
      simpl in Ht2.
      destruct wk as [|k].
      * rewrite (release_weak_last m2 cb _ Hb2'); [|simpl; lia].
        eexists _, O, O. split; [reflexivity|]. split; [|done].
        exists (evs ++ EvDispose cb :: evs' ++ [EvDestroy cb]).
        split. { simpl. rewrite Ht2, Ht. by rewrite <- !app_assoc. }
        split; [done|]. split; [done|]. split.
        { simpl. apply lookup_delete_eq. }
        rewrite lifetime_events_app, Hl, lifetime_events_cons_dispose.
        by rewrite lifetime_events_snoc_destroy, Hl2.
      * rewrite (release_weak_keep m2 cb _ Hb2'); [|simpl; lia].
        eexists _, O, (S k). split; [reflexivity|]. split; [|done].
        exists (evs ++ EvDispose cb :: evs').
        split. { simpl. rewrite Ht2, Ht. by rewrite <- !app_assoc. }
        split; [done|]. split; [done|]. split.
        { eexists. split; [apply lookup_set_blocks_insert|]. simpl.
          split; [done|]. rewrite Hw. rewrite wrap_small; lia. }
        by rewrite lifetime_events_app, Hl, lifetime_events_cons_dispose, Hl2.
    + rewrite (release_shared_keep m cb b Hb); [|lia].
      eexists _, (S n), wk. split; [reflexivity|]. split; [|done].
      exists evs. split; [done|]. split; [lia|]. split; [done|].
      split; [|done]. eexists. split; [apply lookup_set_blocks_insert|].
      simpl. rewrite Hs. split; [apply of_nat_pred_wrap; lia | done].
  - (* add_weak *)
    apply andb_prop in Hown as [Hown Hrest]. apply andb_prop in Hown as [Hpos Hfit].
    apply Nat.ltb_lt in Hpos. apply Z.ltb_lt in Hfit.
    destruct sh as [|n].
    + destruct wk as [|k]; [lia|]. destruct Hcase as [(b & Hb & Hs & Hw) Hl].
      eexists _, O, (S (S k)). split; [by apply add_weak_ref_spec|]. split; [|done].
      exists evs. split; [done|]. split; [done|]. split; [lia|].
      split; [|done]. eexists. split; [apply lookup_set_blocks_insert|].
      simpl. split; [done|]. rewrite Hw. rewrite wrap_small; lia.
    + destruct Hcase as [(b & Hb & Hs & Hw) Hl].
      eexists _, (S n), (S wk). split; [by apply add_weak_ref_spec|]. split; [|done].
      exists evs. split; [done|]. split; [done|]. split; [lia|].
      split; [|done]. eexists. split; [apply lookup_set_blocks_insert|].
      simpl. split; [done|]. rewrite Hw. rewrite wrap_small; lia.
  - (* release_weak *)
    apply andb_prop in Hown as [Hpos Hrest]. apply Nat.ltb_lt in Hpos.
    destruct wk as [|k]; [lia|]. cbn [pred] in Hrest.
    destruct sh as [|n].
    + destruct Hcase as [(b & Hb & Hs & Hw) Hl]. destruct k as [|k].
      * rewrite (release_weak_last m cb b Hb); [|lia].
        eexists _, O, O. split; [reflexivity|]. split; [|done].
        exists (evs ++ [EvDestroy cb]).
        split. { simpl. rewrite Ht. by rewrite <- !app_assoc. }
        split; [done|]. split; [done|]. split.
        { simpl. apply lookup_delete_eq. }
        by rewrite lifetime_events_snoc_destroy, Hl.
      * rewrite (release_weak_keep m cb b Hb); [|lia].
        eexists _, O, (S k). split; [reflexivity|]. split; [|done].
        exists evs. split; [done|]. split; [done|]. split; [lia|].
        split; [|done]. eexists. split; [apply lookup_set_blocks_insert|].
        simpl. split; [done|]. rewrite Hw. rewrite wrap_small; lia.
    + destruct Hcase as [(b & Hb & Hs & Hw) Hl].
      rewrite (release_weak_keep m cb b Hb); [|lia].
      eexists _, (S n), k. split; [reflexivity|]. split; [|done].
      exists evs. split; [done|]. split; [done|]. split; [lia|].
      split; [|done]. eexists. split; [apply lookup_set_blocks_insert|].
      simpl. split; [done|]. rewrite Hw. rewrite wrap_small; lia.
  - (* try_add_strong *)
    apply andb_prop in Hown as [Hpos Hrest]. apply Nat.ltb_lt in Hpos.
    destruct sh as [|n].
    + destruct wk as [|k]; [lia|]. destruct Hcase as [(b & Hb & Hs & Hw) Hl].
      cbn in Hrest.
      exists m, O, (S k). split.
      { rewrite (bind_Ret _ _ m m false); [done|].
        rewrite (try_add_shared_ref_quiet m cb b _ Hb (contended_values_spurious _)).
        by rewrite Hs. }
      split; [|done]. exists evs. do 3 (split; [done|]). split; [|done]. by exists b.
    + destruct Hcase as [(b & Hb & Hs & Hw) Hl]. cbn in Hrest.
      apply andb_prop in Hrest as [Hfit Hrest]. apply Z.ltb_lt in Hfit.
      eexists _, (S (S n)), wk. split.
      { erewrite bind_Ret; [reflexivity|].
        rewrite (try_add_shared_ref_quiet m cb b _ Hb (contended_values_spurious _)).
        destruct (Z.eqb_spec (shared_count_ b) 0) as [Hz|Hz]; [lia|]. reflexivity. }
      split; [|done].
      exists evs. split; [done|]. split; [lia|]. split; [done|].
      split; [|done]. eexists. split; [apply lookup_set_blocks_insert|].
      simpl. rewrite Hs. split; [apply of_nat_S_wrap; lia | done].
Qed.

Lemma cb_inv_run (cb : positive) (t0 : list event) (ops : list cb_op) :
  ∀ (sh wk : nat) (m : memory),
    cb_inv cb t0 sh wk m → owned sh wk ops = true →
    ∃ (m' : memory) (sh' wk' : nat),
      run_ops cb ops m = Ret tt m' ∧ cb_inv cb t0 sh' wk' m'.
Proof.
  induction ops as [|op rest IH]; intros sh wk m Hinv Hown.
  - by exists m, sh, wk.
  - destruct (cb_inv_step cb t0 op rest sh wk m Hinv Hown)
      as (m1 & sh1 & wk1 & Hrun & Hinv1 & Hown1).
    destruct (IH sh1 wk1 m1 Hinv1 Hown1) as (m2 & sh2 & wk2 & Hrun2 & Hinv2).
    exists m2, sh2, wk2. split; [|done].
    cbn [run_ops]. by rewrite (bind_Ret _ _ _ _ _ Hrun).
Qed.

Lemma count_event_lifetime (cb : positive) (e : event) (evs : list event) :
  e = EvDispose cb ∨ e = EvDestroy cb →
  count_event e evs = count_event e (lifetime_events cb evs).
Proof.
  intros He. unfold count_event, lifetime_events.
  induction evs as [|x evs IH]; [done|].
  destruct (decide (x = EvDispose cb ∨ x = EvDestroy cb)) as [Hx|Hx].
  - rewrite (filter_cons_True (λ e0, e0 = EvDispose cb ∨ e0 = EvDestroy cb) _ _ Hx).
    destruct (decide (x = e)) as [Hxe|Hxe].
    + rewrite !(filter_cons_True (λ e', e' = e) _ _ Hxe). simpl. by f_equal.
    + by rewrite !(filter_cons_False (λ e', e' = e) _ _ Hxe).
  - rewrite (filter_cons_False (λ e0, e0 = EvDispose cb ∨ e0 = EvDestroy cb) _ _ Hx).
    rewrite filter_cons_False; [done|]. intros ->. by apply Hx.
Qed.

Lemma lifetime_shape_facts (cb : positive) (evs : list event) :
  lifetime_events cb evs = [] ∨
  lifetime_events cb evs = [EvDispose cb] ∨
  lifetime_events cb evs = [EvDispose cb; EvDestroy cb] →
  (count_event (EvDispose cb) evs ≤ 1)%nat ∧
  (count_event (EvDestroy cb) evs ≤ 1)%nat ∧
  (∀ pre post, evs = pre ++ EvDestroy cb :: post → In (EvDispose cb) pre).
Proof.
  intros Hshape. split; [|split].
  - rewrite (count_event_lifetime cb); [|by left].
    destruct Hshape as [->|[->| ->]]; unfold count_event;
      rewrite ?filter_cons, ?filter_nil; repeat case_decide; simpl; lia || congruence.
  - rewrite (count_event_lifetime cb); [|by right].
    destruct Hshape as [->|[->| ->]]; unfold count_event;
      rewrite ?filter_cons, ?filter_nil; repeat case_decide; simpl; lia || congruence.
  - intros pre post ->.
    rewrite lifetime_events_app in Hshape.
    assert (Hd : lifetime_events cb (EvDestroy cb :: post)
                 = EvDestroy cb :: lifetime_events cb post).
    { unfold lifetime_events. rewrite filter_cons_True; [done|]. by right. }
    rewrite Hd in Hshape.
    destruct (lifetime_events cb pre) as [|x l] eqn:Hpre.
    + simpl in Hshape. destruct Hshape as [H|[H|H]]; discriminate.
    + assert (Hx : x = EvDispose cb).
      { simpl in Hshape. destruct Hshape as [H|[H|H]]; [discriminate| |]; by inversion H. }
      apply list_elem_of_In.
      assert (Hin : x ∈ lifetime_events cb pre) by (rewrite Hpre; left).
      unfold lifetime_events in Hin. apply list_elem_of_filter in Hin as [_ Hin].
      by rewrite <- Hx.
Qed.

Lemma cb_inv_shape (cb : positive) (t0 : list event) (sh wk : nat) (m : memory) :
  cb_inv cb t0 sh wk m →
  ∃ evs, trace m = t0 ++ evs ∧
         (lifetime_events cb evs = [] ∨
          lifetime_events cb evs = [EvDispose cb] ∨
          lifetime_events cb evs = [EvDispose cb; EvDestroy cb]).
Proof.
  intros (evs & Ht & _ & _ & Hcase). exists evs. split; [done|].
  destruct sh as [|n]; [destruct wk as [|k]|]; destruct Hcase as [_ Hl]; auto.
Qed.

(** C1, as the code has it. A block is constructed with both counts at one;
    the calls that follow are made by holders of references ([owned]: no
    release without an earlier acquisition, [add_strong] only by a strong
    holder, [add_weak] and [try_add_strong] only by a strong or weak holder,
    the outstanding references fit a [size_t]). Then every call returns; a
    [release_shared] that reads one stores zero, calls [dispose()] and then
    [release_weak()]; and among the calls recorded, [dispose()] on the block
    occurs at most once, [destroy()] at most once, and [destroy()] only
    after [dispose()]. *)
Theorem control_block_lifetime
    (m : memory) (cb : positive) (v : cb_variant) (ops : list cb_op) :
  owned 1 0 ops = true →
  (∀ (m1 : memory) (b : control_block_base),
      blocks m1 !! cb = Some b → shared_count_ b = 1 →
      release_shared cb m1 =
        (dispose cb >> release_weak cb)
          (set_blocks (insert cb (with_shared 0 b)) m1)) ∧
  ∃ (m' : memory) (evs : list event),
    (construct_block cb v >> run_ops cb ops) m = Ret tt m' ∧
    trace m' = trace m ++ evs ∧
    (count_event (EvDispose cb) evs ≤ 1)%nat ∧
    (count_event (EvDestroy cb) evs ≤ 1)%nat ∧
    (∀ pre post, evs = pre ++ EvDestroy cb :: post → In (EvDispose cb) pre).
Proof.
  intros Hown. split; [intros m1 b; apply release_shared_last|].
  assert (Hinv : cb_inv cb (trace m) 1 0 (set_blocks (insert cb (mk_cb 1 1 v)) m)).
  { exists []. split; [simpl; by rewrite app_nil_r|].
    split; [reflexivity|]. split; [reflexivity|]. split; [|done].
    eexists. split; [apply lookup_set_blocks_insert|]. done. }
  destruct (cb_inv_run cb (trace m) ops 1 0 _ Hinv Hown) as (m' & sh' & wk' & Hrun & Hinv').
  destruct (cb_inv_shape _ _ _ _ _ Hinv') as (evs & Ht & Hshape).
  exists m', evs. split; [exact Hrun|]. split; [exact Ht|].
  by apply lifetime_shape_facts.
Qed.

Lemma control_block_lifetime_witness :
  owned 1 0 [add_weak; add_strong; try_add_strong 2; release_strong;
             release_strong; release_strong; release_weak_op] = true ∧
  ∃ (m' : memory) (evs : list event),
    (construct_block 1 inline_control_block >>
     run_ops 1 [add_weak; add_strong; try_add_strong 2; release_strong;
                release_strong; release_strong; release_weak_op]) empty_memory
      = Ret tt m' ∧
    trace m' = trace empty_memory ++ evs ∧
    (count_event (EvDispose 1) evs ≤ 1)%nat ∧
    (count_event (EvDestroy 1) evs ≤ 1)%nat ∧
    (∀ pre post, evs = pre ++ EvDestroy 1 :: post → In (EvDispose 1) pre).
Proof.
  split; [reflexivity|].
  apply (control_block_lifetime empty_memory 1 inline_control_block
           [add_weak; add_strong; try_add_strong 2; release_strong;
            release_strong; release_strong; release_weak_op]).
  reflexivity.
Defined.

(** C1, as written, fails: releases never outnumber the acquisitions before
    them in [add_weak; release_strong; add_strong; release_strong], yet
    [dispose()] is called twice, because [add_shared_ref] increments a count
    of zero. Nor does that condition keep calls off a block that has
    destroyed itself: in [release_strong; add_weak; release_weak_op] the
    second call is made on freed memory. *)
Lemma control_block_dispose_twice :
  balanced 1 0 [add_weak; release_strong; add_strong; release_strong] = true ∧
  (∃ m' : memory,
    (construct_block 1 inline_control_block >>
     run_ops 1 [add_weak; release_strong; add_strong; release_strong]) empty_memory
      = Ret tt m' ∧
    trace m' = [EvDispose 1; EvDestructInPlace 1;
                EvDispose 1; EvDestructInPlace 1; EvDestroy 1] ∧
    count_event (EvDispose 1) (trace m') = 2%nat) ∧
  balanced 1 0 [release_strong; add_weak; release_weak_op] = true ∧
  (construct_block 1 inline_control_block >>
   run_ops 1 [release_strong; add_weak; release_weak_op]) empty_memory = Undefined.
Proof.
  split; [reflexivity|]. split.
  - eexists. split; [vm_compute; reflexivity|]. split; reflexivity.
  - split; [reflexivity | vm_compute; reflexivity].
Qed.

(** ** try_add_shared_ref *)

(** The call reads the count once and then runs the loop on it. *)
Lemma try_add_shared_ref_unfold
    (m : memory) (cb : positive) (b : control_block_base) (oracle : list cas_env) :
  blocks m !! cb = Some b →
  try_add_shared_ref cb oracle m =
    try_add_loop (S (length oracle)) cb oracle (shared_count_ b) m.
Proof.
  intros Hb. unfold try_add_shared_ref, shared_load.
  rewrite (bind_Ret _ _ m m (shared_count_ b)); [done|].
  by rewrite (bind_Ret _ _ _ _ _ (get_block_some _ _ _ Hb)).
Qed.

(** A count of zero: no exchange is attempted, whatever other threads do. *)
Lemma try_add_shared_ref_zero
    (m : memory) (cb : positive) (b : control_block_base) (oracle : list cas_env) :
  blocks m !! cb = Some b → shared_count_ b = 0 →
  try_add_shared_ref cb oracle m = Ret false m.
Proof.
  intros Hb Hz. rewrite (try_add_shared_ref_unfold m cb b oracle Hb).
  rewrite try_add_loop_S, Hz. reflexivity.
Qed.

(** An undisturbed exchange on a count other than zero commits. *)
Lemma try_add_shared_ref_commit
    (m : memory) (cb : positive) (b : control_block_base) (oracle : list cas_env) :
  blocks m !! cb = Some b → shared_count_ b ≠ 0 → hd Quiet oracle = Quiet →
  try_add_shared_ref cb oracle m =
    Ret true (set_blocks (insert cb (with_shared (wrap (shared_count_ b + 1)) b)) m).
Proof.
  intros Hb Hc Hq. rewrite (try_add_shared_ref_unfold m cb b oracle Hb).
  rewrite try_add_loop_S, Hq. apply Z.eqb_neq in Hc. rewrite Hc.
  by rewrite (bind_Ret _ _ _ _ _ (compare_exchange_weak_quiet _ _ _ _ Hb)).
Qed.

(** A spurious failure changes nothing: the loop goes round once more. *)
Lemma try_add_shared_ref_spurious
    (m : memory) (cb : positive) (b : control_block_base) (oracle : list cas_env) :
  blocks m !! cb = Some b →
  try_add_shared_ref cb (Spurious :: oracle) m = try_add_shared_ref cb oracle m.
Proof.
  intros Hb.
  rewrite (try_add_shared_ref_unfold m cb b (Spurious :: oracle) Hb).
  rewrite (try_add_shared_ref_unfold m cb b oracle Hb).
  cbn [length]. rewrite (try_add_loop_S (S (length oracle))).
  destruct (shared_count_ b =? 0) eqn:Hc.
  - by rewrite try_add_loop_S, Hc.
  - cbn [hd tl].
    by rewrite (bind_Ret _ _ _ _ _ (compare_exchange_weak_spurious _ _ _ _ _ Hb)).
Qed.

(** Another thread stores [v] between the read and the exchange: the
    exchange compares with [v]. *)
Lemma try_add_shared_ref_contended
    (m : memory) (cb : positive) (b : control_block_base) (oracle : list cas_env)
    (v : Z) :
  blocks m !! cb = Some b → shared_count_ b ≠ 0 →
  try_add_shared_ref cb (Contended v :: oracle) m =
    if wrap v =? shared_count_ b
    then Ret true
           (set_blocks (insert cb (with_shared (wrap (shared_count_ b + 1)) b)) m)
    else try_add_shared_ref cb oracle
           (set_blocks (insert cb (with_shared (wrap v) b)) m).
Proof.
  intros Hb Hc.
  rewrite (try_add_shared_ref_unfold m cb b (Contended v :: oracle) Hb).
  cbn [length]. rewrite (try_add_loop_S (S (length oracle))).
  apply Z.eqb_neq in Hc. rewrite Hc. cbn [hd tl].
  pose proof (compare_exchange_weak_contended
                m cb b (shared_count_ b) (wrap (shared_count_ b + 1)) v Hb) as Hcas.
  destruct (wrap v =? shared_count_ b);
    rewrite (bind_Ret _ _ _ _ _ Hcas); [done|]. cbn [fst snd].
  by rewrite (try_add_shared_ref_unfold _ cb _ oracle
                (lookup_set_blocks_insert m cb (with_shared (wrap v) b))).
Qed.

(** C2. On a live control block [try_add_shared_ref] always returns. The
    count it acts on, [observed], is the count of the block or, under
    contention, a value another thread stored; without contention it is the
    count of the block. The call returns [false] exactly when [observed] is
    zero, and then leaves a count of zero (the memory untouched when no
    other thread stored); it returns [true] exactly when [observed] is not
    zero, and then the exchange has stored [observed + 1] in [size_t]
    arithmetic, which is [observed + 1] below [SIZE_MAX].

    The increment is made by the exchange and by nothing else, so [observed]
    is the count the block holds at the moment of the store. On a count of
    zero the call returns [false] with the memory untouched whatever other
    threads do. On a count [c] other than zero: an undisturbed exchange
    stores [c + 1] over [c]; after a spurious failure the call goes on as if
    that exchange had not been attempted; and when another thread stores [v]
    between the read and the exchange, the exchange compares with [v], so
    that it stores [c + 1] only if [v] is [c] again, and otherwise stores
    nothing and the call goes on as a call on the block holding [v]. In
    particular a zero stored by another thread after the read is left in
    place and [false] returned: a count of zero is never replaced by one. *)
Theorem try_add_shared_ref_correct
    (m : memory) (cb : positive) (b : control_block_base) (oracle : list cas_env)
    (v : Z) :
  blocks m !! cb = Some b →
  (∃ observed : Z,
    In observed (shared_count_ b :: contended_values oracle) ∧
    (contended_values oracle = [] → observed = shared_count_ b) ∧
    try_add_shared_ref cb oracle m =
      Ret (negb (observed =? 0))
          (set_blocks
             (insert cb (with_shared (if observed =? 0 then 0
                                      else wrap (observed + 1)) b)) m) ∧
    (contended_values oracle = [] → observed = 0 →
     try_add_shared_ref cb oracle m = Ret false m) ∧
    (0 ≤ observed < size_t_modulus - 1 → wrap (observed + 1) = observed + 1)) ∧
  (shared_count_ b = 0 → try_add_shared_ref cb oracle m = Ret false m) ∧
  (shared_count_ b ≠ 0 →
   try_add_shared_ref cb [] m =
     Ret true (set_blocks (insert cb (with_shared (wrap (shared_count_ b + 1)) b)) m) ∧
   try_add_shared_ref cb (Quiet :: oracle) m =
     Ret true (set_blocks (insert cb (with_shared (wrap (shared_count_ b + 1)) b)) m)) ∧
  try_add_shared_ref cb (Spurious :: oracle) m = try_add_shared_ref cb oracle m ∧
  (shared_count_ b ≠ 0 →
   try_add_shared_ref cb (Contended v :: oracle) m =
     if wrap v =? shared_count_ b
     then Ret true
            (set_blocks (insert cb (with_shared (wrap (shared_count_ b + 1)) b)) m)
     else try_add_shared_ref cb oracle
            (set_blocks (insert cb (with_shared (wrap v) b)) m)) ∧
  (shared_count_ b ≠ 0 → wrap v = 0 →
   try_add_shared_ref cb (Contended v :: oracle) m =
     Ret false (set_blocks (insert cb (with_shared 0 b)) m)).
Proof.
  intros Hb. split_and!.
  - destruct (try_add_shared_ref_spec m cb b oracle Hb) as (obs & Hin & Hq & Hrun).
    exists obs. split; [done|]. split; [done|]. split; [done|]. split.
    + intros Hquiet Hz. rewrite (try_add_shared_ref_quiet m cb b oracle Hb Hquiet).
      rewrite <- (Hq Hquiet), Hz. reflexivity.
    + intros Hr. apply wrap_small. lia.
  - intros Hz. by apply (try_add_shared_ref_zero m cb b).
  - intros Hc. split; by apply try_add_shared_ref_commit.
  - by apply (try_add_shared_ref_spurious m cb b).
  - intros Hc. by apply try_add_shared_ref_contended.
  - intros Hc Hv.
    rewrite (try_add_shared_ref_contended m cb b oracle v Hb Hc), Hv.
    destruct (Z.eqb_spec 0 (shared_count_ b)) as [Heq|_]; [congruence|].
    by apply (try_add_shared_ref_zero _ cb (with_shared 0 b));
      [apply lookup_set_blocks_insert|].
Qed.

Lemma try_add_shared_ref_correct_witness :
  blocks one_shared !! 1%positive
    = Some (mk_cb 1 1 (separate_control_block 100 default_delete)) ∧
  try_add_shared_ref 1 [Contended 0] one_shared =
    Ret false
        (set_blocks
           (insert 1%positive (mk_cb 0 1 (separate_control_block 100 default_delete)))
           one_shared) ∧
  try_add_shared_ref 1 [Spurious; Contended 1] one_shared =
    try_add_shared_ref 1 [Contended 1] one_shared ∧
  try_add_shared_ref 1 [Contended 1] one_shared =
    Ret true
        (set_blocks
           (insert 1%positive (mk_cb 2 1 (separate_control_block 100 default_delete)))
           one_shared) ∧
  try_add_shared_ref 1 [] one_shared =
    Ret true
        (set_blocks
           (insert 1%positive (mk_cb 2 1 (separate_control_block 100 default_delete)))
           one_shared).
Proof.
  assert (Hb : blocks one_shared !! 1%positive
               = Some (mk_cb 1 1 (separate_control_block 100 default_delete)))
    by reflexivity.
  assert (Hc : shared_count_ (mk_cb 1 1 (separate_control_block 100 default_delete)) ≠ 0)
    by discriminate.
  destruct (try_add_shared_ref_correct one_shared 1 _ [] 0 Hb)
    as (_ & _ & Hcommit & _ & _ & Hzero).
  destruct (try_add_shared_ref_correct one_shared 1 _ [Contended 1] 1 Hb)
    as (_ & _ & _ & Hspurious & _ & _).
  destruct (try_add_shared_ref_correct one_shared 1 _ [] 1 Hb)
    as (_ & _ & _ & _ & Hsame & _).
  split; [exact Hb|]. split; [exact (Hzero Hc eq_refl)|].
  split; [exact Hspurious|]. split; [exact (Hsame Hc)|].
  exact (proj1 (Hcommit Hc)).
Defined.

(** ** use_count under copies *)

Lemma to_long_small (z : Z) : 0 ≤ z < 2 ^ 63 → to_long z = z.
Proof. intros H. unfold to_long. destruct (Z.ltb_spec z (2 ^ 63)); [done|lia]. Qed.

Lemma size_t_modulus_eq : size_t_modulus = 2 * 2 ^ 63.
Proof. reflexivity. Qed.

(** [n] copies raise the count by [n] and hold what the source holds;
    nothing else changes. *)
Lemma copies_spec (s cb : positive) (o : shared_ptr) (dsts : list positive) :
  ∀ (m : memory) (b : control_block_base),
    shared_ptrs m !! s = Some o → sp_ctrl_block_ o = Some cb →
    blocks m !! cb = Some b →
    0 ≤ shared_count_ b →
    shared_count_ b + Z.of_nat (length dsts) < size_t_modulus →
    NoDup dsts → (∀ d, d ∈ dsts → shared_ptrs m !! d = None) →
    ∃ m' : memory,
      copies s dsts m = Ret tt m' ∧
      blocks m' =
        <[cb := with_shared (shared_count_ b + Z.of_nat (length dsts)) b]> (blocks m) ∧
      (∀ h, h ∈ dsts → shared_ptrs m' !! h = Some o) ∧
      (∀ h, h ∉ dsts → shared_ptrs m' !! h = shared_ptrs m !! h) ∧
      weak_ptrs m' = weak_ptrs m ∧ trace m' = trace m.
Proof.
  induction dsts as [|d rest IH]; intros m b Hs Hc Hb Hpos Hfit Hnd Hfresh.
  - exists m. split; [done|]. simpl. rewrite Z.add_0_r, with_shared_id.
    split; [symmetry; by apply insert_id|]. split; [|done].
    intros h Hh. by apply elem_of_nil in Hh.
  - apply NoDup_cons in Hnd as [Hd Hnd]. cbn [length] in Hfit.
    assert (Hdn : shared_ptrs m !! d = None) by (apply Hfresh; left).
    assert (Hsd : s ≠ d) by (intros ->; congruence).
    cbn [copies].
    pose proof (shared_ptr_copy_ctor_spec m d s o Hs Hdn) as Hcopy.
    rewrite Hc in Hcopy. cbn [add_shared_ref_if] in Hcopy.
    rewrite (add_shared_ref_spec m cb b Hb) in Hcopy. cbn [outcome_map] in Hcopy.
    rewrite (bind_Ret _ _ _ _ _ Hcopy).
    rewrite (wrap_small (shared_count_ b + 1)) by lia.
    set (b1 := with_shared (shared_count_ b + 1) b).
    set (m1 := set_shared_ptrs (insert d o) (set_blocks (insert cb b1) m)).
    destruct (IH m1 b1) as (m' & Hrun & Hbl & Hin & Hout & Hwp & Htr).
    + simpl. by rewrite lookup_insert_ne.
    + done.
    + simpl. apply lookup_insert_eq.
    + simpl. lia.
    + simpl. lia.
    + done.
    + intros h Hh. simpl. rewrite lookup_insert_ne; [apply Hfresh; by right|].
      intros ->. done.
    + exists m'. split; [exact Hrun|]. split; [|split; [|split; [|done]]].
      * rewrite Hbl. simpl. rewrite insert_insert_eq. f_equal.
        unfold b1, with_shared. simpl. f_equal. lia.
      * intros h Hh. apply elem_of_cons in Hh as [->|Hh]; [|by apply Hin].
        rewrite (Hout d Hd). simpl. apply lookup_insert_eq.
      * intros h Hh. apply not_elem_of_cons in Hh as [Hhd Hh].
        rewrite (Hout h Hh). simpl. by rewrite lookup_insert_ne.
Qed.

(** Releasing one of at least two strong references decrements and does
    nothing else. *)
Lemma release_shared_not_last (m : memory) (cb : positive) (b : control_block_base) :
  blocks m !! cb = Some b → 2 ≤ shared_count_ b < size_t_modulus →
  release_shared cb m =
    Ret tt (set_blocks (insert cb (with_shared (shared_count_ b - 1) b)) m).
Proof.
  intros Hb Hc. rewrite (release_shared_keep m cb b Hb) by lia.
  by rewrite wrap_small by lia.
Qed.

(** What [use_count()] returns before and after [n] copies, and after one
    of the copies is destroyed or reset. *)
Lemma use_count_copies
    (m : memory) (s cb : positive) (o : shared_ptr) (b : control_block_base)
    (dsts : list positive) :
  shared_ptrs m !! s = Some o → sp_ctrl_block_ o = Some cb →
  blocks m !! cb = Some b →
  1 ≤ shared_count_ b →
  shared_count_ b + Z.of_nat (length dsts) < 2 ^ 63 →
  NoDup dsts → (∀ d, d ∈ dsts → shared_ptrs m !! d = None) →
  shared_ptr_use_count s m = Ret (shared_count_ b) m ∧
  ∃ m' : memory,
    copies s dsts m = Ret tt m' ∧
    (∀ h, h ∈ s :: dsts →
       shared_ptr_use_count h m' =
         Ret (shared_count_ b + Z.of_nat (length dsts)) m') ∧
    (∀ d h, d ∈ dsts → h ∈ s :: dsts → h ≠ d →
       (∃ m'', shared_ptr_dtor d m' = Ret tt m'' ∧
               shared_ptr_use_count h m'' =
                 Ret (shared_count_ b + Z.of_nat (length dsts) - 1) m'') ∧
       (∃ m'', shared_ptr_reset d m' = Ret tt m'' ∧
               shared_ptr_use_count h m'' =
                 Ret (shared_count_ b + Z.of_nat (length dsts) - 1) m'' ∧
               shared_ptr_use_count d m'' = Ret 0 m'')).
Proof.
  intros Hs Hc Hb Hpos Hfit Hnd Hfresh.
  pose proof size_t_modulus_eq as Hmod.
  set (c := shared_count_ b) in *. set (n := Z.of_nat (length dsts)) in *.
  assert (Hn : 0 ≤ n) by (unfold n; lia).
  split.
  { rewrite (shared_ptr_use_count_spec m s cb o b Hs Hc Hb). fold c.
    by rewrite to_long_small by lia. }
  destruct (copies_spec s cb o dsts m b Hs Hc Hb) as (m' & Hrun & Hbl & Hin & Hout & _);
    [fold c; lia | fold c n; lia | done | done |].
  fold c n in Hbl.
  assert (Hsd : s ∉ dsts).
  { intros Hin'. specialize (Hfresh s Hin'). congruence. }
  assert (Hhold : ∀ h, h ∈ s :: dsts → shared_ptrs m' !! h = Some o).
  { intros h Hh. apply elem_of_cons in Hh as [->|Hh]; [|by apply Hin].
    by rewrite (Hout s Hsd). }
  assert (Hb' : blocks m' !! cb = Some (with_shared (c + n) b))
    by (rewrite Hbl; apply lookup_insert_eq).
  exists m'. split; [exact Hrun|]. split.
  { intros h Hh. rewrite (shared_ptr_use_count_spec m' h cb o _ (Hhold h Hh) Hc Hb').
    simpl. by rewrite to_long_small by lia. }
  intros d h Hd Hh Hne.
  assert (Hn1 : 1 ≤ n).
  { unfold n. destruct dsts; [by apply elem_of_nil in Hd | simpl; lia]. }
  assert (Hd' : shared_ptrs m' !! d = Some o) by (apply Hhold; by right).
  assert (Hrel : release_shared_if (sp_ctrl_block_ o) m' =
                 Ret tt (set_blocks (insert cb (with_shared (c + n - 1) b)) m')).
  { rewrite Hc. cbn [release_shared_if].
    rewrite (release_shared_not_last m' cb _ Hb') by (simpl; lia). done. }
  split.
  - eexists. split.
    { rewrite (shared_ptr_dtor_spec m' d o Hd'), Hrel. reflexivity. }
    rewrite (shared_ptr_use_count_spec _ h cb o (with_shared (c + n - 1) b)).
    + simpl. by rewrite to_long_small by lia.
    + simpl. rewrite lookup_delete_ne by done. by apply Hhold.
    + done.
    + simpl. apply lookup_insert_eq.
  - eexists. split.
    { rewrite (shared_ptr_reset_spec m' d o Hd'), Hrel. reflexivity. }
    split.
    + rewrite (shared_ptr_use_count_spec _ h cb o (with_shared (c + n - 1) b)).
      * simpl. by rewrite to_long_small by lia.
      * simpl. rewrite lookup_insert_ne by done. by apply Hhold.
      * done.
      * simpl. apply lookup_insert_eq.
    + apply (shared_ptr_use_count_empty _ d (mk_shared 0 None)); [|done].
      simpl. apply lookup_insert_eq.
Qed.


(** [shared_ptr(U *ptr)] when the allocation succeeds: a new block with both
    counts at one, held by the new handle. *)
Lemma shared_ptr_ctor_raw_spec (m : memory) (s : positive) (p : Z) (d : deleter) :
  shared_ptrs m !! s = None →
  shared_ptr_ctor_raw s p d false m =
    Ret tt (set_shared_ptrs (insert s (mk_shared p (Some (fresh (storage m)))))
              (set_blocks (insert (fresh (storage m))
                             (mk_cb 1 1 (separate_control_block p d)))
                 (set_storage (fun st => {[fresh (storage m)]} ∪ st) m))).
Proof.
  intros Hs. unfold shared_ptr_ctor_raw, make_control_block, operator_new,
    construct_block, init_shared, bind, ret. simpl. by rewrite Hs.
Qed.

(** C3. Let [s] be a shared_ptr that holds a live block with strong count
    [c >= 1], and let [n] copies of it be constructed at the [n] distinct,
    unused places [dsts], with [c + n] representable as a [long]. Before
    the copies [s.use_count()] is [c]; after them [use_count()] is [c + n]
    through [s] and through every copy. Destroying one copy, or calling
    [reset()] on it, then makes [use_count()] through each of the other
    handles [c + n - 1] (and [0] through the copy that was reset). In
    particular a shared_ptr freshly made from a raw pointer and copied [n]
    times counts [n + 1] through every handle. *)
Theorem use_count_after_copies
    (m : memory) (s cb : positive) (o : shared_ptr) (b : control_block_base)
    (dsts : list positive) :
  shared_ptrs m !! s = Some o → sp_ctrl_block_ o = Some cb →
  blocks m !! cb = Some b →
  1 ≤ shared_count_ b →
  shared_count_ b + Z.of_nat (length dsts) < 2 ^ 63 →
  NoDup dsts → (∀ d, d ∈ dsts → shared_ptrs m !! d = None) →
  shared_ptr_use_count s m = Ret (shared_count_ b) m ∧
  (∃ m' : memory,
    copies s dsts m = Ret tt m' ∧
    (∀ h, h ∈ s :: dsts →
       shared_ptr_use_count h m' =
         Ret (shared_count_ b + Z.of_nat (length dsts)) m') ∧
    (∀ d h, d ∈ dsts → h ∈ s :: dsts → h ≠ d →
       (∃ m'', shared_ptr_dtor d m' = Ret tt m'' ∧
               shared_ptr_use_count h m'' =
                 Ret (shared_count_ b + Z.of_nat (length dsts) - 1) m'') ∧
       (∃ m'', shared_ptr_reset d m' = Ret tt m'' ∧
               shared_ptr_use_count h m'' =
                 Ret (shared_count_ b + Z.of_nat (length dsts) - 1) m'' ∧
               shared_ptr_use_count d m'' = Ret 0 m''))) ∧
  (∀ (m0 : memory) (s0 : positive) (p : Z) (dl : deleter),
     shared_ptrs m0 !! s0 = None → s0 ∉ dsts →
     (∀ d, d ∈ dsts → shared_ptrs m0 !! d = None) →
     1 + Z.of_nat (length dsts) < 2 ^ 63 →
     ∃ m1 : memory,
       (shared_ptr_ctor_raw s0 p dl false >> copies s0 dsts) m0 = Ret tt m1 ∧
       ∀ h, h ∈ s0 :: dsts →
         shared_ptr_use_count h m1 = Ret (Z.of_nat (length dsts) + 1) m1).
Proof.
  intros Hs Hc Hb Hpos Hfit Hnd Hfresh.
  destruct (use_count_copies m s cb o b dsts Hs Hc Hb Hpos Hfit Hnd Hfresh)
    as [Hbefore Hafter].
  split; [exact Hbefore|]. split; [exact Hafter|].
  intros m0 s0 p dl Hs0 Hnot Hfresh0 Hfit0.
  rewrite (bind_Ret _ _ _ _ _ (shared_ptr_ctor_raw_spec m0 s0 p dl Hs0)).
  set (a := fresh (storage m0)).
  set (m1 := set_shared_ptrs _ _).
  destruct (use_count_copies m1 s0 a (mk_shared p (Some a))
              (mk_cb 1 1 (separate_control_block p dl)) dsts)
    as [_ (m2 & Hrun & Hall & _)].
  - apply lookup_insert_eq.
  - done.
  - apply lookup_insert_eq.
  - simpl. lia.
  - simpl. lia.
  - done.
  - intros d Hd. unfold m1. simpl. rewrite lookup_insert_ne; [by apply Hfresh0|].
    intros ->. done.
  - exists m2. split; [exact Hrun|]. intros h Hh. rewrite (Hall h Hh).
    simpl. f_equal. lia.
Qed.

Lemma use_count_after_copies_witness :
  shared_ptr_use_count 1 one_shared = Ret 1 one_shared ∧
  ∃ m' : memory,
    copies 1 [2%positive; 3%positive] one_shared = Ret tt m' ∧
    (∀ h, h ∈ [1%positive; 2%positive; 3%positive] →
       shared_ptr_use_count h m' = Ret (1 + 2) m') ∧
    (∀ d h, d ∈ [2%positive; 3%positive] →
       h ∈ [1%positive; 2%positive; 3%positive] → h ≠ d →
       (∃ m'', shared_ptr_dtor d m' = Ret tt m'' ∧
               shared_ptr_use_count h m'' = Ret (1 + 2 - 1) m'') ∧
       (∃ m'', shared_ptr_reset d m' = Ret tt m'' ∧
               shared_ptr_use_count h m'' = Ret (1 + 2 - 1) m'' ∧
               shared_ptr_use_count d m'' = Ret 0 m'')).
Proof.
  assert (Hnd : NoDup [2%positive; 3%positive]).
  { apply NoDup_cons. split; [|apply NoDup_singleton].
    intros H. apply list_elem_of_singleton in H. discriminate. }
  assert (Hfresh : ∀ d, d ∈ [2%positive; 3%positive] → shared_ptrs one_shared !! d = None).
  { intros d Hd. apply elem_of_cons in Hd as [->|Hd]; [reflexivity|].
    apply list_elem_of_singleton in Hd as ->. reflexivity. }
  pose proof (use_count_after_copies one_shared 1 1 (mk_shared 100 (Some 1%positive))
                (mk_cb 1 1 (separate_control_block 100 default_delete))
                [2%positive; 3%positive]
                eq_refl eq_refl eq_refl) as H.
  destruct H as (H1 & H2 & _); [simpl; lia | simpl; lia | exact Hnd | exact Hfresh |].
  split; [exact H1 | exact H2].
Defined.

(** The scenario of the tests: a shared_ptr made from a raw pointer counts
    one; two copies make it three; destroying the copies makes it one;
    destroying the original disposes of the object once and frees the
    block. *)
Example use_count_scenario :
  (shared_ptr_ctor_raw 1 100 default_delete false >>
   let* c1 := shared_ptr_use_count 1 in
   copies 1 [2%positive; 3%positive] >>
   let* c3 := shared_ptr_use_count 1 in
   shared_ptr_dtor 2 >> shared_ptr_dtor 3 >>
   let* c1' := shared_ptr_use_count 1 in
   shared_ptr_dtor 1 >>
   ret (c1, c3, c1')) one_object
  = Ret (1, 3, 1)
        (set_trace (fun _ => [EvDispose 1; EvDelete 100; EvDestroy 1]) empty_memory).
Proof. vm_compute. reflexivity. Qed.

(** ** Moves *)

(** C4, as the code has it. Move construction of a shared_ptr or weak_ptr
    changes the two handles only: the new handle holds what the source
    held, the source is empty, and no counter of any block changes. Move
    assignment between two distinct objects acquires nothing; the only
    counter traffic is the one [release_shared] (for a weak_ptr,
    [release_weak]) of the block the target held before, none when the
    target was empty; afterwards the target holds what the source held and
    the source is empty. Move assignment of a handle to itself changes
    nothing, so the handle stays as it was. *)
Theorem move_effects
    (m : memory) (other wother : positive) (o : shared_ptr) (wo : weak_ptr) :
  shared_ptrs m !! other = Some o →
  weak_ptrs m !! wother = Some wo →
  (∀ dst, shared_ptrs m !! dst = None →
     shared_ptr_move_ctor dst other m =
       Ret tt (set_shared_ptrs
                 (fun sp => <[other := mk_shared 0 None]> (<[dst := o]> sp)) m)) ∧
  (∀ this v, this ≠ other → shared_ptrs m !! this = Some v →
     shared_ptr_move_assign this other m =
       outcome_map
         (set_shared_ptrs (fun sp => <[other := mk_shared 0 None]> (<[this := o]> sp)))
         (release_shared_if (sp_ctrl_block_ v) m) ∧
     (sp_ctrl_block_ v = None →
      shared_ptr_move_assign this other m =
        Ret tt (set_shared_ptrs
                  (fun sp => <[other := mk_shared 0 None]> (<[this := o]> sp)) m))) ∧
  shared_ptr_move_assign other other m = Ret tt m ∧
  (∀ dst, weak_ptrs m !! dst = None →
     weak_ptr_move_ctor dst wother m =
       Ret tt (set_weak_ptrs
                 (fun wp => <[wother := mk_weak 0 None]> (<[dst := wo]> wp)) m)) ∧
  (∀ this v, this ≠ wother → weak_ptrs m !! this = Some v →
     weak_ptr_move_assign this wother m =
       outcome_map
         (set_weak_ptrs (fun wp => <[wother := mk_weak 0 None]> (<[this := wo]> wp)))
         (release_weak_if (wp_ctrl_block_ v) m) ∧
     (wp_ctrl_block_ v = None →
      weak_ptr_move_assign this wother m =
        Ret tt (set_weak_ptrs
                  (fun wp => <[wother := mk_weak 0 None]> (<[this := wo]> wp)) m))) ∧
  weak_ptr_move_assign wother wother m = Ret tt m.
Proof.
  intros Ho Hwo. split_and!.
  - intros dst Hd. by apply shared_ptr_move_ctor_spec.
  - intros this v Hne Hv.
    pose proof (shared_ptr_move_assign_spec m this other v o Hne Hv Ho) as H.
    split; [exact H|]. intros Hc. by rewrite H, Hc.
  - by apply (shared_ptr_move_assign_self m other o).
  - intros dst Hd. by apply weak_ptr_move_ctor_spec.
  - intros this v Hne Hv.
    pose proof (weak_ptr_move_assign_spec m this wother v wo Hne Hv Hwo) as H.
    split; [exact H|]. intros Hc. by rewrite H, Hc.
  - by apply (weak_ptr_move_assign_self m wother wo).
Qed.

Lemma move_effects_witness :
  shared_ptr_move_assign 1 1
    (set_weak_ptrs (insert 1%positive (mk_weak 100 (Some 1%positive))) one_shared)
  = Ret tt
      (set_weak_ptrs (insert 1%positive (mk_weak 100 (Some 1%positive))) one_shared) ∧
  weak_ptr_move_assign 1 1
    (set_weak_ptrs (insert 1%positive (mk_weak 100 (Some 1%positive))) one_shared)
  = Ret tt
      (set_weak_ptrs (insert 1%positive (mk_weak 100 (Some 1%positive))) one_shared).
Proof.
  pose proof (move_effects
                (set_weak_ptrs (insert 1%positive (mk_weak 100 (Some 1%positive)))
                               one_shared)
                1 1 (mk_shared 100 (Some 1%positive)) (mk_weak 100 (Some 1%positive))
                eq_refl eq_refl) as H.
  split; [exact (proj1 (proj2 (proj2 H))) | exact (proj2 (proj2 (proj2 (proj2 (proj2 H)))))].
Defined.

(** C4, as written, fails twice. Move assignment onto a shared_ptr that
    holds a block releases that block: with the block of place 1 shared by
    place 3, [use_count()] through place 3 is 2 before [p1 = std::move(p2)]
    and 1 after it. And after [p1 = std::move(p1)] the source still holds
    its object: [get()] is not null. *)
Lemma move_assign_changes_count :
  (shared_ptr_ctor_raw 1 100 default_delete false >>
   shared_ptr_copy_ctor 3 1 >>
   shared_ptr_ctor_raw 2 200 default_delete false >>
   let* before := shared_ptr_use_count 3 in
   shared_ptr_move_assign 1 2 >>
   let* after := shared_ptr_use_count 3 in
   ret (before, after)) empty_memory
  = Ret (2, 1)
        (mk_memory {[ 1%positive; 2%positive ]}
           (<[2%positive := mk_cb 1 1 (separate_control_block 200 default_delete)]>
              (<[1%positive := mk_cb 1 1 (separate_control_block 100 default_delete)]> ∅))
           ∅
           (<[3%positive := mk_shared 100 (Some 1%positive)]>
              (<[2%positive := mk_shared 0 None]>
                 (<[1%positive := mk_shared 200 (Some 2%positive)]> ∅)))
           ∅ ∅ []) ∧
  (shared_ptr_ctor_raw 1 100 default_delete false >>
   shared_ptr_move_assign 1 1 >>
   shared_ptr_get 1) empty_memory
  = Ret 100 (set_storage (fun _ => {[ 1%positive ]})
               (set_objects (fun _ => ∅) one_shared)).
Proof. split; vm_compute; reflexivity. Qed.

(** ** From weak_ptr to shared_ptr *)

Lemma try_add_shared_ref_undefined (m : memory) (cb : positive) (oracle : list cas_env) :
  blocks m !! cb = None → try_add_shared_ref cb oracle m = Undefined.
Proof.
  intros Hb. unfold try_add_shared_ref, shared_load, get_block.
  unfold bind. by rewrite Hb.
Qed.

Lemma drop_init_shared (m : memory) (dst : positive) (s : shared_ptr) :
  shared_ptrs m !! dst = None →
  set_shared_ptrs (delete dst) (set_shared_ptrs (insert dst s) m) = m.
Proof.
  intros Hd. destruct m as [st bl ob sp wp up t]. unfold set_shared_ptrs.
  simpl in *. f_equal. rewrite delete_insert_eq. by apply delete_id.
Qed.

Lemma read_weak_some (m : memory) (w : positive) (v : weak_ptr) :
  weak_ptrs m !! w = Some v → read_weak w m = Ret v m.
Proof. intros H. unfold read_weak. by rewrite H. Qed.

Lemma init_shared_none (m : memory) (d : positive) (s : shared_ptr) :
  shared_ptrs m !! d = None →
  init_shared d s m = Ret tt (set_shared_ptrs (insert d s) m).
Proof. intros H. unfold init_shared. by rewrite H. Qed.

(** The constructor from a weak_ptr, by cases on what it meets, for any
    behaviour of the exchange. *)
Lemma shared_ptr_ctor_weak_cases
    (m : memory) (dst w : positive) (v : weak_ptr) (oracle : list cas_env) :
  weak_ptrs m !! w = Some v → shared_ptrs m !! dst = None →
  match wp_ctrl_block_ v with
  | None =>
      shared_ptr_ctor_weak dst w oracle m =
        Ret tt (set_shared_ptrs (insert dst (mk_shared (wp_ptr_ v) None)) m)
  | Some cb =>
      match blocks m !! cb with
      | None => shared_ptr_ctor_weak dst w oracle m = Undefined
      | Some b =>
          ∃ observed : Z,
            In observed (shared_count_ b :: contended_values oracle) ∧
            (contended_values oracle = [] → observed = shared_count_ b) ∧
            shared_ptr_ctor_weak dst w oracle m =
              if observed =? 0
              then Throw bad_weak_ptr
                     (set_blocks (insert cb (with_shared 0 b)) m)
              else Ret tt
                     (set_shared_ptrs (insert dst (mk_shared (wp_ptr_ v) (Some cb)))
                        (set_blocks
                           (insert cb (with_shared (wrap (observed + 1)) b)) m))
      end
  end.
Proof.
  intros Hw Hd. unfold shared_ptr_ctor_weak.
  rewrite (bind_Ret _ _ _ _ _ (read_weak_some m w v Hw)).
  rewrite (bind_Ret _ _ _ _ _ (init_shared_none m dst _ Hd)).
  destruct (wp_ctrl_block_ v) as [cb|]; [|done].
  destruct (blocks m !! cb) as [b|] eqn:Hb; unfold bind at 1;
    rewrite (block_local_try_add_shared_ref cb oracle _ m (handle_update_shared _)).
  - destruct (try_add_shared_ref_spec m cb b oracle Hb) as (obs & Hin & Hq & Hrun).
    exists obs. split; [done|]. split; [done|]. rewrite Hrun. cbn [outcome_map].
    destruct (obs =? 0); cbn [negb]; [|done].
    unfold bind, drop_shared, throw. simpl. rewrite lookup_insert_eq.
    f_equal. destruct m as [st bl ob sp wp up t]. unfold set_shared_ptrs, set_blocks.
    simpl in *. f_equal. rewrite delete_insert_eq. by apply delete_id.
  - by rewrite (try_add_shared_ref_undefined m cb oracle Hb).
Qed.

(** [lock()] by the same cases. *)
Lemma weak_ptr_lock_cases
    (m : memory) (dst w : positive) (v : weak_ptr) (oracle : list cas_env) :
  weak_ptrs m !! w = Some v → shared_ptrs m !! dst = None →
  match wp_ctrl_block_ v with
  | None =>
      weak_ptr_lock w dst oracle m =
        Ret tt (set_shared_ptrs (insert dst (mk_shared 0 None)) m)
  | Some cb =>
      match blocks m !! cb with
      | None => weak_ptr_lock w dst oracle m = Undefined
      | Some b =>
          ∃ observed : Z,
            In observed (shared_count_ b :: contended_values oracle) ∧
            (contended_values oracle = [] → observed = shared_count_ b) ∧
            weak_ptr_lock w dst oracle m =
              if observed =? 0
              then Ret tt
                     (set_shared_ptrs (insert dst (mk_shared 0 None))
                        (set_blocks (insert cb (with_shared 0 b)) m))
              else Ret tt
                     (set_shared_ptrs (insert dst (mk_shared (wp_ptr_ v) (Some cb)))
                        (set_blocks
                           (insert cb (with_shared (wrap (observed + 1)) b)) m))
      end
  end.
Proof.
  intros Hw Hd. unfold weak_ptr_lock.
  rewrite (bind_Ret _ _ _ _ _ (read_weak_some m w v Hw)).
  destruct (wp_ctrl_block_ v) as [cb|].
  2:{ unfold shared_ptr_ctor, init_shared. by rewrite Hd. }
  destruct (blocks m !! cb) as [b|] eqn:Hb; unfold bind at 1.
  - destruct (try_add_shared_ref_spec m cb b oracle Hb) as (obs & Hin & Hq & Hrun).
    exists obs. split; [done|]. split; [done|]. rewrite Hrun.
    destruct (obs =? 0); cbn [negb];
      unfold shared_ptr_ctor, shared_ptr_ctor_cb, init_shared; simpl; by rewrite Hd.
  - by rewrite (try_add_shared_ref_undefined m cb oracle Hb).
Qed.

(** C5. Take a weak_ptr [w] on a live control block, a place [dst] for the
    result, and no interference from other threads. If the strong count is
    zero (the target has been disposed of), the constructor
    [shared_ptr(w)] throws [bad_weak_ptr] and leaves the memory as it was,
    while [w.lock()] returns an empty shared_ptr and changes nothing else.
    If the strong count is not zero, neither throws: both return a
    shared_ptr holding the pointer and the block of [w], and the strong
    count has gone up by exactly one (in [size_t] arithmetic, which is
    [+ 1] below [SIZE_MAX]). So the constructor throws exactly when the
    count is zero, and [lock()] never throws. *)
Theorem upgrade_weak
    (m : memory) (w dst cb : positive) (v : weak_ptr) (b : control_block_base)
    (oracle : list cas_env) :
  weak_ptrs m !! w = Some v → wp_ctrl_block_ v = Some cb →
  blocks m !! cb = Some b → shared_ptrs m !! dst = None →
  contended_values oracle = [] →
  (shared_count_ b = 0 →
     shared_ptr_ctor_weak dst w oracle m = Throw bad_weak_ptr m ∧
     weak_ptr_lock w dst oracle m =
       Ret tt (set_shared_ptrs (insert dst (mk_shared 0 None)) m)) ∧
  (shared_count_ b ≠ 0 →
     shared_ptr_ctor_weak dst w oracle m =
       Ret tt (set_shared_ptrs (insert dst (mk_shared (wp_ptr_ v) (Some cb)))
                 (set_blocks
                    (insert cb (with_shared (wrap (shared_count_ b + 1)) b)) m)) ∧
     weak_ptr_lock w dst oracle m =
       Ret tt (set_shared_ptrs (insert dst (mk_shared (wp_ptr_ v) (Some cb)))
                 (set_blocks
                    (insert cb (with_shared (wrap (shared_count_ b + 1)) b)) m)) ∧
     (0 ≤ shared_count_ b < size_t_modulus - 1 →
      wrap (shared_count_ b + 1) = shared_count_ b + 1)).
Proof.
  intros Hw Hc Hb Hd Hq.
  pose proof (shared_ptr_ctor_weak_cases m dst w v oracle Hw Hd) as Hctor.
  pose proof (weak_ptr_lock_cases m dst w v oracle Hw Hd) as Hlock.
  rewrite Hc, Hb in Hctor, Hlock.
  destruct Hctor as (o1 & _ & Ho1 & Hctor). destruct Hlock as (o2 & _ & Ho2 & Hlock).
  rewrite (Ho1 Hq) in Hctor. rewrite (Ho2 Hq) in Hlock. clear o1 o2 Ho1 Ho2.
  split.
  - intros Hz. rewrite Hz in Hctor, Hlock. cbn in Hctor, Hlock.
    assert (Hm : set_blocks (insert cb (with_shared 0 b)) m = m).
    { rewrite <- Hz, with_shared_id. by apply set_blocks_insert_id. }
    rewrite Hm in Hctor, Hlock. done.
  - intros Hnz. destruct (Z.eqb_spec (shared_count_ b) 0) as [|_]; [done|].
    split; [done|]. split; [done|]. intros Hr. apply wrap_small. lia.
Qed.

Lemma upgrade_weak_witness :
  shared_ptr_ctor_weak 2 1 [Spurious] one_expired = Throw bad_weak_ptr one_expired ∧
  weak_ptr_lock 1 2 [Spurious] one_expired =
    Ret tt (set_shared_ptrs (insert 2%positive (mk_shared 0 None)) one_expired).
Proof.
  apply (upgrade_weak one_expired 1 2 1 (mk_weak 100 (Some 1%positive))
           (mk_cb 0 1 (separate_control_block 0 default_delete)) [Spurious]
           eq_refl eq_refl eq_refl eq_refl eq_refl).
  reflexivity.
Defined.

(** The scenario of the tests: a weak_ptr made from a shared_ptr; once the
    shared_ptr is destroyed, [expired()] is true, [lock()] gives an empty
    shared_ptr and the constructor throws; before that, [lock()] gives a
    second owner. *)
Example upgrade_scenario :
  (shared_ptr_ctor_raw 1 100 default_delete false >>
   weak_ptr_ctor_shared 1 1 >>
   weak_ptr_lock 1 2 [] >>
   let* c := shared_ptr_use_count 2 in
   shared_ptr_dtor 2 >> shared_ptr_dtor 1 >>
   let* e := weak_ptr_expired 1 in
   weak_ptr_lock 1 3 [] >>
   let* g := shared_ptr_get 3 in
   ret (c, e, g)) one_object
  = Ret (2, true, 0)
        (mk_memory {[ 1%positive ]}
           (<[1%positive := mk_cb 0 1 (separate_control_block 0 default_delete)]> ∅)
           ∅
           (<[3%positive := mk_shared 0 None]> ∅)
           (<[1%positive := mk_weak 100 (Some 1%positive)]> ∅)
           ∅
           [EvDispose 1; EvDelete 100]) ∧
  (shared_ptr_ctor_raw 1 100 default_delete false >>
   weak_ptr_ctor_shared 1 1 >>
   shared_ptr_dtor 1 >>
   shared_ptr_ctor_weak 2 1 []) one_object
  = Throw bad_weak_ptr
        (mk_memory {[ 1%positive ]}
           (<[1%positive := mk_cb 0 1 (separate_control_block 0 default_delete)]> ∅)
           ∅ ∅
           (<[1%positive := mk_weak 100 (Some 1%positive)]> ∅)
           ∅
           [EvDispose 1; EvDelete 100]).
Proof. split; vm_compute; reflexivity. Qed.

(** ** Failures while a shared_ptr is being made *)

Lemma storage_alloc_free (m : memory) :
  set_storage (fun s => s ∖ {[fresh (storage m)]})
    (set_storage (fun s => {[fresh (storage m)]} ∪ s) m) = m.
Proof.
  destruct m as [st bl ob sp wp up t]. unfold set_storage. simpl. f_equal.
  pose proof (is_fresh st) as Hfresh. apply set_eq. intros x.
  rewrite elem_of_difference, elem_of_union, elem_of_singleton. split.
  - by intros [[Hx|Hx] Hne].
  - intros Hx. split; [by right|]. by intros ->.
Qed.

(** C6, as the code has it. When the allocation fails, [make_shared],
    [allocate_shared] and the constructor and [reset] from a raw pointer
    throw [bad_alloc]; when the constructor of the managed object throws
    [e], [make_shared] and [allocate_shared] throw that same [e]. In every
    case the memory at the throw is the memory at the call: the storage
    obtained for the block has been given back, no control block and no
    handle has been left behind. The object handed to the raw-pointer
    constructor is part of that unchanged memory: it is not deleted and
    stays with the caller. *)
Theorem make_failure_propagates
    (m : memory) (dst : positive) (ctor : option exn) (e : exn) (p : Z) (d : deleter) :
  make_shared dst true ctor m = Throw bad_alloc m ∧
  make_shared dst false (Some e) m = Throw e m ∧
  allocate_shared dst true ctor m = Throw bad_alloc m ∧
  allocate_shared dst false (Some e) m = Throw e m ∧
  shared_ptr_ctor_raw dst p d true m = Throw bad_alloc m ∧
  shared_ptr_reset_raw dst p d true m = Throw bad_alloc m.
Proof.
  split_and!.
  - reflexivity.
  - unfold make_shared, make_inline_control_block, operator_new, operator_delete,
      construct_inline, try_catch, bind, throw. simpl.
    by rewrite storage_alloc_free.
  - reflexivity.
  - unfold allocate_shared, operator_new, operator_delete,
      construct_inline, try_catch, bind, throw. simpl.
    by rewrite storage_alloc_free.
  - reflexivity.
  - reflexivity.
Qed.

(** C6, as written, fails for the adopted object: the allocation of the
    control block fails, [bad_alloc] reaches the caller, and the object at
    address 7 handed to the constructor is still alive, no deleter called. *)
Lemma shared_ptr_ctor_raw_keeps_object :
  shared_ptr_ctor_raw 1 7 default_delete true
      (set_objects (fun _ => {[ 7 ]}) empty_memory)
    = Throw bad_alloc (set_objects (fun _ => {[ 7 ]}) empty_memory) ∧
  bool_decide (7 ∈ objects (set_objects (fun _ => {[ 7 ]}) empty_memory)) = true ∧
  trace (set_objects (fun _ => {[ 7 ]}) empty_memory) = [].
Proof. split; [reflexivity|]. split; [by vm_compute|reflexivity]. Qed.

(** ** expired *)

Lemma to_long_zero (z : Z) : 0 ≤ z < size_t_modulus → (to_long z =? 0) = (z =? 0).
Proof.
  intros Hz. pose proof size_t_modulus_eq as Hmod. unfold to_long.
  destruct (Z.ltb_spec z (2 ^ 63)); [done|].
  destruct (Z.eqb_spec (z - size_t_modulus) 0), (Z.eqb_spec z 0); lia || done.
Qed.

(** Releasing a strong reference of a block that weak handles observe:
    the call returns, the block stays, its strong count is one less, and
    no handle is touched. *)
Lemma release_shared_observed (m : memory) (cb : positive) (b : control_block_base) :
  blocks m !! cb = Some b →
  1 ≤ shared_count_ b < size_t_modulus → 2 ≤ weak_count_ b < size_t_modulus →
  ∃ (m' : memory) (b' : control_block_base),
    release_shared cb m = Ret tt m' ∧ blocks m' !! cb = Some b' ∧
    shared_count_ b' = shared_count_ b - 1 ∧
    weak_ptrs m' = weak_ptrs m ∧ shared_ptrs m' = shared_ptrs m.
Proof.
  intros Hb Hs Hw.
  pose proof (block_local_keeps_weak_ptrs (release_shared cb) m
                (block_local_release_shared cb)) as Hkw.
  pose proof (block_local_keeps_shared_ptrs (release_shared cb) m
                (block_local_release_shared cb)) as Hks.
  destruct (decide (shared_count_ b = 1)) as [H1|H1].
  - rewrite (release_shared_last m cb b Hb H1) in *.
    destruct (dispose_effect _ cb _ (lookup_set_blocks_insert m cb (with_shared 0 b)))
      as (m2 & d & evs & Hd & Hb2 & _ & _).
    rewrite (bind_Ret _ _ _ _ _ Hd) in *.
    assert (Hb2' : blocks m2 !! cb = Some (with_derived d (with_shared 0 b)))
      by (rewrite Hb2; apply lookup_insert_eq).
    rewrite (release_weak_keep m2 cb _ Hb2') in * by (simpl; lia).
    eexists _, _. split; [reflexivity|]. split; [apply lookup_set_blocks_insert|].
    simpl. split; [lia|done].
  - rewrite (release_shared_not_last m cb b Hb) in * by lia.
    eexists _, _. split; [reflexivity|]. split; [apply lookup_set_blocks_insert|].
    by simpl.
Qed.

Lemma weak_ptr_expired_spec (m : memory) (w cb : positive)
    (v : weak_ptr) (b : control_block_base) :
  weak_ptrs m !! w = Some v → wp_ctrl_block_ v = Some cb →
  blocks m !! cb = Some b → 0 ≤ shared_count_ b < size_t_modulus →
  weak_ptr_expired w m = Ret (shared_count_ b =? 0) m.
Proof.
  intros Hw Hc Hb Hr. unfold weak_ptr_expired.
  rewrite (bind_Ret _ _ _ _ _ (weak_ptr_use_count_spec m w cb v b Hw Hc Hb)).
  unfold ret. by rewrite to_long_zero.
Qed.

(** C7. For every weak_ptr whose block, if it has one, is alive,
    [use_count()] returns some [c], which is [0] for a handle without a
    block, and [expired()] returns [c == 0]. Now let the weak_ptr [w] and
    the shared_ptr [s] hold the same live block, with strong count at
    least one and weak count at least two (the weak reference of the
    owners and that of [w]). Then [w.expired()] is false; and after [s] is
    destroyed, or [s.reset()] is called, [w.expired()] is true exactly
    when the strong count was one, that is when [s] was the last
    shared_ptr of the target. *)
Theorem expired_when_last_owner_gone
    (m : memory) (w s cb : positive) (v : weak_ptr) (o : shared_ptr)
    (b : control_block_base) :
  weak_ptrs m !! w = Some v → wp_ctrl_block_ v = Some cb →
  shared_ptrs m !! s = Some o → sp_ctrl_block_ o = Some cb →
  blocks m !! cb = Some b →
  1 ≤ shared_count_ b < size_t_modulus → 2 ≤ weak_count_ b < size_t_modulus →
  (∀ (m1 : memory) (w1 : positive) (v1 : weak_ptr),
     weak_ptrs m1 !! w1 = Some v1 →
     (∀ cb1, wp_ctrl_block_ v1 = Some cb1 → is_Some (blocks m1 !! cb1)) →
     ∃ c : Z, weak_ptr_use_count w1 m1 = Ret c m1 ∧
              weak_ptr_expired w1 m1 = Ret (c =? 0) m1 ∧
              (wp_ctrl_block_ v1 = None → c = 0)) ∧
  weak_ptr_expired w m = Ret false m ∧
  (∃ m', shared_ptr_dtor s m = Ret tt m' ∧
         weak_ptr_expired w m' = Ret (shared_count_ b =? 1) m') ∧
  (∃ m', shared_ptr_reset s m = Ret tt m' ∧
         weak_ptr_expired w m' = Ret (shared_count_ b =? 1) m').
Proof.
  intros Hw Hwc Hs Hsc Hb Hrs Hrw. split_and!.
  - intros m1 w1 v1 Hw1 Hlive. destruct (wp_ctrl_block_ v1) as [cb1|] eqn:Hc1.
    + destruct (Hlive cb1 eq_refl) as [b1 Hb1].
      exists (to_long (shared_count_ b1)).
      pose proof (weak_ptr_use_count_spec m1 w1 cb1 v1 b1 Hw1 Hc1 Hb1) as Hu.
      split; [exact Hu|]. split; [|done].
      unfold weak_ptr_expired. by rewrite (bind_Ret _ _ _ _ _ Hu).
    + exists 0. pose proof (weak_ptr_use_count_empty m1 w1 v1 Hw1 Hc1) as Hu.
      split; [exact Hu|]. split; [|done].
      unfold weak_ptr_expired. by rewrite (bind_Ret _ _ _ _ _ Hu).
  - rewrite (weak_ptr_expired_spec m w cb v b Hw Hwc Hb) by lia.
    by destruct (Z.eqb_spec (shared_count_ b) 0); [lia|].
  - destruct (release_shared_observed m cb b Hb Hrs Hrw)
      as (m' & b' & Hrel & Hb' & Hcnt & Hkw & Hks).
    eexists. split.
    { rewrite (shared_ptr_dtor_spec m s o Hs), Hsc. cbn [release_shared_if].
      rewrite Hrel. reflexivity. }
    rewrite (weak_ptr_expired_spec _ w cb v b'); [|by simpl; rewrite Hkw|done|done|lia].
    rewrite Hcnt.
    destruct (Z.eqb_spec (shared_count_ b - 1) 0), (Z.eqb_spec (shared_count_ b) 1);
      lia || done.
  - destruct (release_shared_observed m cb b Hb Hrs Hrw)
      as (m' & b' & Hrel & Hb' & Hcnt & Hkw & Hks).
    eexists. split.
    { rewrite (shared_ptr_reset_spec m s o Hs), Hsc. cbn [release_shared_if].
      rewrite Hrel. reflexivity. }
    rewrite (weak_ptr_expired_spec _ w cb v b'); [|by simpl; rewrite Hkw|done|done|lia].
    rewrite Hcnt.
    destruct (Z.eqb_spec (shared_count_ b - 1) 0), (Z.eqb_spec (shared_count_ b) 1);
      lia || done.
Qed.

Lemma expired_when_last_owner_gone_witness :
  weak_ptr_expired 1 one_shared_one_weak = Ret false one_shared_one_weak ∧
  (∃ m', shared_ptr_dtor 1 one_shared_one_weak = Ret tt m' ∧
         weak_ptr_expired 1 m' = Ret true m') ∧
  (∃ m', shared_ptr_reset 1 one_shared_one_weak = Ret tt m' ∧
         weak_ptr_expired 1 m' = Ret true m').
Proof.
  apply (expired_when_last_owner_gone one_shared_one_weak 1 1 1
           (mk_weak 100 (Some 1%positive)) (mk_shared 100 (Some 1%positive))
           (mk_cb 1 2 (separate_control_block 100 default_delete))
           eq_refl eq_refl eq_refl eq_refl eq_refl).
  - split; reflexivity.
  - split; [simpl; lia | reflexivity].
Defined.

(** ** unique_ptr: release, then reset with the released pointer *)

(** C8. For a unique_ptr holding [p] with deleter [d], [release()] returns
    [p] and changes nothing but the handle's pointer, which becomes null: no
    deleter is called and the object at [p] stays alive. After it [get()]
    is null and the boolean test is false. [reset(p)] with the released
    pointer then restores the whole memory: [get()], the boolean test and
    the stored deleter are as before, no deleter has been called, and no
    other handle has come to hold [p]. *)
Theorem unique_ptr_release_reset (m : memory) (u : positive) (p : Z) (d : deleter) :
  unique_ptrs m !! u = Some (mk_unique p d) →
  unique_ptr_release u m =
    Ret p (set_unique_ptrs (insert u (mk_unique 0 d)) m) ∧
  (unique_ptr_release u >> unique_ptr_get u) m =
    Ret 0 (set_unique_ptrs (insert u (mk_unique 0 d)) m) ∧
  (unique_ptr_release u >> unique_ptr_bool u) m =
    Ret false (set_unique_ptrs (insert u (mk_unique 0 d)) m) ∧
  (let* r := unique_ptr_release u in unique_ptr_reset u r) m = Ret tt m ∧
  (let* r := unique_ptr_release u in unique_ptr_reset u r >> unique_ptr_get u) m =
    unique_ptr_get u m ∧
  (let* r := unique_ptr_release u in unique_ptr_reset u r >> unique_ptr_bool u) m =
    unique_ptr_bool u m.
Proof.
  intros Hu.
  assert (Hrel : unique_ptr_release u m =
                 Ret p (set_unique_ptrs (insert u (mk_unique 0 d)) m)).
  { unfold unique_ptr_release, bind, read_unique, write_unique, ret.
    by repeat (rewrite Hu; simpl). }
  assert (Hback : unique_ptr_reset u p (set_unique_ptrs (insert u (mk_unique 0 d)) m)
                  = Ret tt m).
  { clear Hrel. destruct m as [st bl ob sp wp up t].
    unfold unique_ptr_reset, bind, read_unique, write_unique, ret, set_unique_ptrs.
    simpl in *. repeat (rewrite lookup_insert_eq; simpl).
    apply Ret_unique_ptrs_ext. rewrite insert_insert_eq. by apply insert_id. }
  split; [exact Hrel|]. split; [|split; [|split; [|split]]].
  - rewrite (bind_Ret _ _ _ _ _ Hrel). unfold unique_ptr_get, bind, read_unique, ret.
    simpl. by rewrite lookup_insert_eq.
  - rewrite (bind_Ret _ _ _ _ _ Hrel). unfold unique_ptr_bool, bind, read_unique, ret.
    simpl. by rewrite lookup_insert_eq.
  - by rewrite (bind_Ret _ _ _ _ _ Hrel).
  - rewrite (bind_Ret _ _ _ _ _ Hrel). by rewrite (bind_Ret _ _ _ _ _ Hback).
  - rewrite (bind_Ret _ _ _ _ _ Hrel). by rewrite (bind_Ret _ _ _ _ _ Hback).
Qed.

Lemma unique_ptr_release_reset_witness :
  unique_ptrs
    (set_objects (fun _ => {[ 100 ]})
       (set_unique_ptrs (insert 1%positive (mk_unique 100 default_delete))
          empty_memory)) !! 1%positive
    = Some (mk_unique 100 default_delete) ∧
  (let* r := unique_ptr_release 1 in unique_ptr_reset 1 r)
    (set_objects (fun _ => {[ 100 ]})
       (set_unique_ptrs (insert 1%positive (mk_unique 100 default_delete))
          empty_memory))
  = Ret tt
      (set_objects (fun _ => {[ 100 ]})
         (set_unique_ptrs (insert 1%positive (mk_unique 100 default_delete))
            empty_memory)).
Proof.
  split; [reflexivity|].
  apply (unique_ptr_release_reset
           (set_objects (fun _ => {[ 100 ]})
              (set_unique_ptrs (insert 1%positive (mk_unique 100 default_delete))
                 empty_memory))
           1 100 default_delete).
  reflexivity.
Defined.

(** ** A shared_ptr from a weak_ptr without a block *)

(** C9. Let [w] and [dst] be unused places. A default-constructed weak_ptr
    at [w] reports [expired() == true], and constructing a shared_ptr at
    [dst] from it returns without throwing: the result has a null pointer
    and no control block. Conversely, whenever the constructor from a
    weak_ptr throws, the exception is [bad_weak_ptr], the weak_ptr holds a
    control block that is alive, and the strong count read there was zero
    (the block's own count when no other thread stored in between). *)
Theorem shared_from_blockless_weak
    (m : memory) (w dst : positive) (oracle : list cas_env) :
  weak_ptrs m !! w = None → shared_ptrs m !! dst = None →
  (weak_ptr_ctor w >> weak_ptr_expired w) m =
    Ret true (set_weak_ptrs (insert w (mk_weak 0 None)) m) ∧
  (weak_ptr_ctor w >> shared_ptr_ctor_weak dst w oracle) m =
    Ret tt (set_shared_ptrs (insert dst (mk_shared 0 None))
              (set_weak_ptrs (insert w (mk_weak 0 None)) m)) ∧
  (weak_ptr_ctor w >> shared_ptr_ctor_weak dst w oracle >> shared_ptr_use_count dst) m =
    Ret 0 (set_shared_ptrs (insert dst (mk_shared 0 None))
             (set_weak_ptrs (insert w (mk_weak 0 None)) m)) ∧
  (∀ (m1 m2 : memory) (w1 dst1 : positive) (oracle1 : list cas_env) (e : exn),
     shared_ptr_ctor_weak dst1 w1 oracle1 m1 = Throw e m2 →
     e = bad_weak_ptr ∧
     ∃ (v : weak_ptr) (cb : positive) (b : control_block_base),
       weak_ptrs m1 !! w1 = Some v ∧ wp_ctrl_block_ v = Some cb ∧
       blocks m1 !! cb = Some b ∧
       In 0 (shared_count_ b :: contended_values oracle1) ∧
       (contended_values oracle1 = [] → shared_count_ b = 0)).
Proof.
  intros Hw Hd.
  assert (Hctor : weak_ptr_ctor w m = Ret tt (set_weak_ptrs (insert w (mk_weak 0 None)) m)).
  { unfold weak_ptr_ctor, init_weak. by rewrite Hw. }
  set (m1 := set_weak_ptrs (insert w (mk_weak 0 None)) m) in *.
  assert (Hw1 : weak_ptrs m1 !! w = Some (mk_weak 0 None)) by apply lookup_insert_eq.
  assert (Hmk : shared_ptr_ctor_weak dst w oracle m1 =
                Ret tt (set_shared_ptrs (insert dst (mk_shared 0 None)) m1)).
  { exact (shared_ptr_ctor_weak_cases m1 dst w (mk_weak 0 None) oracle Hw1 Hd). }
  split_and!.
  - rewrite (bind_Ret _ _ _ _ _ Hctor). unfold weak_ptr_expired.
    by rewrite (bind_Ret _ _ _ _ _
                  (weak_ptr_use_count_empty m1 w (mk_weak 0 None) Hw1 eq_refl)).
  - by rewrite (bind_Ret _ _ _ _ _ Hctor).
  - rewrite (bind_Ret _ _ _ _ _ Hctor), (bind_Ret _ _ _ _ _ Hmk).
    apply (shared_ptr_use_count_empty _ dst (mk_shared 0 None)); [|done].
    apply lookup_insert_eq.
  - clear. intros m1 m2 w1 dst1 oracle1 e Hthrow.
    destruct (weak_ptrs m1 !! w1) as [v|] eqn:Hw.
    2:{ unfold shared_ptr_ctor_weak, read_weak in Hthrow. unfold bind at 1 in Hthrow.
        by rewrite Hw in Hthrow. }
    destruct (shared_ptrs m1 !! dst1) as [x|] eqn:Hd.
    { unfold shared_ptr_ctor_weak in Hthrow.
      rewrite (bind_Ret _ _ _ _ _ (read_weak_some m1 w1 v Hw)) in Hthrow.
      unfold bind at 1 in Hthrow. unfold init_shared in Hthrow.
      by rewrite Hd in Hthrow. }
    pose proof (shared_ptr_ctor_weak_cases m1 dst1 w1 v oracle1 Hw Hd) as Hcases.
    destruct (wp_ctrl_block_ v) as [cb|] eqn:Hc; [|congruence].
    destruct (blocks m1 !! cb) as [b|] eqn:Hb; [|congruence].
    destruct Hcases as (obs & Hin & Hq & Hrun). rewrite Hrun in Hthrow.
    destruct (Z.eqb_spec obs 0) as [Hz|Hz]; [|discriminate].
    inversion Hthrow. subst. split; [done|].
    exists v, cb, b. split_and!; try done. intros Hquiet. by rewrite <- Hq.
Qed.

Lemma shared_from_blockless_weak_witness :
  (weak_ptr_ctor 1 >> shared_ptr_ctor_weak 1 1 [Spurious; Contended 0]) empty_memory =
    Ret tt (set_shared_ptrs (insert 1%positive (mk_shared 0 None))
              (set_weak_ptrs (insert 1%positive (mk_weak 0 None)) empty_memory)).
Proof.
  apply (shared_from_blockless_weak empty_memory 1 1 [Spurious; Contended 0]
           eq_refl eq_refl).
Defined.

(** ** Copy assignment of a shared_ptr to itself *)

Lemma wrap_succ_pred (c : Z) :
  0 < c < size_t_modulus →
  wrap (c + 1) ≠ 1 ∧ wrap (wrap (c + 1) - 1) = c.
Proof.
  intros Hc. destruct (decide (c + 1 < size_t_modulus)) as [Hlt|Hge].
  - rewrite (wrap_small (c + 1)); [|lia]. split; [lia|].
    replace (c + 1 - 1) with c by lia. apply wrap_small. lia.
  - assert (Hc' : c = size_t_modulus - 1) by lia. subst c.
    split; vm_compute; congruence.
Qed.

Lemma add_then_release_shared (m : memory) (cb : positive) (b : control_block_base) :
  blocks m !! cb = Some b → 0 < shared_count_ b < size_t_modulus →
  (add_shared_ref cb >> release_shared cb) m = Ret tt m.
Proof.
  intros Hb Hc. destruct (wrap_succ_pred _ Hc) as [Hne Hback].
  rewrite (bind_Ret _ _ _ _ _ (add_shared_ref_spec m cb b Hb)).
  rewrite (release_shared_keep _ cb _ (lookup_set_blocks_insert m cb _)); [|done].
  cbn [shared_count_ with_shared]. rewrite set_blocks_insert_insert.
  unfold with_shared at 1. cbn [weak_count_ derived with_shared]. rewrite Hback.
  fold (with_shared (shared_count_ b) b). rewrite with_shared_id.
  by rewrite set_blocks_insert_id.
Qed.

(** C10. Let [s] be a shared_ptr that is empty or holds a live block whose
    strong count is at least one (the count [s] itself contributes).
    Then [s = s] returns and leaves the whole memory as it was: the cached
    pointer and the control-block pointer of [s], both counters of every
    block, and the record of calls, so nothing is disposed. *)
Theorem shared_ptr_copy_assign_self (m : memory) (s : positive) (v : shared_ptr) :
  shared_ptrs m !! s = Some v →
  (∀ cb, sp_ctrl_block_ v = Some cb →
         ∃ b, blocks m !! cb = Some b ∧ 0 < shared_count_ b < size_t_modulus) →
  shared_ptr_copy_assign s s m = Ret tt m.
Proof.
  intros Hv Hlive. rewrite (shared_ptr_copy_assign_spec m s s v v Hv Hv).
  assert (Hrun : (add_shared_ref_if (sp_ctrl_block_ v) >>
                  release_shared_if (sp_ctrl_block_ v)) m = Ret tt m).
  { destruct (sp_ctrl_block_ v) as [cb|] eqn:Hc; [|done].
    destruct (Hlive cb eq_refl) as (b & Hb & Hrange).
    by apply (add_then_release_shared m cb b). }
  rewrite Hrun. cbn [outcome_map]. f_equal.
  destruct m as [st bl ob sp wp up t]. unfold set_shared_ptrs. simpl in *.
  f_equal. by apply insert_id.
Qed.

Lemma shared_ptr_copy_assign_self_witness :
  shared_ptr_copy_assign 1 1
    (set_shared_ptrs (insert 1%positive (mk_shared 100 (Some 1%positive)))
       (set_blocks (insert 1%positive
                      (mk_cb 1 1 (separate_control_block 100 default_delete)))
          empty_memory))
  = Ret tt
      (set_shared_ptrs (insert 1%positive (mk_shared 100 (Some 1%positive)))
         (set_blocks (insert 1%positive
                        (mk_cb 1 1 (separate_control_block 100 default_delete)))
            empty_memory)).
Proof.
  apply (shared_ptr_copy_assign_self _ 1 (mk_shared 100 (Some 1%positive))).
  - reflexivity.
  - intros cb Hcb. injection Hcb as <-. eexists. split; [reflexivity|].
    split; reflexivity.
Defined.

(** ** Exact effects of the control-block operations *)

Lemma Ret_memory_ext {A} (a : A) (m m' : memory) :
  storage m = storage m' → blocks m = blocks m' → objects m = objects m' →
  shared_ptrs m = shared_ptrs m' → weak_ptrs m = weak_ptrs m' →
  unique_ptrs m = unique_ptrs m' → trace m = trace m' →
  Ret a m = Ret a m'.
Proof. destruct m, m'. simpl. by intros -> -> -> -> -> -> ->. Qed.

(** [dispose()] in full: it records its calls, runs the deleter on a
    non-null pointer, and a separate block forgets the pointer. *)
Lemma dispose_exact (m : memory) (cb : positive) (b : control_block_base) :
  blocks m !! cb = Some b →
  dispose cb m =
    Ret tt (set_blocks (insert cb (with_derived (disposed_variant (derived b)) b))
              (set_objects (dispose_objects (derived b))
                 (set_trace (fun t => t ++ dispose_events cb (derived b)) m))).
Proof.
  intros Hb. destruct m as [st bl ob sp wp up t]. simpl in Hb.
  unfold dispose, bind, log, get_block, put_block, invoke_deleter, ret,
    set_blocks, set_objects, set_trace.
  simpl. rewrite Hb. destruct b as [sc wc [p d|]]; simpl.
  - destruct (p =? 0) eqn:Hp; simpl.
    + apply Z.eqb_eq in Hp. subst p.
      apply Ret_memory_ext; simpl; try done. symmetry. by apply insert_id.
    + destruct d; simpl; repeat (rewrite Hb; simpl);
        apply Ret_memory_ext; simpl; try done; by rewrite <- app_assoc.
  - apply Ret_memory_ext; simpl; try done; [symmetry; by apply insert_id |].
    by rewrite <- app_assoc.
Qed.

(** The last strong reference goes while weak references remain: the
    object is disposed of, the block stays with a strong count of zero. *)
Lemma release_shared_last_observed (m : memory) (cb : positive) (b : control_block_base) :
  blocks m !! cb = Some b → shared_count_ b = 1 → weak_count_ b ≠ 1 →
  release_shared cb m =
    Ret tt (set_blocks
              (insert cb (mk_cb 0 (wrap (weak_count_ b - 1))
                                (disposed_variant (derived b))))
              (disposed cb (derived b) m)).
Proof.
  intros Hb Hs Hw. rewrite (release_shared_last m cb b Hb Hs).
  rewrite (bind_Ret _ _ _ _ _
             (dispose_exact _ cb _ (lookup_set_blocks_insert m cb (with_shared 0 b)))).
  rewrite (release_weak_keep _ cb (with_derived (disposed_variant (derived b))
                                     (with_shared 0 b))).
  - destruct m as [st bl ob sp wp up t]. destruct b as [sc wc v].
    apply Ret_memory_ext; simpl; try done. by rewrite !insert_insert_eq.
  - simpl. apply lookup_insert_eq.
  - done.
Qed.

(** The last strong reference goes and no weak reference remains: the
    object is disposed of, then the block destroys itself. *)
Lemma release_shared_last_alone (m : memory) (cb : positive) (b : control_block_base) :
  blocks m !! cb = Some b → shared_count_ b = 1 → weak_count_ b = 1 →
  release_shared cb m = Ret tt (destroyed cb (disposed cb (derived b) m)).
Proof.
  intros Hb Hs Hw. rewrite (release_shared_last m cb b Hb Hs).
  rewrite (bind_Ret _ _ _ _ _
             (dispose_exact _ cb _ (lookup_set_blocks_insert m cb (with_shared 0 b)))).
  rewrite (release_weak_last _ cb (with_derived (disposed_variant (derived b))
                                     (with_shared 0 b))).
  - destruct m as [st bl ob sp wp up t]. destruct b as [sc wc v].
    apply Ret_memory_ext; simpl; try done.
    by rewrite !delete_insert_eq.
  - simpl. apply lookup_insert_eq.
  - done.
Qed.

(** The last weak reference goes: the block destroys itself. *)
Lemma release_weak_last_exact (m : memory) (cb : positive) (b : control_block_base) :
  blocks m !! cb = Some b → weak_count_ b = 1 →
  release_weak cb m = Ret tt (destroyed cb m).
Proof. intros Hb Hw. by rewrite (release_weak_last m cb b Hb Hw). Qed.

(** ** Further properties of the control block *)

(** A separate control block forgets its pointer when it disposes of the
    object, so a second [dispose()] records its call and runs no deleter;
    an inline control block has no such guard and runs the destructor in
    place each time. *)
Theorem dispose_again (m : memory) (cb : positive) (b : control_block_base) :
  blocks m !! cb = Some b →
  (∀ p d, derived b = separate_control_block p d → p ≠ 0 →
     (dispose cb >> dispose cb) m =
       Ret tt (set_blocks (insert cb (with_derived (separate_control_block 0 d) b))
                 (set_objects (deleter_objects d p)
                    (set_trace (fun t => t ++ [EvDispose cb; deleter_event d p;
                                               EvDispose cb]) m)))) ∧
  (derived b = inline_control_block →
     (dispose cb >> dispose cb) m =
       Ret tt (set_trace (fun t => t ++ [EvDispose cb; EvDestructInPlace cb;
                                         EvDispose cb; EvDestructInPlace cb]) m)).
Proof.
  intros Hb. split.
  - intros p d Hv Hp.
    rewrite (bind_Ret _ _ _ _ _ (dispose_exact m cb b Hb)).
    rewrite (dispose_exact _ cb _ (lookup_set_blocks_insert _ cb _)).
    destruct m as [st bl ob sp wp up t]. destruct b as [sc wc v].
    simpl in *. subst v. apply Z.eqb_neq in Hp.
    unfold disposed_variant, dispose_objects, dispose_events. simpl. rewrite Hp.
    apply Ret_memory_ext; simpl; try done.
    + by rewrite insert_insert_eq.
    + by rewrite <- app_assoc.
  - intros Hv.
    rewrite (bind_Ret _ _ _ _ _ (dispose_exact m cb b Hb)).
    rewrite (dispose_exact _ cb _ (lookup_set_blocks_insert _ cb _)).
    destruct m as [st bl ob sp wp up t]. destruct b as [sc wc v].
    simpl in *. subst v. simpl.
    apply Ret_memory_ext; simpl; try done.
    + rewrite insert_insert_eq. by apply insert_id.
    + by rewrite <- app_assoc.
Qed.

Lemma dispose_again_witness :
  (dispose 1 >> dispose 1) one_shared =
    Ret tt (set_blocks (insert 1%positive
                          (mk_cb 1 1 (separate_control_block 0 default_delete)))
              (set_objects (fun _ => ∅)
                 (set_trace (fun _ => [EvDispose 1; EvDelete 100; EvDispose 1])
                    one_shared))).
Proof.
  pose proof (proj1 (dispose_again one_shared 1
                       (mk_cb 1 1 (separate_control_block 100 default_delete)) eq_refl)
                    100 default_delete eq_refl) as H.
  rewrite H; [|discriminate]. vm_compute. reflexivity.
Defined.

Lemma add_then_release_weak (m : memory) (cb : positive) (b : control_block_base) :
  blocks m !! cb = Some b → 0 < weak_count_ b < size_t_modulus →
  (add_weak_ref cb >> release_weak cb) m = Ret tt m.
Proof.
  intros Hb Hc. destruct (wrap_succ_pred _ Hc) as [Hne Hback].
  rewrite (bind_Ret _ _ _ _ _ (add_weak_ref_spec m cb b Hb)).
  rewrite (release_weak_keep _ cb _ (lookup_set_blocks_insert m cb _)); [|done].
  cbn [weak_count_ with_weak]. rewrite set_blocks_insert_insert.
  unfold with_weak at 1. cbn [shared_count_ derived with_weak]. rewrite Hback.
  fold (with_weak (weak_count_ b) b). rewrite with_weak_id.
  by rewrite set_blocks_insert_id.
Qed.

(** On a live block with both counts at least one, an acquisition followed
    by the matching release gives back the memory as it was, on the strong
    side and on the weak side: nothing is disposed of or destroyed, also
    when the increment wraps at [SIZE_MAX]. *)
Theorem acquire_release_round_trip
    (m : memory) (cb : positive) (b : control_block_base) :
  blocks m !! cb = Some b →
  0 < shared_count_ b < size_t_modulus → 0 < weak_count_ b < size_t_modulus →
  (add_shared_ref cb >> release_shared cb) m = Ret tt m ∧
  (add_weak_ref cb >> release_weak cb) m = Ret tt m.
Proof.
  intros Hb Hs Hw. split.
  - by apply (add_then_release_shared m cb b).
  - by apply (add_then_release_weak m cb b).
Qed.

Lemma acquire_release_round_trip_witness :
  (add_shared_ref 1 >> release_shared 1) one_shared = Ret tt one_shared ∧
  (add_weak_ref 1 >> release_weak 1) one_shared = Ret tt one_shared.
Proof.
  apply (acquire_release_round_trip one_shared 1
           (mk_cb 1 1 (separate_control_block 100 default_delete)) eq_refl).
  - split; reflexivity.
  - split; reflexivity.
Defined.

(** ** One block at a time *)

(** The library's own code, on behalf of a block, reads and writes that
    block only; a deleter or destructor is a recorded call here (see
    [invoke_deleter]). The lemmas serve the handles that take a new block
    while they release the old one. *)

Lemma touches_only_ret {A} (cb : positive) (a : A) : touches_only cb (ret a).
Proof. intros m m' a' cb' H _. by inversion H. Qed.

Lemma touches_only_bind {A B} (cb : positive) (c : M A) (k : A → M B) :
  touches_only cb c → (∀ a, touches_only cb (k a)) → touches_only cb (bind c k).
Proof.
  intros Hc Hk m m' b cb' Hrun Hne. unfold bind in Hrun.
  destruct (c m) as [a m1|e m1|] eqn:Hcm; [|done|done].
  rewrite (Hk a m1 m' b cb' Hrun Hne). by apply (Hc m m1 a cb').
Qed.

Lemma touches_only_if {A} (cb : positive) (b : bool) (c1 c2 : M A) :
  touches_only cb c1 → touches_only cb c2 → touches_only cb (if b then c1 else c2).
Proof. by destruct b. Qed.

Lemma touches_only_get_block (cb : positive) : touches_only cb (get_block cb).
Proof.
  intros m m' a cb' H _. unfold get_block in H.
  destruct (blocks m !! cb); [|done]. by inversion H.
Qed.

Lemma touches_only_put_block (cb : positive) (b : control_block_base) :
  touches_only cb (put_block cb b).
Proof.
  intros m m' a cb' H Hne. unfold put_block in H.
  destruct (blocks m !! cb); [|done]. inversion H. simpl.
  by rewrite lookup_insert_ne.
Qed.

Lemma touches_only_log (cb : positive) (e : event) : touches_only cb (log e).
Proof. intros m m' a cb' H _. by inversion H. Qed.

Create HintDb touches_only.
#[local] Hint Resolve touches_only_ret touches_only_bind touches_only_if
  touches_only_get_block touches_only_put_block touches_only_log : touches_only.

Lemma touches_only_invoke_deleter (cb : positive) (d : deleter) (p : Z) :
  touches_only cb (invoke_deleter d p).
Proof.
  destruct d; unfold invoke_deleter; [|auto with touches_only].
  apply touches_only_bind; [auto with touches_only|]. intros _.
  intros m m' a cb' H _. by inversion H.
Qed.
#[local] Hint Resolve touches_only_invoke_deleter : touches_only.

Lemma touches_only_dispose (cb : positive) : touches_only cb (dispose cb).
Proof.
  unfold dispose. apply touches_only_bind; [auto with touches_only|]. intros _.
  apply touches_only_bind; [auto with touches_only|]. intros b.
  destruct (derived b); auto 6 with touches_only.
Qed.

Lemma touches_only_destroy (cb : positive) : touches_only cb (destroy cb).
Proof.
  unfold destroy. apply touches_only_bind; [auto with touches_only|]. intros _.
  apply touches_only_bind; [auto with touches_only|]. intros _.
  intros m m' a cb' H Hne. inversion H. simpl. by rewrite lookup_delete_ne.
Qed.
#[local] Hint Resolve touches_only_dispose touches_only_destroy : touches_only.

Lemma touches_only_release_weak (cb : positive) : touches_only cb (release_weak cb).
Proof. unfold release_weak, weak_fetch_sub. auto 8 with touches_only. Qed.
#[local] Hint Resolve touches_only_release_weak : touches_only.

Lemma touches_only_release_shared (cb : positive) : touches_only cb (release_shared cb).
Proof. unfold release_shared, shared_fetch_sub. auto 8 with touches_only. Qed.



(** ** Control blocks stay inside the storage handed out *)

Lemma keeps_cover_ret {A} (a : A) : keeps_cover (ret a).
Proof. by intros m H. Qed.

Lemma keeps_cover_throw {A} (e : exn) : keeps_cover (@throw A e).
Proof. by intros m H. Qed.

Lemma keeps_cover_bind {A B} (c : M A) (k : A → M B) :
  keeps_cover c → (∀ a, keeps_cover (k a)) → keeps_cover (bind c k).
Proof.
  intros Hc Hk m Hm. unfold bind. specialize (Hc m Hm).
  destruct (c m) as [a m1|e m1|]; [by apply Hk|done|done].
Qed.

Lemma keeps_cover_if {A} (b : bool) (c1 c2 : M A) :
  keeps_cover c1 → keeps_cover c2 → keeps_cover (if b then c1 else c2).
Proof. by destruct b. Qed.

Lemma keeps_cover_get_block (cb : positive) : keeps_cover (get_block cb).
Proof. intros m H. unfold get_block. by destruct (blocks m !! cb). Qed.

Lemma keeps_cover_put_block (cb : positive) (b : control_block_base) :
  keeps_cover (put_block cb b).
Proof.
  intros m H. unfold put_block. destruct (blocks m !! cb) as [b0|] eqn:Hb; [|done].
  intros x Hx. simpl in *. destruct (decide (x = cb)) as [->|Hne].
  - apply H. by rewrite Hb.
  - apply H. by rewrite lookup_insert_ne in Hx.
Qed.

Lemma keeps_cover_log (e : event) : keeps_cover (log e).
Proof. by intros m H. Qed.

Create HintDb keeps_cover.
#[local] Hint Resolve keeps_cover_ret keeps_cover_throw keeps_cover_bind keeps_cover_if
  keeps_cover_get_block keeps_cover_put_block keeps_cover_log : keeps_cover.

Lemma keeps_cover_invoke_deleter (d : deleter) (p : Z) : keeps_cover (invoke_deleter d p).
Proof.
  destruct d; unfold invoke_deleter; [|auto with keeps_cover].
  apply keeps_cover_bind; [auto with keeps_cover|]. by intros _ m H.
Qed.
#[local] Hint Resolve keeps_cover_invoke_deleter : keeps_cover.

Lemma keeps_cover_dispose (cb : positive) : keeps_cover (dispose cb).
Proof.
  unfold dispose. apply keeps_cover_bind; [auto with keeps_cover|]. intros _.
  apply keeps_cover_bind; [auto with keeps_cover|]. intros b.
  destruct (derived b); auto 6 with keeps_cover.
Qed.

Lemma keeps_cover_destroy (cb : positive) : keeps_cover (destroy cb).
Proof.
  unfold destroy. apply keeps_cover_bind; [auto with keeps_cover|]. intros _.
  apply keeps_cover_bind; [auto with keeps_cover|]. intros _ m H x Hx. simpl in *.
  destruct (decide (x = cb)) as [->|Hne].
  - rewrite lookup_delete_eq in Hx. by destruct Hx.
  - rewrite lookup_delete_ne in Hx by done.
    apply elem_of_difference. split; [by apply H|]. by rewrite elem_of_singleton.
Qed.
#[local] Hint Resolve keeps_cover_dispose keeps_cover_destroy : keeps_cover.

Lemma keeps_cover_release_weak (cb : positive) : keeps_cover (release_weak cb).
Proof. unfold release_weak, weak_fetch_sub. auto 8 with keeps_cover. Qed.
#[local] Hint Resolve keeps_cover_release_weak : keeps_cover.

Lemma keeps_cover_release_shared (cb : positive) : keeps_cover (release_shared cb).
Proof. unfold release_shared, shared_fetch_sub. auto 8 with keeps_cover. Qed.

Lemma keeps_cover_add_shared_ref (cb : positive) : keeps_cover (add_shared_ref cb).
Proof. unfold add_shared_ref, shared_fetch_add. auto 8 with keeps_cover. Qed.

Lemma keeps_cover_add_weak_ref (cb : positive) : keeps_cover (add_weak_ref cb).
Proof. unfold add_weak_ref, weak_fetch_add. auto 8 with keeps_cover. Qed.
#[local] Hint Resolve keeps_cover_release_shared keeps_cover_add_shared_ref
  keeps_cover_add_weak_ref : keeps_cover.

Lemma keeps_cover_compare_exchange_weak
    (cb : positive) (expected desired : Z) (env : cas_env) :
  keeps_cover (compare_exchange_weak cb expected desired env).
Proof.
  unfold compare_exchange_weak, shared_load.
  apply keeps_cover_bind; [destruct env; auto with keeps_cover|]. intros _.
  auto 8 with keeps_cover.
Qed.
#[local] Hint Resolve keeps_cover_compare_exchange_weak : keeps_cover.

Lemma keeps_cover_try_add_loop (fuel : nat) (cb : positive) :
  ∀ (oracle : list cas_env) (count : Z),
    keeps_cover (try_add_loop fuel cb oracle count).
Proof.
  induction fuel as [|fuel IH]; intros oracle count.
  - by intros m H.
  - rewrite try_add_loop_S. apply keeps_cover_if; [auto with keeps_cover|].
    apply keeps_cover_bind; [auto with keeps_cover|]. intros r.
    apply keeps_cover_if; [auto with keeps_cover|]. apply IH.
Qed.

Lemma keeps_cover_try_add_shared_ref (cb : positive) (oracle : list cas_env) :
  keeps_cover (try_add_shared_ref cb oracle).
Proof.
  unfold try_add_shared_ref, shared_load.
  apply keeps_cover_bind; [auto with keeps_cover|].
  intros count. apply keeps_cover_try_add_loop.
Qed.
#[local] Hint Resolve keeps_cover_try_add_shared_ref : keeps_cover.

(** The handle objects are no part of the condition. *)
Lemma keeps_cover_read_shared (this : positive) : keeps_cover (read_shared this).
Proof. intros m H. unfold read_shared. by destruct (shared_ptrs m !! this). Qed.
Lemma keeps_cover_write_shared (this : positive) (s : shared_ptr) :
  keeps_cover (write_shared this s).
Proof. intros m H. unfold write_shared. by destruct (shared_ptrs m !! this). Qed.
Lemma keeps_cover_init_shared (this : positive) (s : shared_ptr) :
  keeps_cover (init_shared this s).
Proof. intros m H. unfold init_shared. by destruct (shared_ptrs m !! this). Qed.
Lemma keeps_cover_drop_shared (this : positive) : keeps_cover (drop_shared this).
Proof. intros m H. unfold drop_shared. by destruct (shared_ptrs m !! this). Qed.
Lemma keeps_cover_temp_shared : keeps_cover temp_shared.
Proof. by intros m H. Qed.
Lemma keeps_cover_read_weak (this : positive) : keeps_cover (read_weak this).
Proof. intros m H. unfold read_weak. by destruct (weak_ptrs m !! this). Qed.
Lemma keeps_cover_write_weak (this : positive) (w : weak_ptr) :
  keeps_cover (write_weak this w).
Proof. intros m H. unfold write_weak. by destruct (weak_ptrs m !! this). Qed.
Lemma keeps_cover_init_weak (this : positive) (w : weak_ptr) :
  keeps_cover (init_weak this w).
Proof. intros m H. unfold init_weak. by destruct (weak_ptrs m !! this). Qed.
Lemma keeps_cover_drop_weak (this : positive) : keeps_cover (drop_weak this).
Proof. intros m H. unfold drop_weak. by destruct (weak_ptrs m !! this). Qed.
Lemma keeps_cover_temp_weak : keeps_cover temp_weak.
Proof. by intros m H. Qed.
#[local] Hint Resolve keeps_cover_read_shared keeps_cover_write_shared
  keeps_cover_init_shared keeps_cover_drop_shared keeps_cover_temp_shared
  keeps_cover_read_weak keeps_cover_write_weak keeps_cover_init_weak
  keeps_cover_drop_weak keeps_cover_temp_weak : keeps_cover.

Lemma fresh_storage_no_block (m : memory) :
  storage_covers m → blocks m !! fresh (storage m) = None.
Proof.
  intros H. destruct (blocks m !! fresh (storage m)) as [b|] eqn:Hb; [|done].
  exfalso. apply (is_fresh (storage m)). apply H. by rewrite Hb.
Qed.

Lemma keeps_cover_make_control_block (p : Z) (d : deleter) (oom : bool) :
  keeps_cover (make_control_block p d oom).
Proof.
  intros m H. destruct oom; [done|].
  unfold make_control_block, operator_new, construct_block, bind, ret. simpl.
  intros x Hx. simpl in *. apply elem_of_union.
  destruct (decide (x = fresh (storage m))) as [->|Hne].
  - left. by apply elem_of_singleton.
  - right. apply H. by rewrite lookup_insert_ne in Hx.
Qed.

Lemma keeps_cover_new_inline (oom : bool) (ctor : option exn) :
  keeps_cover
    (let* a := operator_new oom in
     try_catch (construct_inline a ctor) (fun e => operator_delete a >> throw e) >>
     ret a).
Proof.
  intros m H. destruct oom; [done|]. destruct ctor as [e|].
  - unfold operator_new, construct_inline, operator_delete, try_catch, bind, throw.
    simpl. intros x Hx. simpl in *. apply elem_of_difference. split.
    + apply elem_of_union. right. by apply H.
    + rewrite elem_of_singleton. intros ->.
      by rewrite (fresh_storage_no_block m H) in Hx; destruct Hx.
  - unfold operator_new, construct_inline, construct_block, try_catch, bind, ret.
    simpl. intros x Hx. simpl in *. apply elem_of_union.
    destruct (decide (x = fresh (storage m))) as [->|Hne].
    + left. by apply elem_of_singleton.
    + right. apply H. by rewrite lookup_insert_ne in Hx.
Qed.
#[local] Hint Resolve keeps_cover_make_control_block keeps_cover_new_inline : keeps_cover.

Lemma keeps_cover_option (c : option positive) (k : positive → M unit) :
  (∀ cb, keeps_cover (k cb)) →
  keeps_cover (match c with Some cb => k cb | None => ret tt end).
Proof. intros Hk. destruct c; [apply Hk | apply keeps_cover_ret]. Qed.

Lemma keeps_cover_shared_ptr_swap (a b : positive) : keeps_cover (shared_ptr_swap a b).
Proof. unfold shared_ptr_swap. auto 20 with keeps_cover. Qed.

Lemma keeps_cover_shared_ptr_dtor (this : positive) : keeps_cover (shared_ptr_dtor this).
Proof.
  unfold shared_ptr_dtor. apply keeps_cover_bind; [auto with keeps_cover|]. intros s.
  apply keeps_cover_bind; [|auto with keeps_cover].
  apply keeps_cover_option. auto with keeps_cover.
Qed.

Lemma keeps_cover_shared_ptr_copy_ctor (this other : positive) :
  keeps_cover (shared_ptr_copy_ctor this other).
Proof.
  unfold shared_ptr_copy_ctor. apply keeps_cover_bind; [auto with keeps_cover|].
  intros o. apply keeps_cover_bind; [auto with keeps_cover|]. intros _.
  apply keeps_cover_option. auto with keeps_cover.
Qed.

Lemma keeps_cover_shared_ptr_move_ctor (this other : positive) :
  keeps_cover (shared_ptr_move_ctor this other).
Proof. unfold shared_ptr_move_ctor. auto 20 with keeps_cover. Qed.

Lemma keeps_cover_shared_ptr_ctor_raw (this : positive) (p : Z) (d : deleter) (oom : bool) :
  keeps_cover (shared_ptr_ctor_raw this p d oom).
Proof. unfold shared_ptr_ctor_raw. auto with keeps_cover. Qed.

Lemma keeps_cover_shared_ptr_ctor (this : positive) : keeps_cover (shared_ptr_ctor this).
Proof. unfold shared_ptr_ctor. auto with keeps_cover. Qed.
#[local] Hint Resolve keeps_cover_shared_ptr_swap keeps_cover_shared_ptr_dtor
  keeps_cover_shared_ptr_copy_ctor keeps_cover_shared_ptr_move_ctor
  keeps_cover_shared_ptr_ctor_raw keeps_cover_shared_ptr_ctor : keeps_cover.

Lemma keeps_cover_weak_ptr_dtor (this : positive) : keeps_cover (weak_ptr_dtor this).
Proof.
  unfold weak_ptr_dtor. apply keeps_cover_bind; [auto with keeps_cover|]. intros s.
  apply keeps_cover_bind; [|auto with keeps_cover].
  apply keeps_cover_option. auto with keeps_cover.
Qed.

Lemma keeps_cover_weak_ptr_swap (a b : positive) : keeps_cover (weak_ptr_swap a b).
Proof. unfold weak_ptr_swap. auto 20 with keeps_cover. Qed.

Lemma keeps_cover_weak_ptr_ctor_shared (this other : positive) :
  keeps_cover (weak_ptr_ctor_shared this other).
Proof.
  unfold weak_ptr_ctor_shared. apply keeps_cover_bind; [auto with keeps_cover|].
  intros o. apply keeps_cover_bind; [auto with keeps_cover|]. intros _.
  apply keeps_cover_option. auto with keeps_cover.
Qed.

Lemma keeps_cover_weak_ptr_copy_ctor (this other : positive) :
  keeps_cover (weak_ptr_copy_ctor this other).
Proof.
  unfold weak_ptr_copy_ctor. apply keeps_cover_bind; [auto with keeps_cover|].
  intros o. apply keeps_cover_bind; [auto with keeps_cover|]. intros _.
  apply keeps_cover_option. auto with keeps_cover.
Qed.

Lemma keeps_cover_weak_ptr_ctor (this : positive) : keeps_cover (weak_ptr_ctor this).
Proof. unfold weak_ptr_ctor. auto with keeps_cover. Qed.
#[local] Hint Resolve keeps_cover_weak_ptr_dtor keeps_cover_weak_ptr_swap
  keeps_cover_weak_ptr_ctor_shared keeps_cover_weak_ptr_copy_ctor
  keeps_cover_weak_ptr_ctor : keeps_cover.

Lemma keeps_cover_shared_ptr_ctor_weak (this other : positive) (oracle : list cas_env) :
  keeps_cover (shared_ptr_ctor_weak this other oracle).
Proof.
  unfold shared_ptr_ctor_weak. apply keeps_cover_bind; [auto with keeps_cover|].
  intros o. apply keeps_cover_bind; [auto with keeps_cover|]. intros _.
  apply keeps_cover_option. intros cb. auto 8 with keeps_cover.
Qed.

Lemma keeps_cover_weak_ptr_lock (this dst : positive) (oracle : list cas_env) :
  keeps_cover (weak_ptr_lock this dst oracle).
Proof.
  unfold weak_ptr_lock. apply keeps_cover_bind; [auto with keeps_cover|].
  intros w. destruct (wp_ctrl_block_ w); [|auto with keeps_cover].
  apply keeps_cover_bind; [auto with keeps_cover|]. intros ok.
  apply keeps_cover_if; [|auto with keeps_cover].
  unfold shared_ptr_ctor_cb. auto with keeps_cover.
Qed.

Lemma keeps_cover_make_tail (dst ctrl_block : positive) :
  keeps_cover
    (shared_ptr_ctor dst >>
     (let* r := read_shared dst in
      write_shared dst (mk_shared (inline_get ctrl_block) (sp_ctrl_block_ r))) >>
     (let* r := read_shared dst in
      write_shared dst (mk_shared (sp_ptr_ r) (Some ctrl_block)))).
Proof. auto 20 with keeps_cover. Qed.

Lemma keeps_cover_shared_ptr_copy_assign (this other : positive) :
  keeps_cover (shared_ptr_copy_assign this other).
Proof. unfold shared_ptr_copy_assign. auto 8 with keeps_cover. Qed.

Lemma keeps_cover_shared_ptr_move_assign (this other : positive) :
  keeps_cover (shared_ptr_move_assign this other).
Proof. unfold shared_ptr_move_assign. auto 8 with keeps_cover. Qed.

Lemma keeps_cover_shared_ptr_reset (this : positive) :
  keeps_cover (shared_ptr_reset this).
Proof. unfold shared_ptr_reset. auto 8 with keeps_cover. Qed.

Lemma keeps_cover_shared_ptr_reset_raw (this : positive) (p : Z) (d : deleter) (oom : bool) :
  keeps_cover (shared_ptr_reset_raw this p d oom).
Proof. unfold shared_ptr_reset_raw. auto 8 with keeps_cover. Qed.

Lemma keeps_cover_weak_ptr_move_ctor (this other : positive) :
  keeps_cover (weak_ptr_move_ctor this other).
Proof. unfold weak_ptr_move_ctor. auto 20 with keeps_cover. Qed.
#[local] Hint Resolve keeps_cover_weak_ptr_move_ctor : keeps_cover.

Lemma keeps_cover_weak_ptr_copy_assign (this other : positive) :
  keeps_cover (weak_ptr_copy_assign this other).
Proof. unfold weak_ptr_copy_assign. auto 8 with keeps_cover. Qed.

Lemma keeps_cover_weak_ptr_move_assign (this other : positive) :
  keeps_cover (weak_ptr_move_assign this other).
Proof. unfold weak_ptr_move_assign. auto 8 with keeps_cover. Qed.

Lemma keeps_cover_weak_ptr_assign_shared (this other : positive) :
  keeps_cover (weak_ptr_assign_shared this other).
Proof. unfold weak_ptr_assign_shared. auto 8 with keeps_cover. Qed.

Lemma keeps_cover_weak_ptr_reset (this : positive) :
  keeps_cover (weak_ptr_reset this).
Proof. unfold weak_ptr_reset. auto 8 with keeps_cover. Qed.

Lemma keeps_cover_make_shared (dst : positive) (oom : bool) (ctor : option exn) :
  keeps_cover (make_shared dst oom ctor).
Proof.
  unfold make_shared, make_inline_control_block.
  apply keeps_cover_bind; [apply keeps_cover_new_inline|].
  intros a. apply keeps_cover_make_tail.
Qed.

Lemma bind_assoc {A B C} (c : M A) (k : A → M B) (h : B → M C) (m : memory) :
  bind (bind c k) h m = bind c (fun a => bind (k a) h) m.
Proof. unfold bind. by destruct (c m). Qed.

Lemma keeps_cover_allocate_shared (dst : positive) (oom : bool) (ctor : option exn) :
  keeps_cover (allocate_shared dst oom ctor).
Proof.
  intros m H.
  pose proof (keeps_cover_bind _ (fun a => _) (keeps_cover_new_inline oom ctor)
                (fun a => keeps_cover_make_tail dst a) m H) as Hk.
  rewrite bind_assoc in Hk. unfold allocate_shared.
  unfold bind at 1 in Hk. unfold bind at 1.
  destruct (operator_new oom m) as [a m1|e m1|]; [|done|done].
  rewrite bind_assoc in Hk. unfold bind at 1 in Hk. unfold bind at 1.
  destruct (try_catch (construct_inline a ctor)
              (λ e, operator_delete a >> throw e) m1) as [[] m2|e m2|]; [|done|done].
  exact Hk.
Qed.

(** If every control block lies in storage that was handed out, it still
    does after any member of shared_ptr or weak_ptr and after either
    factory, whether the call returns or throws: blocks are constructed
    only in storage just obtained, and storage is given back only together
    with its block or before a block was constructed in it. *)
Theorem storage_covers_kept
    (m : memory) (this other : positive) (p : Z) (d : deleter) (oom : bool)
    (ctor : option exn) (oracle : list cas_env) :
  storage_covers m →
  covered_after (shared_ptr_ctor_raw this p d oom m) ∧
  covered_after (shared_ptr_copy_ctor this other m) ∧
  covered_after (shared_ptr_move_ctor this other m) ∧
  covered_after (shared_ptr_ctor_weak this other oracle m) ∧
  covered_after (shared_ptr_dtor this m) ∧
  covered_after (shared_ptr_copy_assign this other m) ∧
  covered_after (shared_ptr_move_assign this other m) ∧
  covered_after (shared_ptr_reset this m) ∧
  covered_after (shared_ptr_reset_raw this p d oom m) ∧
  covered_after (shared_ptr_swap this other m) ∧
  covered_after (weak_ptr_ctor_shared this other m) ∧
  covered_after (weak_ptr_copy_ctor this other m) ∧
  covered_after (weak_ptr_dtor this m) ∧
  covered_after (weak_ptr_copy_assign this other m) ∧
  covered_after (weak_ptr_move_assign this other m) ∧
  covered_after (weak_ptr_assign_shared this other m) ∧
  covered_after (weak_ptr_reset this m) ∧
  covered_after (weak_ptr_lock this other oracle m) ∧
  covered_after (make_shared this oom ctor m) ∧
  covered_after (allocate_shared this oom ctor m).
Proof.
  intros H. split_and!.
  - by apply keeps_cover_shared_ptr_ctor_raw.
  - by apply keeps_cover_shared_ptr_copy_ctor.
  - by apply keeps_cover_shared_ptr_move_ctor.
  - by apply keeps_cover_shared_ptr_ctor_weak.
  - by apply keeps_cover_shared_ptr_dtor.
  - by apply keeps_cover_shared_ptr_copy_assign.
  - by apply keeps_cover_shared_ptr_move_assign.
  - by apply keeps_cover_shared_ptr_reset.
  - by apply keeps_cover_shared_ptr_reset_raw.
  - by apply keeps_cover_shared_ptr_swap.
  - by apply keeps_cover_weak_ptr_ctor_shared.
  - by apply keeps_cover_weak_ptr_copy_ctor.
  - by apply keeps_cover_weak_ptr_dtor.
  - by apply keeps_cover_weak_ptr_copy_assign.
  - by apply keeps_cover_weak_ptr_move_assign.
  - by apply keeps_cover_weak_ptr_assign_shared.
  - by apply keeps_cover_weak_ptr_reset.
  - by apply keeps_cover_weak_ptr_lock.
  - by apply keeps_cover_make_shared.
  - by apply keeps_cover_allocate_shared.
Qed.

Lemma storage_covers_one_shared : storage_covers one_shared.
Proof.
  intros cb [b Hb]. simpl in *. destruct (decide (cb = 1%positive)) as [->|Hne].
  - by apply elem_of_singleton.
  - rewrite lookup_insert_ne in Hb by done. by rewrite lookup_empty in Hb.
Qed.

Lemma storage_covers_kept_witness :
  storage_covers one_shared ∧
  covered_after (shared_ptr_dtor 1 one_shared) ∧
  covered_after (make_shared 2 false (Some bad_alloc) one_shared).
Proof.
  pose proof (storage_covers_kept one_shared 1 1 100 default_delete false
                (Some bad_alloc) [] storage_covers_one_shared) as H.
  split; [exact storage_covers_one_shared|]. split.
  - exact (proj1 (proj2 (proj2 (proj2 (proj2 H))))).
  - pose proof (storage_covers_kept one_shared 2 1 100 default_delete false
                  (Some bad_alloc) [] storage_covers_one_shared) as H2.
    destruct H2 as (_ & _ & _ & _ & _ & _ & _ & _ & _ & _ & _ & _ & _ & _ & _ & _ & _ & _ & Hms & _). exact Hms.
Defined.

(** ** Making a shared_ptr *)

Lemma make_shared_spec (m : memory) (dst : positive) :
  shared_ptrs m !! dst = None →
  make_shared dst false None m =
    Ret tt (set_shared_ptrs
              (insert dst (mk_shared (inline_get (fresh (storage m)))
                                     (Some (fresh (storage m)))))
              (set_blocks (insert (fresh (storage m)) (mk_cb 1 1 inline_control_block))
                 (set_storage (fun st => {[fresh (storage m)]} ∪ st) m))).
Proof.
  intros Hd. destruct m as [st bl ob sp wp up t]. simpl in Hd.
  unfold make_shared, make_inline_control_block, operator_new, construct_inline,
    construct_block, try_catch, shared_ptr_ctor, init_shared, read_shared,
    write_shared, bind, ret.
  simpl. rewrite Hd. simpl. repeat (rewrite lookup_insert_eq; simpl).
  apply Ret_memory_ext; simpl; try done. by rewrite !insert_insert_eq.
Qed.

(** When the control blocks lie in storage handed out and the place [s] is
    unused, [shared_ptr<T> s(p)] with a successful allocation returns with
    [s] holding [p] and a control block at an address where no block was;
    that block is a separate block for [p] with both counts at one, every
    other block is as before, and [s.use_count()] is 1 and [s.unique()]
    true, also for a null [p]. *)
Theorem shared_ptr_from_raw_is_sole_owner
    (m : memory) (s : positive) (p : Z) (d : deleter) :
  storage_covers m → shared_ptrs m !! s = None →
  ∃ (m' : memory) (a : positive),
    shared_ptr_ctor_raw s p d false m = Ret tt m' ∧
    shared_ptrs m' !! s = Some (mk_shared p (Some a)) ∧
    blocks m !! a = None ∧
    blocks m' !! a = Some (mk_cb 1 1 (separate_control_block p d)) ∧
    (∀ cb, cb ≠ a → blocks m' !! cb = blocks m !! cb) ∧
    shared_ptr_get s m' = Ret p m' ∧
    shared_ptr_use_count s m' = Ret 1 m' ∧
    shared_ptr_unique s m' = Ret true m'.
Proof.
  intros Hcov Hs. eexists _, (fresh (storage m)).
  split; [by apply shared_ptr_ctor_raw_spec|].
  set (a := fresh (storage m)). set (m' := set_shared_ptrs _ _).
  assert (Hs' : shared_ptrs m' !! s = Some (mk_shared p (Some a)))
    by apply lookup_insert_eq.
  assert (Hb' : blocks m' !! a = Some (mk_cb 1 1 (separate_control_block p d)))
    by apply lookup_insert_eq.
  assert (Hu : shared_ptr_use_count s m' = Ret 1 m')
    by exact (shared_ptr_use_count_spec m' s a _ _ Hs' eq_refl Hb').
  split_and!; try done.
  - by apply fresh_storage_no_block.
  - intros cb Hne. unfold m'. simpl. by rewrite lookup_insert_ne.
  - unfold shared_ptr_get, read_shared, bind, ret. by rewrite Hs'.
  - unfold shared_ptr_unique. by rewrite (bind_Ret _ _ _ _ _ Hu).
Qed.

Lemma shared_ptr_from_raw_is_sole_owner_witness :
  ∃ (m' : memory) (a : positive),
    shared_ptr_ctor_raw 2 200 default_delete false one_shared = Ret tt m' ∧
    shared_ptrs m' !! 2%positive = Some (mk_shared 200 (Some a)) ∧
    blocks one_shared !! a = None ∧
    blocks m' !! a = Some (mk_cb 1 1 (separate_control_block 200 default_delete)) ∧
    (∀ cb, cb ≠ a → blocks m' !! cb = blocks one_shared !! cb) ∧
    shared_ptr_get 2 m' = Ret 200 m' ∧
    shared_ptr_use_count 2 m' = Ret 1 m' ∧
    shared_ptr_unique 2 m' = Ret true m'.
Proof.
  apply (shared_ptr_from_raw_is_sole_owner one_shared 2 200 default_delete
           storage_covers_one_shared eq_refl).
Defined.

(** [make_shared], when nothing fails, returns a handle on the non-null
    address of the object inside a new inline block, at an address where no
    block was; both counts are one, every other block is as before,
    [use_count()] is 1. Destroying the handle then runs the destructor in
    place and destroys the block, whose [delete this] gives back the storage
    the new-expression took: apart from those three calls recorded, the
    memory is the one before [make_shared] was called. *)
Theorem make_shared_lifecycle (m : memory) (dst : positive) :
  storage_covers m → shared_ptrs m !! dst = None →
  ∃ (m' : memory) (a : positive),
    make_shared dst false None m = Ret tt m' ∧
    shared_ptrs m' !! dst = Some (mk_shared (inline_get a) (Some a)) ∧
    inline_get a ≠ 0 ∧
    blocks m !! a = None ∧
    blocks m' !! a = Some (mk_cb 1 1 inline_control_block) ∧
    (∀ cb, cb ≠ a → blocks m' !! cb = blocks m !! cb) ∧
    shared_ptr_use_count dst m' = Ret 1 m' ∧
    shared_ptr_dtor dst m' =
      Ret tt (set_trace (fun t => t ++ [EvDispose a; EvDestructInPlace a; EvDestroy a]) m).
Proof.
  intros Hcov Hd. eexists _, (fresh (storage m)).
  split; [by apply make_shared_spec|].
  pose proof (fresh_storage_no_block m Hcov) as Hfree.
  pose proof (is_fresh (storage m)) as Hfresh.
  set (a := fresh (storage m)) in *. set (m' := set_shared_ptrs _ _).
  assert (Hs' : shared_ptrs m' !! dst = Some (mk_shared (inline_get a) (Some a)))
    by apply lookup_insert_eq.
  assert (Hb' : blocks m' !! a = Some (mk_cb 1 1 inline_control_block))
    by apply lookup_insert_eq.
  split_and!; try done.
  - intros cb Hne. unfold m'. simpl. by rewrite lookup_insert_ne.
  - exact (shared_ptr_use_count_spec m' dst a _ _ Hs' eq_refl Hb').
  - rewrite (shared_ptr_dtor_spec m' dst _ Hs'). cbn [sp_ctrl_block_ release_shared_if].
    rewrite (release_shared_last_alone m' a _ Hb' eq_refl eq_refl). cbn [outcome_map].
    destruct m as [st bl ob sp wp up t]. apply Ret_memory_ext; simpl in *; try done.
    + apply set_eq. intros x.
      rewrite elem_of_difference, elem_of_union, elem_of_singleton. split.
      * by intros [[Hx|Hx] Hne].
      * intros Hx. split; [by right|]. by intros ->.
    + rewrite delete_insert_eq. by apply delete_id.
    + rewrite delete_insert_eq. by apply delete_id.
    + by rewrite <- app_assoc.
Qed.

Lemma make_shared_lifecycle_witness :
  ∃ (m' : memory) (a : positive),
    make_shared 2 false None one_shared = Ret tt m' ∧
    shared_ptrs m' !! 2%positive = Some (mk_shared (inline_get a) (Some a)) ∧
    inline_get a ≠ 0 ∧
    blocks one_shared !! a = None ∧
    blocks m' !! a = Some (mk_cb 1 1 inline_control_block) ∧
    (∀ cb, cb ≠ a → blocks m' !! cb = blocks one_shared !! cb) ∧
    shared_ptr_use_count 2 m' = Ret 1 m' ∧
    shared_ptr_dtor 2 m' =
      Ret tt (set_trace (fun t => t ++ [EvDispose a; EvDestructInPlace a; EvDestroy a])
                one_shared).
Proof.
  apply (make_shared_lifecycle one_shared 2 storage_covers_one_shared eq_refl).
Defined.

(** ** swap and reset of a shared_ptr *)

(** [a.swap(b)] exchanges what the two handles hold and touches nothing
    else: no counter, no object, no call recorded. Done twice it gives back
    the memory as it was; [a.swap(a)] changes nothing. *)
Theorem shared_ptr_swap_exchanges
    (m : memory) (a b : positive) (va vb : shared_ptr) :
  shared_ptrs m !! a = Some va → shared_ptrs m !! b = Some vb →
  shared_ptr_swap a b m =
    Ret tt (set_shared_ptrs (fun sp => <[b := va]> (<[a := vb]> sp)) m) ∧
  (shared_ptr_swap a b >> shared_ptr_swap a b) m = Ret tt m ∧
  shared_ptr_swap a a m = Ret tt m.
Proof.
  intros Ha Hb.
  assert (Hself : shared_ptr_swap a a m = Ret tt m)
    by apply (shared_ptr_swap_self m a va Ha).
  destruct (decide (a = b)) as [->|Hne].
  - assert (va = vb) by congruence. subst vb. split_and!; try done.
    + rewrite Hself. destruct m as [st bl ob sp wp up t].
      apply Ret_memory_ext; simpl in *; try done.
      rewrite insert_insert_eq. symmetry. by apply insert_id.
    + by rewrite (bind_Ret _ _ _ _ _ Hself).
  - pose proof (shared_ptr_swap_distinct m a b va vb Hne Ha Hb) as H1.
    split_and!; try done.
    rewrite (bind_Ret _ _ _ _ _ H1).
    rewrite (shared_ptr_swap_distinct _ a b vb va Hne).
    + destruct m as [st bl ob sp wp up t].
      apply Ret_memory_ext; simpl in *; try done.
      apply map_eq. intros i.
      destruct (decide (i = a)) as [Hi|Hi], (decide (i = b)) as [Hj|Hj];
        by simplify_map_eq.
    + simpl. by rewrite lookup_insert_ne, lookup_insert_eq.
    + simpl. by rewrite lookup_insert_eq.
Qed.

Lemma shared_ptr_swap_exchanges_witness :
  (shared_ptr_swap 1 2 >> shared_ptr_swap 1 2)
    (set_shared_ptrs (insert 2%positive (mk_shared 0 None)) one_shared)
  = Ret tt (set_shared_ptrs (insert 2%positive (mk_shared 0 None)) one_shared).
Proof.
  apply (shared_ptr_swap_exchanges
           (set_shared_ptrs (insert 2%positive (mk_shared 0 None)) one_shared)
           1 2 (mk_shared 100 (Some 1%positive)) (mk_shared 0 None));
    vm_compute; reflexivity.
Defined.

(** [reset()] gives up what the handle holds, once. An empty handle stays
    empty and nothing else happens. With other owners left the strong
    count goes down by one and nothing is disposed of. A sole owner with
    no weak observer has the object disposed of and the block destroyed.
    Whenever [reset()] returns, [get()] is null, the boolean test is false
    and [use_count()] is 0. *)
Theorem shared_ptr_reset_releases (m : memory) (s : positive) (v : shared_ptr) :
  shared_ptrs m !! s = Some v →
  (sp_ctrl_block_ v = None →
     shared_ptr_reset s m =
       Ret tt (set_shared_ptrs (insert s (mk_shared 0 None)) m)) ∧
  (∀ cb b, sp_ctrl_block_ v = Some cb → blocks m !! cb = Some b →
     2 ≤ shared_count_ b < size_t_modulus →
     shared_ptr_reset s m =
       Ret tt (set_shared_ptrs (insert s (mk_shared 0 None))
                 (set_blocks (insert cb (with_shared (shared_count_ b - 1) b)) m))) ∧
  (∀ cb b, sp_ctrl_block_ v = Some cb → blocks m !! cb = Some b →
     shared_count_ b = 1 → weak_count_ b = 1 →
     shared_ptr_reset s m =
       Ret tt (set_shared_ptrs (insert s (mk_shared 0 None))
                 (destroyed cb (disposed cb (derived b) m)))) ∧
  (∀ m', shared_ptr_reset s m = Ret tt m' →
     shared_ptr_get s m' = Ret 0 m' ∧
     shared_ptr_bool s m' = Ret false m' ∧
     shared_ptr_use_count s m' = Ret 0 m').
Proof.
  intros Hs. pose proof (shared_ptr_reset_spec m s v Hs) as Hspec. split_and!.
  - intros Hc. by rewrite Hspec, Hc.
  - intros cb b Hc Hb Hr. rewrite Hspec, Hc. cbn [release_shared_if].
    by rewrite (release_shared_not_last m cb b Hb Hr).
  - intros cb b Hc Hb H1 Hw. rewrite Hspec, Hc. cbn [release_shared_if].
    by rewrite (release_shared_last_alone m cb b Hb H1 Hw).
  - intros m' Hrun. rewrite Hspec in Hrun.
    destruct (release_shared_if (sp_ctrl_block_ v) m) as [[] m1|e m1|]; [|done|done].
    simpl in Hrun. inversion Hrun. subst m'. clear Hrun.
    assert (Hl : shared_ptrs (set_shared_ptrs (insert s (mk_shared 0 None)) m1) !! s
                 = Some (mk_shared 0 None)) by apply lookup_insert_eq.
    split_and!.
    + unfold shared_ptr_get, read_shared, bind, ret. by rewrite Hl.
    + unfold shared_ptr_bool, read_shared, bind, ret. by rewrite Hl.
    + by apply (shared_ptr_use_count_empty _ s (mk_shared 0 None)).
Qed.

Lemma shared_ptr_reset_releases_witness :
  shared_ptr_reset 1 one_shared =
    Ret tt (set_shared_ptrs (insert 1%positive (mk_shared 0 None))
              (destroyed 1 (disposed 1 (separate_control_block 100 default_delete)
                              one_shared))).
Proof.
  pose proof (shared_ptr_reset_releases one_shared 1 (mk_shared 100 (Some 1%positive))
                eq_refl) as (_ & _ & H & _).
  exact (H 1%positive (mk_cb 1 1 (separate_control_block 100 default_delete))
           eq_refl eq_refl eq_refl eq_refl).
Defined.

Lemma shared_ptr_reset_raw_spec
    (m : memory) (this : positive) (v : shared_ptr) (p : Z) (d : deleter) :
  shared_ptrs m !! this = Some v →
  shared_ptr_reset_raw this p d false m =
    outcome_map
      (set_shared_ptrs (insert this (mk_shared p (Some (fresh (storage m))))))
      (release_shared_if (sp_ctrl_block_ v)
         (set_blocks (insert (fresh (storage m))
                        (mk_cb 1 1 (separate_control_block p d)))
            (set_storage (fun st => {[fresh (storage m)]} ∪ st) m))).
Proof.
  intros Hv. unfold shared_ptr_reset_raw, temp_shared. unfold bind at 1.
  pose proof (temp_shared_fresh m) as Hf.
  set (tmp := fresh (dom (shared_ptrs m))) in *.
  assert (Hne : tmp ≠ this) by (intros ->; congruence).
  rewrite (bind_Ret _ _ _ _ _ (shared_ptr_ctor_raw_spec m tmp p d Hf)).
  set (a := fresh (storage m)).
  set (m1 := set_blocks _ (set_storage _ m)).
  rewrite (shared_ptr_swap_dtor_temp _ tmp this (mk_shared p (Some a)) v Hne).
  2:{ simpl. apply lookup_insert_eq. }
  2:{ simpl. by rewrite lookup_insert_ne. }
  rewrite (block_local_release_shared_if _ _ m1 (handle_update_shared _)).
  rewrite outcome_map_compose.
  apply (outcome_map_shared_ext (release_shared_if (sp_ctrl_block_ v)) m1
           (fun sp => delete tmp (<[this:=mk_shared p (Some a)]>
                                    (<[tmp:=mk_shared p (Some a)]> sp)))
           (insert this (mk_shared p (Some a))));
    [apply block_local_release_shared_if|].
  unfold m1. simpl. apply map_eq. intros i.
  destruct (decide (i = tmp)) as [Hi|Hi], (decide (i = this)) as [Hj|Hj];
    by simplify_map_eq.
Qed.

Lemma release_shared_if_touches (c : option positive) (m m' : memory) (a : positive) :
  release_shared_if c m = Ret tt m' → c ≠ Some a →
  blocks m' !! a = blocks m !! a.
Proof.
  intros Hrun Hne. destruct c as [cb|]; simpl in Hrun.
  - apply (touches_only_release_shared cb m m' tt a Hrun). by intros ->.
  - by inversion Hrun.
Qed.

(** [reset(p)] with a successful allocation, on a handle that is empty or
    holds a live block: whenever it returns, the handle holds [p] and a new
    control block of its own, at an address where no block was, with both
    counts at one, so [use_count()] is 1 and [unique()] true, whatever the
    release of the old block set off. *)
Theorem shared_ptr_reset_raw_adopts
    (m m' : memory) (s : positive) (v : shared_ptr) (p : Z) (d : deleter) :
  storage_covers m → shared_ptrs m !! s = Some v →
  (∀ cb, sp_ctrl_block_ v = Some cb → is_Some (blocks m !! cb)) →
  shared_ptr_reset_raw s p d false m = Ret tt m' →
  ∃ a : positive,
    blocks m !! a = None ∧
    shared_ptrs m' !! s = Some (mk_shared p (Some a)) ∧
    blocks m' !! a = Some (mk_cb 1 1 (separate_control_block p d)) ∧
    shared_ptr_get s m' = Ret p m' ∧
    shared_ptr_use_count s m' = Ret 1 m' ∧
    shared_ptr_unique s m' = Ret true m'.
Proof.
  intros Hcov Hs Hlive Hrun. rewrite (shared_ptr_reset_raw_spec m s v p d Hs) in Hrun.
  pose proof (fresh_storage_no_block m Hcov) as Hfree.
  set (a := fresh (storage m)) in *. set (m1 := set_blocks _ (set_storage _ m)) in *.
  destruct (release_shared_if (sp_ctrl_block_ v) m1) as [[] m2|e m2|] eqn:Hrel;
    [|done|done].
  simpl in Hrun. inversion Hrun. subst m'. clear Hrun.
  assert (Hva : sp_ctrl_block_ v ≠ Some a).
  { intros Hc. destruct (Hlive a Hc) as [b Hb]. congruence. }
  pose proof (release_shared_if_touches _ m1 m2 a Hrel Hva) as Hkeep.
  assert (Hba : blocks m2 !! a = Some (mk_cb 1 1 (separate_control_block p d))).
  { rewrite Hkeep. unfold m1. simpl. apply lookup_insert_eq. }
  set (m3 := set_shared_ptrs _ m2).
  assert (Hs3 : shared_ptrs m3 !! s = Some (mk_shared p (Some a)))
    by apply lookup_insert_eq.
  assert (Hu : shared_ptr_use_count s m3 = Ret 1 m3)
    by exact (shared_ptr_use_count_spec m3 s a _ _ Hs3 eq_refl Hba).
  exists a. split_and!; try done.
  - unfold shared_ptr_get, read_shared, bind, ret. by rewrite Hs3.
  - unfold shared_ptr_unique. by rewrite (bind_Ret _ _ _ _ _ Hu).
Qed.

Lemma shared_ptr_reset_raw_adopts_witness :
  ∃ m' : memory,
    shared_ptr_reset_raw 1 200 default_delete false one_shared = Ret tt m' ∧
    ∃ a : positive,
      blocks one_shared !! a = None ∧
      shared_ptrs m' !! 1%positive = Some (mk_shared 200 (Some a)) ∧
      blocks m' !! a = Some (mk_cb 1 1 (separate_control_block 200 default_delete)) ∧
      shared_ptr_get 1 m' = Ret 200 m' ∧
      shared_ptr_use_count 1 m' = Ret 1 m' ∧
      shared_ptr_unique 1 m' = Ret true m'.
Proof.
  eexists. split; [vm_compute; reflexivity|].
  apply (shared_ptr_reset_raw_adopts one_shared _ 1 (mk_shared 100 (Some 1%positive))
           200 default_delete storage_covers_one_shared eq_refl).
  - intros cb Hcb. injection Hcb as <-. by eexists.
  - vm_compute. reflexivity.
Defined.

(** ** Owners, observers and the order of their end *)

(** Two shared_ptr made from the same non-null raw pointer do not share:
    each gets a control block of its own, they compare equal, each reports
    [use_count() == 1], and when both are destroyed the deleter runs on
    that pointer twice. *)
Theorem same_pointer_adopted_twice
    (m : memory) (s1 s2 : positive) (p : Z) (d : deleter) :
  p ≠ 0 → s1 ≠ s2 → shared_ptrs m !! s1 = None → shared_ptrs m !! s2 = None →
  ∃ (m1 m2 : memory) (a1 a2 : positive),
    a1 ≠ a2 ∧
    (shared_ptr_ctor_raw s1 p d false >> shared_ptr_ctor_raw s2 p d false) m
      = Ret tt m1 ∧
    shared_ptrs m1 !! s1 = Some (mk_shared p (Some a1)) ∧
    shared_ptrs m1 !! s2 = Some (mk_shared p (Some a2)) ∧
    shared_ptr_eq s1 s2 m1 = Ret true m1 ∧
    shared_ptr_use_count s1 m1 = Ret 1 m1 ∧
    shared_ptr_use_count s2 m1 = Ret 1 m1 ∧
    (shared_ptr_dtor s1 >> shared_ptr_dtor s2) m1 = Ret tt m2 ∧
    trace m2 = trace m ++ [EvDispose a1; deleter_event d p; EvDestroy a1;
                           EvDispose a2; deleter_event d p; EvDestroy a2].
Proof.
  intros Hp Hne Hs1 Hs2.
  pose proof (shared_ptr_ctor_raw_spec m s1 p d Hs1) as H1.
  set (a1 := fresh (storage m)) in *.
  set (m0 := set_shared_ptrs _ _) in H1.
  assert (Hs2' : shared_ptrs m0 !! s2 = None).
  { unfold m0. simpl. by rewrite lookup_insert_ne. }
  pose proof (shared_ptr_ctor_raw_spec m0 s2 p d Hs2') as H2.
  set (a2 := fresh (storage m0)) in *.
  set (m1 := set_shared_ptrs _ _) in H2.
  assert (Ha : a1 ≠ a2).
  { intros Heq. apply (is_fresh (storage m0)). fold a2. rewrite <- Heq.
    unfold m0. simpl. apply elem_of_union. left. by apply elem_of_singleton. }
  assert (Hl1 : shared_ptrs m1 !! s1 = Some (mk_shared p (Some a1))).
  { unfold m1, m0. simpl. by rewrite lookup_insert_ne, lookup_insert_eq. }
  assert (Hl2 : shared_ptrs m1 !! s2 = Some (mk_shared p (Some a2))).
  { unfold m1. simpl. by rewrite lookup_insert_eq. }
  assert (Hb1 : blocks m1 !! a1 = Some (mk_cb 1 1 (separate_control_block p d))).
  { unfold m1, m0. simpl. by rewrite lookup_insert_ne, lookup_insert_eq. }
  assert (Hb2 : blocks m1 !! a2 = Some (mk_cb 1 1 (separate_control_block p d))).
  { unfold m1. simpl. by rewrite lookup_insert_eq. }
  pose proof (shared_ptr_dtor_spec m1 s1 _ Hl1) as Hd1.
  cbn [sp_ctrl_block_ release_shared_if] in Hd1.
  rewrite (release_shared_last_alone m1 a1 _ Hb1 eq_refl eq_refl) in Hd1.
  cbn [outcome_map derived] in Hd1.
  set (m1' := set_shared_ptrs (delete s1) _) in Hd1.
  assert (Hl2' : shared_ptrs m1' !! s2 = Some (mk_shared p (Some a2))).
  { unfold m1'. simpl. by rewrite lookup_delete_ne. }
  assert (Hb2' : blocks m1' !! a2 = Some (mk_cb 1 1 (separate_control_block p d))).
  { unfold m1'. simpl. by rewrite lookup_delete_ne. }
  pose proof (shared_ptr_dtor_spec m1' s2 _ Hl2') as Hd2.
  cbn [sp_ctrl_block_ release_shared_if] in Hd2.
  rewrite (release_shared_last_alone m1' a2 _ Hb2' eq_refl eq_refl) in Hd2.
  cbn [outcome_map derived] in Hd2.
  eexists m1, _, a1, a2. split_and!; try done.
  - by rewrite (bind_Ret _ _ _ _ _ H1).
  - unfold shared_ptr_eq, shared_ptr_get, read_shared, bind, ret.
    rewrite Hl1, Hl2. simpl. by rewrite Z.eqb_refl.
  - exact (shared_ptr_use_count_spec m1 s1 a1 _ _ Hl1 eq_refl Hb1).
  - exact (shared_ptr_use_count_spec m1 s2 a2 _ _ Hl2 eq_refl Hb2).
  - rewrite (bind_Ret _ _ _ _ _ Hd1). exact Hd2.
  - simpl. apply Z.eqb_neq in Hp. rewrite Hp. by rewrite <- !app_assoc.
Qed.

Lemma same_pointer_adopted_twice_witness :
  ∃ (m1 m2 : memory) (a1 a2 : positive),
    a1 ≠ a2 ∧
    (shared_ptr_ctor_raw 1 100 default_delete false >>
     shared_ptr_ctor_raw 2 100 default_delete false) one_object = Ret tt m1 ∧
    shared_ptrs m1 !! 1%positive = Some (mk_shared 100 (Some a1)) ∧
    shared_ptrs m1 !! 2%positive = Some (mk_shared 100 (Some a2)) ∧
    shared_ptr_eq 1 2 m1 = Ret true m1 ∧
    shared_ptr_use_count 1 m1 = Ret 1 m1 ∧
    shared_ptr_use_count 2 m1 = Ret 1 m1 ∧
    (shared_ptr_dtor 1 >> shared_ptr_dtor 2) m1 = Ret tt m2 ∧
    trace m2 = trace one_object ++
               [EvDispose a1; deleter_event default_delete 100; EvDestroy a1;
                EvDispose a2; deleter_event default_delete 100; EvDestroy a2].
Proof.
  apply (same_pointer_adopted_twice one_object 1 2 100 default_delete);
    [discriminate | discriminate | reflexivity | reflexivity].
Defined.

(** Copy assignment [a = b] between two handles on different live blocks:
    the block of [b] gains a strong reference, [a] then holds what [b]
    holds, and the block [a] held loses one; if [a] was one of several
    owners nothing is disposed of, if it was the sole owner with no weak
    observer the object is disposed of and its block destroyed. *)
Theorem shared_ptr_copy_assign_rebinds
    (m : memory) (a b ca cb : positive) (va vb : shared_ptr)
    (ba bb : control_block_base) :
  shared_ptrs m !! a = Some va → shared_ptrs m !! b = Some vb →
  sp_ctrl_block_ va = Some ca → sp_ctrl_block_ vb = Some cb → ca ≠ cb →
  blocks m !! ca = Some ba → blocks m !! cb = Some bb →
  0 ≤ shared_count_ bb → shared_count_ bb + 1 < size_t_modulus →
  (2 ≤ shared_count_ ba < size_t_modulus →
     shared_ptr_copy_assign a b m =
       Ret tt (set_shared_ptrs (insert a vb)
                 (set_blocks (insert ca (with_shared (shared_count_ ba - 1) ba))
                    (set_blocks (insert cb (with_shared (shared_count_ bb + 1) bb))
                       m)))) ∧
  (shared_count_ ba = 1 → weak_count_ ba = 1 →
     shared_ptr_copy_assign a b m =
       Ret tt (set_shared_ptrs (insert a vb)
                 (destroyed ca
                    (disposed ca (derived ba)
                       (set_blocks (insert cb (with_shared (shared_count_ bb + 1) bb))
                          m))))).
Proof.
  intros Ha Hb Hca Hcb Hne Hba Hbb Hpos Hfit.
  pose proof (shared_ptr_copy_assign_spec m a b va vb Ha Hb) as Hspec.
  rewrite Hca, Hcb in Hspec. cbn [add_shared_ref_if release_shared_if] in Hspec.
  rewrite (bind_Ret _ _ _ _ _ (add_shared_ref_spec m cb bb Hbb)) in Hspec.
  rewrite (wrap_small (shared_count_ bb + 1)) in Hspec by lia.
  set (m1 := set_blocks _ m) in *.
  assert (Hba1 : blocks m1 !! ca = Some ba).
  { unfold m1. simpl. by rewrite lookup_insert_ne. }
  split.
  - intros Hr. by rewrite Hspec, (release_shared_not_last m1 ca ba Hba1 Hr).
  - intros H1 Hw. by rewrite Hspec, (release_shared_last_alone m1 ca ba Hba1 H1 Hw).
Qed.

Lemma shared_ptr_copy_assign_rebinds_witness :
  shared_ptr_copy_assign 1 2
    (set_shared_ptrs (insert 2%positive (mk_shared 200 (Some 2%positive)))
       (set_blocks (insert 2%positive (mk_cb 1 1 inline_control_block)) one_shared))
  = Ret tt
      (set_shared_ptrs (insert 1%positive (mk_shared 200 (Some 2%positive)))
         (destroyed 1
            (disposed 1 (separate_control_block 100 default_delete)
               (set_blocks (insert 2%positive (mk_cb 2 1 inline_control_block))
                  (set_shared_ptrs (insert 2%positive (mk_shared 200 (Some 2%positive)))
                     (set_blocks (insert 2%positive (mk_cb 1 1 inline_control_block))
                        one_shared)))))).
Proof.
  pose proof (shared_ptr_copy_assign_rebinds
                (set_shared_ptrs (insert 2%positive (mk_shared 200 (Some 2%positive)))
                   (set_blocks (insert 2%positive (mk_cb 1 1 inline_control_block))
                      one_shared))
                1 2 1 2 (mk_shared 100 (Some 1%positive))
                (mk_shared 200 (Some 2%positive))
                (mk_cb 1 1 (separate_control_block 100 default_delete))
                (mk_cb 1 1 inline_control_block)) as H.
  assert (H0 : 0 ≤ 1) by lia.
  assert (H1 : 1 + 1 < size_t_modulus) by reflexivity.
  assert (Hne : (1 ≠ 2)%positive) by discriminate.
  specialize (H ltac:(vm_compute; reflexivity) ltac:(vm_compute; reflexivity)
                eq_refl eq_refl Hne
                ltac:(vm_compute; reflexivity) ltac:(vm_compute; reflexivity) H0 H1).
  exact (proj2 H eq_refl eq_refl).
Defined.

(** The end of a sole owner and of the one weak observer of its block, in
    either order, leads to the same memory: the object is disposed of
    once, when the owner ends, and the block destroys itself once, when the
    later of the two ends. *)
Theorem teardown_order_is_irrelevant
    (m : memory) (s w cb : positive) (p q : Z) (v : cb_variant) :
  shared_ptrs m !! s = Some (mk_shared p (Some cb)) →
  weak_ptrs m !! w = Some (mk_weak q (Some cb)) →
  blocks m !! cb = Some (mk_cb 1 2 v) →
  (shared_ptr_dtor s >> weak_ptr_dtor w) m =
    Ret tt (set_shared_ptrs (delete s)
              (set_weak_ptrs (delete w) (destroyed cb (disposed cb v m)))) ∧
  (weak_ptr_dtor w >> shared_ptr_dtor s) m =
    Ret tt (set_shared_ptrs (delete s)
              (set_weak_ptrs (delete w) (destroyed cb (disposed cb v m)))) ∧
  (shared_ptr_dtor s >> weak_ptr_expired w) m =
    Ret true (set_shared_ptrs (delete s)
                (set_blocks (insert cb (mk_cb 0 1 (disposed_variant v)))
                   (disposed cb v m))).
Proof.
  intros Hs Hw Hb.
  pose proof (shared_ptr_dtor_spec m s _ Hs) as Hd1.
  cbn [sp_ctrl_block_ release_shared_if] in Hd1.
  rewrite (release_shared_last_observed m cb _ Hb eq_refl) in Hd1 by (simpl; lia).
  cbn [outcome_map derived weak_count_] in Hd1.
  change (wrap (2 - 1)) with 1 in Hd1.
  set (m1 := set_shared_ptrs (delete s) _) in Hd1.
  assert (Hw1 : weak_ptrs m1 !! w = Some (mk_weak q (Some cb))) by done.
  assert (Hb1 : blocks m1 !! cb = Some (mk_cb 0 1 (disposed_variant v))).
  { unfold m1. simpl. apply lookup_insert_eq. }
  split_and!.
  - rewrite (bind_Ret _ _ _ _ _ Hd1).
    rewrite (weak_ptr_dtor_spec m1 w _ Hw1). cbn [wp_ctrl_block_ release_weak_if].
    rewrite (release_weak_last_exact m1 cb _ Hb1 eq_refl). cbn [outcome_map].
    destruct m as [st bl ob sp wp up t].
    apply Ret_memory_ext; simpl; try done. by rewrite delete_insert_eq.
  - pose proof (weak_ptr_dtor_spec m w _ Hw) as Hd2.
    cbn [wp_ctrl_block_ release_weak_if] in Hd2.
    rewrite (release_weak_keep m cb _ Hb) in Hd2 by (simpl; lia).
    cbn [outcome_map weak_count_] in Hd2. change (wrap (2 - 1)) with 1 in Hd2.
    rewrite (bind_Ret _ _ _ _ _ Hd2).
    set (m2 := set_weak_ptrs (delete w) _).
    assert (Hs2 : shared_ptrs m2 !! s = Some (mk_shared p (Some cb))) by done.
    assert (Hb2 : blocks m2 !! cb = Some (mk_cb 1 1 v)).
    { unfold m2. simpl. apply lookup_insert_eq. }
    rewrite (shared_ptr_dtor_spec m2 s _ Hs2). cbn [sp_ctrl_block_ release_shared_if].
    rewrite (release_shared_last_alone m2 cb _ Hb2 eq_refl eq_refl).
    cbn [outcome_map derived].
    destruct m as [st bl ob sp wp up t].
    apply Ret_memory_ext; simpl; try done. by rewrite delete_insert_eq.
  - rewrite (bind_Ret _ _ _ _ _ Hd1).
    exact (weak_ptr_expired_spec m1 w cb _ _ Hw1 eq_refl Hb1
             ltac:(simpl; split; [lia|reflexivity])).
Qed.

Lemma teardown_order_is_irrelevant_witness :
  (shared_ptr_dtor 1 >> weak_ptr_dtor 1) one_shared_one_weak =
    Ret tt (set_shared_ptrs (delete 1%positive)
              (set_weak_ptrs (delete 1%positive)
                 (destroyed 1 (disposed 1 (separate_control_block 100 default_delete)
                                 one_shared_one_weak)))) ∧
  (weak_ptr_dtor 1 >> shared_ptr_dtor 1) one_shared_one_weak =
    Ret tt (set_shared_ptrs (delete 1%positive)
              (set_weak_ptrs (delete 1%positive)
                 (destroyed 1 (disposed 1 (separate_control_block 100 default_delete)
                                 one_shared_one_weak)))).
Proof.
  pose proof (teardown_order_is_irrelevant one_shared_one_weak 1 1 1 100 100
                (separate_control_block 100 default_delete)
                eq_refl eq_refl eq_refl) as (H1 & H2 & _).
  split; [exact H1 | exact H2].
Defined.

(** A shared_ptr obtained by [lock()] keeps the object alive: when the
    weak_ptr is locked and then the shared_ptr that owned the object is
    destroyed, no counter has changed in the end and nothing is disposed
    of; the new handle holds the block in place of the old one. *)
Theorem lock_keeps_object_alive
    (m : memory) (s w dst cb : positive) (p q : Z) (b : control_block_base)
    (oracle : list cas_env) :
  shared_ptrs m !! s = Some (mk_shared p (Some cb)) →
  weak_ptrs m !! w = Some (mk_weak q (Some cb)) →
  shared_ptrs m !! dst = None →
  blocks m !! cb = Some b →
  0 < shared_count_ b → shared_count_ b + 1 < size_t_modulus →
  contended_values oracle = [] →
  (weak_ptr_lock w dst oracle >> shared_ptr_dtor s) m =
    Ret tt (set_shared_ptrs
              (fun sp => delete s (<[dst := mk_shared q (Some cb)]> sp)) m).
Proof.
  intros Hs Hw Hd Hb Hpos Hfit Hq.
  assert (Hne : dst ≠ s) by (intros ->; congruence).
  pose proof (weak_ptr_lock_cases m dst w _ oracle Hw Hd) as Hlock.
  cbn [wp_ctrl_block_ wp_ptr_] in Hlock. rewrite Hb in Hlock.
  destruct Hlock as (obs & _ & Hobs & Hlock). rewrite (Hobs Hq) in Hlock.
  destruct (Z.eqb_spec (shared_count_ b) 0) as [|_]; [lia|].
  rewrite (wrap_small (shared_count_ b + 1)) in Hlock by lia.
  rewrite (bind_Ret _ _ _ _ _ Hlock).
  set (m1 := set_shared_ptrs _ _).
  assert (Hs1 : shared_ptrs m1 !! s = Some (mk_shared p (Some cb))).
  { unfold m1. simpl. by rewrite lookup_insert_ne. }
  assert (Hb1 : blocks m1 !! cb = Some (with_shared (shared_count_ b + 1) b)).
  { unfold m1. simpl. apply lookup_insert_eq. }
  rewrite (shared_ptr_dtor_spec m1 s _ Hs1). cbn [sp_ctrl_block_ release_shared_if].
  rewrite (release_shared_not_last m1 cb _ Hb1) by (simpl; lia).
  cbn [outcome_map]. destruct m as [st bl ob sp wp up t]. destruct b as [sc wc v].
  apply Ret_memory_ext; simpl in *; try done.
  rewrite insert_insert_eq. replace (sc + 1 - 1) with sc by lia.
  by apply insert_id.
Qed.

Lemma lock_keeps_object_alive_witness :
  (weak_ptr_lock 1 2 [Spurious] >> shared_ptr_dtor 1) one_shared_one_weak =
    Ret tt (set_shared_ptrs
              (fun sp => delete 1%positive
                           (<[2%positive := mk_shared 100 (Some 1%positive)]> sp))
              one_shared_one_weak).
Proof.
  apply (lock_keeps_object_alive one_shared_one_weak 1 1 2 1 100 100
           (mk_cb 1 2 (separate_control_block 100 default_delete)) [Spurious]
           eq_refl eq_refl eq_refl eq_refl); [simpl; lia | reflexivity | reflexivity].
Defined.

(** ** More on weak_ptr *)

Lemma weak_ptr_ctor_shared_spec (m : memory) (this other : positive) (o : shared_ptr) :
  shared_ptrs m !! other = Some o → weak_ptrs m !! this = None →
  weak_ptr_ctor_shared this other m =
    outcome_map
      (set_weak_ptrs (insert this (mk_weak (sp_ptr_ o) (sp_ctrl_block_ o))))
      (add_weak_ref_if (sp_ctrl_block_ o) m).
Proof.
  intros Ho Hn. unfold weak_ptr_ctor_shared. unfold bind at 1. unfold read_shared.
  rewrite Ho. unfold bind at 1. unfold init_weak. rewrite Hn.
  fold (add_weak_ref_if (sp_ctrl_block_ o)).
  apply (block_local_add_weak_ref_if _ _ m (handle_update_weak _)).
Qed.

(** A weak_ptr made from a shared_ptr, or copied from a weak_ptr, on a live
    block adds one to the weak count and leaves the strong count alone;
    when that weak_ptr is destroyed again the memory is as it was before it
    was made. *)
Theorem weak_observer_round_trip
    (m : memory) (s w0 w cb : positive) (vs : shared_ptr) (vw : weak_ptr)
    (b : control_block_base) :
  shared_ptrs m !! s = Some vs → sp_ctrl_block_ vs = Some cb →
  weak_ptrs m !! w0 = Some vw → wp_ctrl_block_ vw = Some cb →
  weak_ptrs m !! w = None →
  blocks m !! cb = Some b → 0 < weak_count_ b < size_t_modulus →
  weak_ptr_ctor_shared w s m =
    Ret tt (set_weak_ptrs (insert w (mk_weak (sp_ptr_ vs) (Some cb)))
              (set_blocks (insert cb (with_weak (wrap (weak_count_ b + 1)) b)) m)) ∧
  weak_ptr_copy_ctor w w0 m =
    Ret tt (set_weak_ptrs (insert w vw)
              (set_blocks (insert cb (with_weak (wrap (weak_count_ b + 1)) b)) m)) ∧
  (weak_ptr_ctor_shared w s >> weak_ptr_dtor w) m = Ret tt m ∧
  (weak_ptr_copy_ctor w w0 >> weak_ptr_dtor w) m = Ret tt m.
Proof.
  intros Hs Hcs Hw0 Hcw Hw Hb Hr.
  destruct (wrap_succ_pred _ Hr) as [Hne Hback].
  pose proof (weak_ptr_ctor_shared_spec m w s vs Hs Hw) as H1.
  rewrite Hcs in H1. cbn [add_weak_ref_if] in H1.
  rewrite (add_weak_ref_spec m cb b Hb) in H1. cbn [outcome_map] in H1.
  pose proof (weak_ptr_copy_ctor_spec m w w0 vw Hw0 Hw) as H2.
  rewrite Hcw in H2. cbn [add_weak_ref_if] in H2.
  rewrite (add_weak_ref_spec m cb b Hb) in H2. cbn [outcome_map] in H2.
  assert (Hrestore : ∀ x : weak_ptr, wp_ctrl_block_ x = Some cb →
            weak_ptr_dtor w
              (set_weak_ptrs (insert w x)
                 (set_blocks (insert cb (with_weak (wrap (weak_count_ b + 1)) b)) m))
            = Ret tt m).
  { intros x Hx.
    rewrite (weak_ptr_dtor_spec _ w x) by (simpl; apply lookup_insert_eq).
    rewrite Hx. cbn [release_weak_if].
    rewrite (release_weak_keep _ cb (with_weak (wrap (weak_count_ b + 1)) b))
      by (simpl; done || apply lookup_insert_eq).
    cbn [outcome_map]. destruct m as [st bl ob sp wp up t]. destruct b as [sc wc v].
    apply Ret_memory_ext; simpl in *; try done.
    - rewrite insert_insert_eq, Hback. by apply insert_id.
    - rewrite delete_insert_eq. by apply delete_id. }
  split_and!; try done.
  - rewrite (bind_Ret _ _ _ _ _ H1). by apply Hrestore.
  - rewrite (bind_Ret _ _ _ _ _ H2). by apply Hrestore.
Qed.

Lemma weak_observer_round_trip_witness :
  (weak_ptr_ctor_shared 2 1 >> weak_ptr_dtor 2) one_shared_one_weak
    = Ret tt one_shared_one_weak ∧
  (weak_ptr_copy_ctor 2 1 >> weak_ptr_dtor 2) one_shared_one_weak
    = Ret tt one_shared_one_weak.
Proof.
  pose proof (weak_observer_round_trip one_shared_one_weak 1 1 2 1
                (mk_shared 100 (Some 1%positive)) (mk_weak 100 (Some 1%positive))
                (mk_cb 1 2 (separate_control_block 100 default_delete))
                eq_refl eq_refl eq_refl eq_refl eq_refl eq_refl
                ltac:(split; reflexivity)) as (_ & _ & H1 & H2).
  split; [exact H1 | exact H2].
Defined.

(** Copy assignment of a weak_ptr to itself is safe: for a weak_ptr that is
    empty or holds a live block with a weak count of at least one (its
    own), [w = w] leaves the whole memory as it was, so the block is not
    destroyed. *)
Theorem weak_ptr_copy_assign_self_safe (m : memory) (w : positive) (v : weak_ptr) :
  weak_ptrs m !! w = Some v →
  (∀ cb, wp_ctrl_block_ v = Some cb →
         ∃ b, blocks m !! cb = Some b ∧ 0 < weak_count_ b < size_t_modulus) →
  weak_ptr_copy_assign w w m = Ret tt m.
Proof.
  intros Hv Hlive. rewrite (weak_ptr_copy_assign_spec m w w v v Hv Hv).
  assert (Hrun : (add_weak_ref_if (wp_ctrl_block_ v) >>
                  release_weak_if (wp_ctrl_block_ v)) m = Ret tt m).
  { destruct (wp_ctrl_block_ v) as [cb|] eqn:Hc; [|done].
    destruct (Hlive cb eq_refl) as (b & Hb & Hrange).
    by apply (add_then_release_weak m cb b). }
  rewrite Hrun. cbn [outcome_map].
  destruct m as [st bl ob sp wp up t].
  apply Ret_memory_ext; simpl in *; try done. by apply insert_id.
Qed.

Lemma weak_ptr_copy_assign_self_safe_witness :
  weak_ptr_copy_assign 1 1 one_expired = Ret tt one_expired.
Proof.
  apply (weak_ptr_copy_assign_self_safe one_expired 1 (mk_weak 100 (Some 1%positive))
           eq_refl).
  intros cb Hcb. injection Hcb as <-. eexists. split; [reflexivity|].
  split; reflexivity.
Defined.

(** [reset()] of a weak_ptr gives up its weak reference, once. An empty
    weak_ptr stays empty; with other references left the weak count goes
    down by one; the last reference of all, on a block whose object is
    gone, makes the block destroy itself, and no [dispose()] is called
    then. Whenever [reset()] returns, [use_count()] is 0 and [expired()]
    true. *)
Theorem weak_ptr_reset_releases (m : memory) (w : positive) (v : weak_ptr) :
  weak_ptrs m !! w = Some v →
  (wp_ctrl_block_ v = None →
     weak_ptr_reset w m = Ret tt (set_weak_ptrs (insert w (mk_weak 0 None)) m)) ∧
  (∀ cb b, wp_ctrl_block_ v = Some cb → blocks m !! cb = Some b →
     2 ≤ weak_count_ b < size_t_modulus →
     weak_ptr_reset w m =
       Ret tt (set_weak_ptrs (insert w (mk_weak 0 None))
                 (set_blocks (insert cb (with_weak (weak_count_ b - 1) b)) m))) ∧
  (∀ cb b, wp_ctrl_block_ v = Some cb → blocks m !! cb = Some b →
     weak_count_ b = 1 →
     weak_ptr_reset w m =
       Ret tt (set_weak_ptrs (insert w (mk_weak 0 None)) (destroyed cb m))) ∧
  (∀ m', weak_ptr_reset w m = Ret tt m' →
     weak_ptr_use_count w m' = Ret 0 m' ∧ weak_ptr_expired w m' = Ret true m').
Proof.
  intros Hw. pose proof (weak_ptr_reset_spec m w v Hw) as Hspec. split_and!.
  - intros Hc. by rewrite Hspec, Hc.
  - intros cb b Hc Hb Hr. rewrite Hspec, Hc. cbn [release_weak_if].
    rewrite (release_weak_keep m cb b Hb) by lia. by rewrite wrap_small by lia.
  - intros cb b Hc Hb H1. rewrite Hspec, Hc. cbn [release_weak_if].
    by rewrite (release_weak_last_exact m cb b Hb H1).
  - intros m' Hrun. rewrite Hspec in Hrun.
    destruct (release_weak_if (wp_ctrl_block_ v) m) as [[] m1|e m1|]; [|done|done].
    simpl in Hrun. inversion Hrun. subst m'. clear Hrun.
    assert (Hu : weak_ptr_use_count w (set_weak_ptrs (insert w (mk_weak 0 None)) m1)
                 = Ret 0 (set_weak_ptrs (insert w (mk_weak 0 None)) m1)).
    { apply (weak_ptr_use_count_empty _ w (mk_weak 0 None)); [|done].
      apply lookup_insert_eq. }
    split; [exact Hu|]. unfold weak_ptr_expired. by rewrite (bind_Ret _ _ _ _ _ Hu).
Qed.

Lemma weak_ptr_reset_releases_witness :
  weak_ptr_reset 1 one_expired =
    Ret tt (set_weak_ptrs (insert 1%positive (mk_weak 0 None))
              (destroyed 1 one_expired)).
Proof.
  pose proof (weak_ptr_reset_releases one_expired 1 (mk_weak 100 (Some 1%positive))
                eq_refl) as (_ & _ & H & _).
  exact (H 1%positive (mk_cb 0 1 (separate_control_block 0 default_delete))
           eq_refl eq_refl eq_refl).
Defined.

Lemma weak_ptr_assign_shared_spec
    (m : memory) (this other : positive) (v : weak_ptr) (o : shared_ptr) :
  weak_ptrs m !! this = Some v → shared_ptrs m !! other = Some o →
  weak_ptr_assign_shared this other m =
    outcome_map
      (set_weak_ptrs (insert this (mk_weak (sp_ptr_ o) (sp_ctrl_block_ o))))
      ((add_weak_ref_if (sp_ctrl_block_ o) >> release_weak_if (wp_ctrl_block_ v)) m).
Proof.
  intros Hv Ho. unfold weak_ptr_assign_shared, temp_weak. unfold bind at 1.
  pose proof (temp_weak_fresh m) as Hf.
  set (tmp := fresh (dom (weak_ptrs m))) in *.
  assert (Hne : tmp ≠ this) by (intros ->; congruence).
  unfold bind at 1. rewrite (weak_ptr_ctor_shared_spec m tmp other o Ho Hf).
  unfold bind at 2.
  destruct (add_weak_ref_if_cases (sp_ctrl_block_ o) m) as [Hu|(ma & Ha & Hsp)].
  { by rewrite Hu. }
  rewrite Ha. cbn [outcome_map].
  set (x := mk_weak (sp_ptr_ o) (sp_ctrl_block_ o)).
  rewrite (weak_ptr_swap_dtor_temp _ tmp this x v Hne).
  2:{ simpl. apply lookup_insert_eq. }
  2:{ simpl. by rewrite lookup_insert_ne, Hsp. }
  rewrite (block_local_release_weak_if _ _ ma (handle_update_weak _)).
  rewrite outcome_map_compose.
  apply (outcome_map_weak_ext (release_weak_if (wp_ctrl_block_ v)) ma
           (fun sp => delete tmp (<[this:=x]> (<[tmp:=x]> sp)))
           (insert this x));
    [apply block_local_release_weak_if|].
  rewrite Hsp. apply map_eq. intros i.
  destruct (decide (i = tmp)) as [Hi|Hi], (decide (i = this)) as [Hj|Hj];
    by simplify_map_eq.
Qed.

(** [w = s] for a weak_ptr and a shared_ptr: the weak_ptr then holds the
    pointer and the block of [s]. If it observed that block already, no
    counter has changed in the end; if it observed another live block with
    other references left, that block loses one weak reference and the
    block of [s] gains one; the strong counts stay. *)
Theorem weak_ptr_assign_shared_rebinds
    (m : memory) (w s cw cs : positive) (vw : weak_ptr) (vs : shared_ptr)
    (bw bs : control_block_base) :
  weak_ptrs m !! w = Some vw → shared_ptrs m !! s = Some vs →
  wp_ctrl_block_ vw = Some cw → sp_ctrl_block_ vs = Some cs →
  blocks m !! cw = Some bw → blocks m !! cs = Some bs →
  0 < weak_count_ bs → weak_count_ bs + 1 < size_t_modulus →
  (cw = cs →
     weak_ptr_assign_shared w s m =
       Ret tt (set_weak_ptrs (insert w (mk_weak (sp_ptr_ vs) (Some cs))) m)) ∧
  (cw ≠ cs → 2 ≤ weak_count_ bw < size_t_modulus →
     weak_ptr_assign_shared w s m =
       Ret tt (set_weak_ptrs (insert w (mk_weak (sp_ptr_ vs) (Some cs)))
                 (set_blocks (insert cw (with_weak (weak_count_ bw - 1) bw))
                    (set_blocks (insert cs (with_weak (weak_count_ bs + 1) bs)) m)))).
Proof.
  intros Hw Hs Hcw Hcs Hbw Hbs Hpos Hfit.
  pose proof (weak_ptr_assign_shared_spec m w s vw vs Hw Hs) as Hspec.
  rewrite Hcw, Hcs in Hspec. cbn [add_weak_ref_if release_weak_if] in Hspec.
  split.
  - intros ->. rewrite Hspec.
    by rewrite (add_then_release_weak m cs bs Hbs) by lia.
  - intros Hne Hr.
    rewrite (bind_Ret _ _ _ _ _ (add_weak_ref_spec m cs bs Hbs)) in Hspec.
    rewrite (wrap_small (weak_count_ bs + 1)) in Hspec by lia.
    rewrite (release_weak_keep _ cw bw) in Hspec.
    + rewrite Hspec. by rewrite wrap_small by lia.
    + simpl. by rewrite lookup_insert_ne.
    + lia.
Qed.

Lemma weak_ptr_assign_shared_rebinds_witness :
  weak_ptr_assign_shared 1 1 one_shared_one_weak =
    Ret tt (set_weak_ptrs (insert 1%positive (mk_weak 100 (Some 1%positive)))
              one_shared_one_weak).
Proof.
  pose proof (weak_ptr_assign_shared_rebinds one_shared_one_weak 1 1 1 1
                (mk_weak 100 (Some 1%positive)) (mk_shared 100 (Some 1%positive))
                (mk_cb 1 2 (separate_control_block 100 default_delete))
                (mk_cb 1 2 (separate_control_block 100 default_delete))
                eq_refl eq_refl eq_refl eq_refl eq_refl eq_refl
                ltac:(simpl; lia) ltac:(reflexivity)) as [H _].
  exact (H eq_refl).
Defined.

(** ** unique_ptr *)

Lemma unique_ptr_reset_exact (m : memory) (u : positive) (old p : Z) (d : deleter) :
  unique_ptrs m !! u = Some (mk_unique old d) →
  unique_ptr_reset u p m =
    if old =? 0
    then Ret tt (set_unique_ptrs (insert u (mk_unique p d)) m)
    else Ret tt (set_unique_ptrs (insert u (mk_unique p d))
                   (set_objects (deleter_objects d old)
                      (set_trace (fun t => t ++ [deleter_event d old]) m))).
Proof.
  intros Hu. destruct m as [st bl ob sp wp up t]. simpl in Hu.
  unfold unique_ptr_reset, bind, read_unique, write_unique, invoke_deleter, log, ret,
    set_unique_ptrs, set_objects, set_trace.
  simpl. repeat (rewrite Hu; simpl). destruct (old =? 0); [done|].
  simpl. rewrite lookup_insert_eq. simpl. by destruct d.
Qed.

(** [reset(p)] makes the handle hold [p] and runs the stored deleter once
    on the pointer held before, unless that was null, in which case no
    deleter runs. It does not compare [p] with the pointer held:
    [u.reset(u.get())] on an owning handle runs the deleter on the very
    object the handle goes on holding. *)
Theorem unique_ptr_reset_deletes_old
    (m : memory) (u : positive) (old p : Z) (d : deleter) :
  unique_ptrs m !! u = Some (mk_unique old d) →
  (old = 0 →
     unique_ptr_reset u p m = Ret tt (set_unique_ptrs (insert u (mk_unique p d)) m)) ∧
  (old ≠ 0 →
     unique_ptr_reset u p m =
       Ret tt (set_unique_ptrs (insert u (mk_unique p d))
                 (set_objects (deleter_objects d old)
                    (set_trace (fun t => t ++ [deleter_event d old]) m))) ∧
     (let* g := unique_ptr_get u in unique_ptr_reset u g >> unique_ptr_get u) m =
       Ret old (set_objects (deleter_objects d old)
                  (set_trace (fun t => t ++ [deleter_event d old]) m))).
Proof.
  intros Hu. pose proof (unique_ptr_reset_exact m u old) as Hr. split.
  - intros ->. by rewrite (Hr p d Hu).
  - intros Hne. apply Z.eqb_neq in Hne. split.
    + by rewrite (Hr p d Hu), Hne.
    + assert (Hg : unique_ptr_get u m = Ret old m).
      { unfold unique_ptr_get, read_unique, bind, ret. by rewrite Hu. }
      rewrite (bind_Ret _ _ _ _ _ Hg).
      assert (Hself : unique_ptr_reset u old m =
                      Ret tt (set_objects (deleter_objects d old)
                                (set_trace (fun t => t ++ [deleter_event d old]) m))).
      { rewrite (Hr old d Hu), Hne. destruct m as [st bl ob sp wp up t].
        apply Ret_memory_ext; simpl in *; try done. by apply insert_id. }
      rewrite (bind_Ret _ _ _ _ _ Hself).
      unfold unique_ptr_get, read_unique, bind, ret. simpl. by rewrite Hu.
Qed.

Lemma unique_ptr_reset_deletes_old_witness :
  (let* g := unique_ptr_get 1 in unique_ptr_reset 1 g >> unique_ptr_get 1)
    (set_unique_ptrs (insert 1%positive (mk_unique 100 default_delete)) one_object)
  = Ret 100
      (set_objects (deleter_objects default_delete 100)
         (set_trace (fun t => t ++ [deleter_event default_delete 100])
            (set_unique_ptrs (insert 1%positive (mk_unique 100 default_delete))
               one_object))).
Proof.
  pose proof (unique_ptr_reset_deletes_old
                (set_unique_ptrs (insert 1%positive (mk_unique 100 default_delete))
                   one_object)
                1 100 0 default_delete eq_refl) as [_ H].
  exact (proj2 (H ltac:(discriminate))).
Defined.

Lemma make_unique_spec (m : memory) (dst : positive) :
  unique_ptrs m !! dst = None →
  make_unique dst false None m =
    Ret tt (set_unique_ptrs
              (insert dst (mk_unique (fresh ({[0]} ∪ objects m)) default_delete))
              (set_objects (fun o => {[fresh ({[0]} ∪ objects m)]} ∪ o) m)).
Proof.
  intros Hd. unfold make_unique, new_object, unique_ptr_ctor, init_unique, bind.
  simpl. by rewrite Hd.
Qed.

(** The destructor of a unique_ptr runs the deleter exactly once when the
    handle owns an object and not at all when it is empty. So an object
    made by [make_unique], which lives at a new non-null address, is
    deleted when its handle is destroyed, and the objects alive are then
    those alive before; and when [make_unique] fails, nothing has
    changed. *)
Theorem make_unique_lifecycle (m : memory) (dst : positive) (p : Z) (d : deleter)
    (ctor : option exn) (e : exn) :
  unique_ptrs m !! dst = None →
  (∃ q : Z,
     q ≠ 0 ∧ (q ∉ objects m) ∧
     make_unique dst false None m =
       Ret tt (set_unique_ptrs (insert dst (mk_unique q default_delete))
                 (set_objects (fun o => {[q]} ∪ o) m)) ∧
     (make_unique dst false None >> unique_ptr_dtor dst) m =
       Ret tt (set_trace (fun t => t ++ [EvDelete q]) m)) ∧
  make_unique dst true ctor m = Throw bad_alloc m ∧
  make_unique dst false (Some e) m = Throw e m ∧
  (unique_ptr_ctor dst p d >> unique_ptr_dtor dst) m =
    if p =? 0 then Ret tt m
    else Ret tt (set_objects (deleter_objects d p)
                   (set_trace (fun t => t ++ [deleter_event d p]) m)).
Proof.
  intros Hd.
  assert (Hdtor : ∀ (m1 : memory) (x : Z) (dx : deleter),
            unique_ptrs m1 !! dst = Some (mk_unique x dx) →
            unique_ptr_dtor dst m1 =
              if x =? 0 then Ret tt (set_unique_ptrs (delete dst) m1)
              else Ret tt (set_unique_ptrs (delete dst)
                             (set_objects (deleter_objects dx x)
                                (set_trace (fun t => t ++ [deleter_event dx x]) m1)))).
  { intros m1 x dx H1. unfold unique_ptr_dtor.
    unfold bind. rewrite (unique_ptr_reset_exact m1 dst x 0 dx H1).
    destruct m1 as [st bl ob sp wp up t]. simpl in H1.
    destruct (x =? 0); unfold drop_unique; simpl; rewrite lookup_insert_eq;
      apply Ret_memory_ext; simpl; try done; by rewrite delete_insert_eq. }
  split_and!.
  - pose proof (is_fresh ({[0]} ∪ objects m)) as Hfresh.
    set (q := fresh ({[0]} ∪ objects m)) in *.
    assert (Hq0 : q ≠ 0).
    { intros H0. apply Hfresh. apply elem_of_union. left. by apply elem_of_singleton. }
    assert (Hqo : q ∉ objects m).
    { intros Hin. apply Hfresh. apply elem_of_union. by right. }
    exists q. split; [done|]. split; [done|].
    pose proof (make_unique_spec m dst Hd) as Hmk. fold q in Hmk.
    split; [exact Hmk|]. rewrite (bind_Ret _ _ _ _ _ Hmk).
    rewrite (Hdtor _ q default_delete) by (simpl; apply lookup_insert_eq).
    apply Z.eqb_neq in Hq0. rewrite Hq0.
    destruct m as [st bl ob sp wp up t]. apply Ret_memory_ext; simpl in *; try done.
    + apply set_eq. intros x.
      rewrite elem_of_difference, elem_of_union, elem_of_singleton. split.
      * by intros [[Hx|Hx] Hne].
      * intros Hx. split; [by right|]. by intros ->.
    + rewrite delete_insert_eq. by apply delete_id.
  - reflexivity.
  - reflexivity.
  - unfold unique_ptr_ctor. unfold bind at 1. unfold init_unique. rewrite Hd.
    rewrite (Hdtor _ p d) by (simpl; apply lookup_insert_eq).
    destruct m as [st bl ob sp wp up t].
    destruct (p =? 0); apply Ret_memory_ext; simpl in *; try done;
      rewrite delete_insert_eq; by apply delete_id.
Qed.

Lemma make_unique_lifecycle_witness :
  make_unique 1 true None one_object = Throw bad_alloc one_object ∧
  (unique_ptr_ctor 1 100 default_delete >> unique_ptr_dtor 1) one_object =
    if 100 =? 0 then Ret tt one_object
    else Ret tt (set_objects (deleter_objects default_delete 100)
                   (set_trace (fun t => t ++ [deleter_event default_delete 100])
                      one_object)).
Proof.
  pose proof (make_unique_lifecycle one_object 1 100 default_delete None bad_alloc
                eq_refl) as (_ & H1 & _ & H2).
  split; [exact H1 | exact H2].
Defined.

(** Ownership moves with a unique_ptr. Move construction hands pointer and
    deleter to the new handle, nulls the source and runs no deleter. Move
    assignment between two handles first runs the target's deleter on what
    the target held (unless null), then the target takes the source's
    pointer and deleter and the source is null; the object that moved is
    not deleted. *)
Theorem unique_ptr_move_transfers
    (m : memory) (this other dst : positive) (pt po : Z) (dt d_o : deleter) :
  this ≠ other →
  unique_ptrs m !! this = Some (mk_unique pt dt) →
  unique_ptrs m !! other = Some (mk_unique po d_o) →
  unique_ptrs m !! dst = None →
  unique_ptr_move_ctor dst other m =
    Ret tt (set_unique_ptrs
              (fun up => <[other := mk_unique 0 d_o]> (<[dst := mk_unique po d_o]> up))
              m) ∧
  unique_ptr_move_assign this other m =
    if pt =? 0
    then Ret tt (set_unique_ptrs
                   (fun up => <[other := mk_unique 0 d_o]>
                                (<[this := mk_unique po d_o]> up)) m)
    else Ret tt (set_unique_ptrs
                   (fun up => <[other := mk_unique 0 d_o]>
                                (<[this := mk_unique po d_o]> up))
                   (set_objects (deleter_objects dt pt)
                      (set_trace (fun t => t ++ [deleter_event dt pt]) m))).
Proof.
  intros Hne Ht Ho Hd.
  assert (Hdo : dst ≠ other) by (intros ->; congruence).
  split.
  - destruct m as [st bl ob sp wp up t]. simpl in *.
    unfold unique_ptr_move_ctor, bind, read_unique, write_unique, init_unique, ret,
      set_unique_ptrs.
    simpl. repeat (simplify_map_eq; simpl). done.
  - unfold unique_ptr_move_assign.
    unfold bind at 1. rewrite (unique_ptr_reset_exact m this pt 0 dt Ht).
    destruct m as [st bl ob sp wp up t]. simpl in *.
    destruct (pt =? 0);
      unfold bind, read_unique, write_unique, ret, set_unique_ptrs, set_objects,
        set_trace; simpl; repeat (simplify_map_eq; simpl);
      apply Ret_memory_ext; simpl; try done;
      apply map_eq; intros i;
      destruct (decide (i = this)) as [Hi|Hi], (decide (i = other)) as [Hj|Hj];
      by simplify_map_eq.
Qed.

Lemma unique_ptr_move_transfers_witness :
  unique_ptr_move_assign 1 2 two_unique =
    Ret tt (set_unique_ptrs
              (fun up => <[2%positive := mk_unique 0 (custom_deleter 7)]>
                           (<[1%positive := mk_unique 200 (custom_deleter 7)]> up))
              (set_objects (deleter_objects default_delete 100)
                 (set_trace (fun t => t ++ [deleter_event default_delete 100])
                    two_unique))).
Proof.
  assert (Hne : (1 ≠ 2)%positive) by discriminate.
  assert (H1 : unique_ptrs two_unique !! 1%positive = Some (mk_unique 100 default_delete))
    by (vm_compute; reflexivity).
  assert (H2 : unique_ptrs two_unique !! 2%positive
               = Some (mk_unique 200 (custom_deleter 7)))
    by (vm_compute; reflexivity).
  assert (H3 : unique_ptrs two_unique !! 3%positive = None)
    by (vm_compute; reflexivity).
  exact (proj2 (unique_ptr_move_transfers two_unique 1 2 3 100 200
                  default_delete (custom_deleter 7) Hne H1 H2 H3)).
Defined.

(** Move assignment of an owning unique_ptr to itself is not a no-op: the
    leading [reset()] runs the deleter on the object, and the handle ends
    empty. *)
Theorem unique_ptr_move_assign_self_deletes
    (m : memory) (u : positive) (p : Z) (d : deleter) :
  unique_ptrs m !! u = Some (mk_unique p d) → p ≠ 0 →
  unique_ptr_move_assign u u m =
    Ret tt (set_unique_ptrs (insert u (mk_unique 0 d))
              (set_objects (deleter_objects d p)
                 (set_trace (fun t => t ++ [deleter_event d p]) m))) ∧
  (unique_ptr_move_assign u u >> unique_ptr_get u) m =
    Ret 0 (set_unique_ptrs (insert u (mk_unique 0 d))
             (set_objects (deleter_objects d p)
                (set_trace (fun t => t ++ [deleter_event d p]) m))).
Proof.
  intros Hu Hp. apply Z.eqb_neq in Hp.
  assert (Hrun : unique_ptr_move_assign u u m =
                 Ret tt (set_unique_ptrs (insert u (mk_unique 0 d))
                           (set_objects (deleter_objects d p)
                              (set_trace (fun t => t ++ [deleter_event d p]) m)))).
  { unfold unique_ptr_move_assign.
    unfold bind at 1. rewrite (unique_ptr_reset_exact m u p 0 d Hu), Hp.
    destruct m as [st bl ob sp wp up t]. simpl in *.
    unfold bind, read_unique, write_unique, ret, set_unique_ptrs, set_objects,
      set_trace; simpl; repeat (simplify_map_eq; simpl).
    apply Ret_memory_ext; simpl; try done. by rewrite !insert_insert_eq. }
  split; [exact Hrun|]. rewrite (bind_Ret _ _ _ _ _ Hrun).
  unfold unique_ptr_get, read_unique, bind, ret. simpl. by rewrite lookup_insert_eq.
Qed.

Lemma unique_ptr_move_assign_self_deletes_witness :
  (unique_ptr_move_assign 1 1 >> unique_ptr_get 1)
    (set_unique_ptrs (insert 1%positive (mk_unique 100 default_delete)) one_object)
  = Ret 0 (set_unique_ptrs (insert 1%positive (mk_unique 0 default_delete))
             (set_objects (deleter_objects default_delete 100)
                (set_trace (fun t => t ++ [deleter_event default_delete 100])
                   (set_unique_ptrs (insert 1%positive (mk_unique 100 default_delete))
                      one_object)))).
Proof.
  apply (unique_ptr_move_assign_self_deletes
           (set_unique_ptrs (insert 1%positive (mk_unique 100 default_delete)) one_object)
           1 100 default_delete); [vm_compute; reflexivity | discriminate].
Defined.

(** [a.swap(b)] on unique_ptr exchanges the pointers and the deleters of the
    two handles, runs no deleter and touches nothing else; done twice it
    gives back the memory as it was. *)
Theorem unique_ptr_swap_exchanges
    (m : memory) (a b : positive) (va vb : unique_ptr) :
  a ≠ b → unique_ptrs m !! a = Some va → unique_ptrs m !! b = Some vb →
  unique_ptr_swap a b m =
    Ret tt (set_unique_ptrs (fun up => <[b := va]> (<[a := vb]> up)) m) ∧
  (unique_ptr_swap a b >> unique_ptr_swap a b) m = Ret tt m.
Proof.
  intros Hne Ha Hb.
  assert (Hswap : ∀ (m0 : memory) (x y : unique_ptr),
            unique_ptrs m0 !! a = Some x → unique_ptrs m0 !! b = Some y →
            unique_ptr_swap a b m0 =
              Ret tt (set_unique_ptrs (fun up => <[b := x]> (<[a := y]> up)) m0)).
  { intros m0 [px dx] [py dy] Hx Hy. destruct m0 as [st bl ob sp wp up t].
    unfold unique_ptr_swap, bind, read_unique, write_unique, ret, set_unique_ptrs.
    simpl in *. repeat (simplify_map_eq; simpl).
    apply Ret_unique_ptrs_ext, map_eq. intros i.
    destruct (decide (i = a)) as [Hi|Hi], (decide (i = b)) as [Hj|Hj];
      by simplify_map_eq. }
  split; [by apply Hswap|].
  rewrite (bind_Ret _ _ _ _ _ (Hswap m va vb Ha Hb)).
  rewrite (Hswap _ vb va).
  - destruct m as [st bl ob sp wp up t].
    apply Ret_memory_ext; simpl in *; try done.
    apply map_eq. intros i.
    destruct (decide (i = a)) as [Hi|Hi], (decide (i = b)) as [Hj|Hj];
      by simplify_map_eq.
  - simpl. by rewrite lookup_insert_ne, lookup_insert_eq.
  - simpl. by rewrite lookup_insert_eq.
Qed.

Lemma unique_ptr_swap_exchanges_witness :
  (unique_ptr_swap 1 2 >> unique_ptr_swap 1 2) two_unique = Ret tt two_unique.
Proof.
  assert (Hne : (1 ≠ 2)%positive) by discriminate.
  assert (H1 : unique_ptrs two_unique !! 1%positive = Some (mk_unique 100 default_delete))
    by (vm_compute; reflexivity).
  assert (H2 : unique_ptrs two_unique !! 2%positive
               = Some (mk_unique 200 (custom_deleter 7)))
    by (vm_compute; reflexivity).
  exact (proj2 (unique_ptr_swap_exchanges two_unique 1 2 _ _ Hne H1 H2)).
Defined.

(** ** swap of a weak_ptr, and comparisons *)

(** [a.swap(b)] on weak_ptr exchanges what the two handles hold and touches nothing
    else: no counter, no object, no call recorded. Done twice it gives back
    the memory as it was; [a.swap(a)] changes nothing. *)
Theorem weak_ptr_swap_exchanges
    (m : memory) (a b : positive) (va vb : weak_ptr) :
  weak_ptrs m !! a = Some va → weak_ptrs m !! b = Some vb →
  weak_ptr_swap a b m =
    Ret tt (set_weak_ptrs (fun wp => <[b := va]> (<[a := vb]> wp)) m) ∧
  (weak_ptr_swap a b >> weak_ptr_swap a b) m = Ret tt m ∧
  weak_ptr_swap a a m = Ret tt m.
Proof.
  intros Ha Hb.
  assert (Hself : weak_ptr_swap a a m = Ret tt m)
    by apply (weak_ptr_swap_self m a va Ha).
  destruct (decide (a = b)) as [->|Hne].
  - assert (va = vb) by congruence. subst vb. split_and!; try done.
    + rewrite Hself. destruct m as [st bl ob sp wp up t].
      apply Ret_memory_ext; simpl in *; try done.
      rewrite insert_insert_eq. symmetry. by apply insert_id.
    + by rewrite (bind_Ret _ _ _ _ _ Hself).
  - pose proof (weak_ptr_swap_distinct m a b va vb Hne Ha Hb) as H1.
    split_and!; try done.
    rewrite (bind_Ret _ _ _ _ _ H1).
    rewrite (weak_ptr_swap_distinct _ a b vb va Hne).
    + destruct m as [st bl ob sp wp up t].
      apply Ret_memory_ext; simpl in *; try done.
      apply map_eq. intros i.
      destruct (decide (i = a)) as [Hi|Hi], (decide (i = b)) as [Hj|Hj];
        by simplify_map_eq.
    + simpl. by rewrite lookup_insert_ne, lookup_insert_eq.
    + simpl. by rewrite lookup_insert_eq.
Qed.

Lemma weak_ptr_swap_exchanges_witness :
  (weak_ptr_swap 1 2 >> weak_ptr_swap 1 2)
    (set_weak_ptrs (insert 2%positive (mk_weak 0 None)) one_expired)
  = Ret tt (set_weak_ptrs (insert 2%positive (mk_weak 0 None)) one_expired).
Proof.
  apply (weak_ptr_swap_exchanges
           (set_weak_ptrs (insert 2%positive (mk_weak 0 None)) one_expired)
           1 2 (mk_weak 100 (Some 1%positive)) (mk_weak 0 None));
    vm_compute; reflexivity.
Defined.

(** A copy of a shared_ptr compares equal to its source under [==], not
    under [!=], and neither is less than the other; each compares equal to
    [nullptr] exactly when the source held a null pointer. The comparisons
    leave the memory as the copy left it. *)
Theorem shared_ptr_copy_compares_equal
    (m : memory) (s c : positive) (v : shared_ptr) :
  shared_ptrs m !! s = Some v → shared_ptrs m !! c = None →
  ∀ m', shared_ptr_copy_ctor c s m = Ret tt m' →
    shared_ptr_eq c s m' = Ret true m' ∧
    shared_ptr_ne c s m' = Ret false m' ∧
    shared_ptr_lt c s m' = Ret false m' ∧
    shared_ptr_lt s c m' = Ret false m' ∧
    shared_ptr_eq_null c m' = Ret (sp_ptr_ v =? 0) m' ∧
    shared_ptr_ne_null c m' = Ret (negb (sp_ptr_ v =? 0)) m' ∧
    shared_ptr_eq_null s m' = Ret (sp_ptr_ v =? 0) m'.
Proof.
  intros Hs Hc m' Hrun. rewrite (shared_ptr_copy_ctor_spec m c s v Hs Hc) in Hrun.
  pose proof (block_local_keeps_shared_ptrs (add_shared_ref_if (sp_ctrl_block_ v)) m
                (block_local_add_shared_ref_if _)) as Hk.
  destruct (add_shared_ref_if (sp_ctrl_block_ v) m) as [[] m1|e m1|]; [|done|done].
  simpl in Hrun. inversion Hrun. subst m'. clear Hrun.
  assert (Hne : c ≠ s) by (intros ->; congruence).
  assert (Hlc : shared_ptrs (set_shared_ptrs (insert c v) m1) !! c = Some v)
    by apply lookup_insert_eq.
  assert (Hls : shared_ptrs (set_shared_ptrs (insert c v) m1) !! s = Some v).
  { simpl. by rewrite lookup_insert_ne, Hk. }
  unfold shared_ptr_eq, shared_ptr_ne, shared_ptr_lt, shared_ptr_eq_null,
    shared_ptr_ne_null, shared_ptr_bool, shared_ptr_get, read_shared, bind, ret.
  simpl in Hlc, Hls. simpl. repeat (rewrite ?Hlc, ?Hls; simpl).
  rewrite Z.eqb_refl, Z.ltb_irrefl. simpl. rewrite negb_involutive. by split_and!.
Qed.

Lemma shared_ptr_copy_compares_equal_witness :
  ∃ m' : memory,
    shared_ptr_copy_ctor 2 1 one_shared = Ret tt m' ∧
    shared_ptr_eq 2 1 m' = Ret true m' ∧
    shared_ptr_ne 2 1 m' = Ret false m' ∧
    shared_ptr_lt 2 1 m' = Ret false m' ∧
    shared_ptr_lt 1 2 m' = Ret false m' ∧
    shared_ptr_eq_null 2 m' = Ret (100 =? 0) m' ∧
    shared_ptr_ne_null 2 m' = Ret (negb (100 =? 0)) m' ∧
    shared_ptr_eq_null 1 m' = Ret (100 =? 0) m'.
Proof.
  eexists. split; [vm_compute; reflexivity|].
  apply (shared_ptr_copy_compares_equal one_shared 1 2 (mk_shared 100 (Some 1%positive))
           eq_refl eq_refl).
  vm_compute. reflexivity.
Defined.
